(** * HALP credential system: a shallow embedding of the cryptographic core

    The development follows the TypeScript sources of the repository:
    - [wallet-sdk/src/crypto-utils.ts]       (FieldOperations, HashOperations, CryptoUtils)
    - [wallet-sdk/src/commitment-protocol]   (CommitmentProtocol)
    - [wallet-sdk/src/public-parameters]     (TrustedSetup)
    - [wallet-sdk/src/poseidon-hash]         (PoseidonHash)
    - [wallet-sdk/src/hybrid-proof-generator.ts], [scripts/generate-real-proof.js]
    - [registry-service/src/services/indexed-merkle-tree] (IndexedMerkleTree)
    - [verifier-service/src/services/challenge-manager]   (ChallengeManager)
    - [verifier-service/src/services/hybrid-verifier]     (HybridVerifier)

    JavaScript [bigint] is [Z]; [a % b] on bigints is [Z.rem] (truncated, sign
    of the dividend); [Uint8Array]/[Buffer] is [list byte]; strings are
    [string], read as sequences of code units below 256; a [Map<string, _>] is
    a [gmap string _]; an exception is the [Throws] branch of [completion].
    External libraries (noble BLS12-381, SHA-256, circomlibjs Poseidon,
    snarkjs Groth16, the registry reached over HTTP) are interfaces whose
    implementations are parameters of the development. *)

From Stdlib Require Import ZArith Lia List Bool Ascii String.
From Stdlib Require Import Strings.Byte.
From stdpp Require Import base tactics option numbers list strings gmap.

Local Open Scope Z_scope.

(** ** JavaScript runtime fragments used by the sources *)

Module JS.

Inductive jserror : Type :=
  | SyntaxError
  | TypeError
  | RangeError
  | GenericError (msg : string).

(** Result of evaluating a call: a value, or a thrown exception. *)
Inductive completion (A : Type) : Type :=
  | Returns (a : A)
  | Throws (e : jserror).
Arguments Returns {A} a.
Arguments Throws {A} e.

Definition bind {A B} (c : completion A) (k : A -> completion B) : completion B :=
  match c with
  | Returns a => k a
  | Throws e => Throws e
  end.

(** [try { return c } catch { return d }] *)
Definition catch {A} (c : completion A) (d : A) : A :=
  match c with
  | Returns a => a
  | Throws _ => d
  end.

Definition charCode (c : ascii) : Z := Z.of_N (N_of_ascii c).

Definition charOfCode (n : Z) : ascii := ascii_of_N (Z.to_N n).

(** Digit of [[0-9a-zA-Z]] read in a radix up to 36. *)
Definition digitValue (radix : Z) (c : ascii) : option Z :=
  let n := charCode c in
  let d := if (48 <=? n) && (n <=? 57) then n - 48
           else if (97 <=? n) && (n <=? 122) then n - 87
           else if (65 <=? n) && (n <=? 90) then n - 55
           else radix in
  if d <? radix then Some d else None.

(** Lower-case digit character, as produced by [toString(radix)]. *)
Definition digitChar (d : Z) : ascii :=
  if d <? 10 then charOfCode (48 + d) else charOfCode (87 + d).

Fixpoint parseDigits (radix : Z) (acc : Z) (s : string) : option Z :=
  match s with
  | EmptyString => Some acc
  | String c s' =>
      match digitValue radix c with
      | Some d => parseDigits radix (acc * radix + d) s'
      | None => None
      end
  end.

(** WhiteSpace and LineTerminator code units below 256. *)
Definition isWhiteSpace (c : ascii) : bool :=
  let n := charCode c in
  ((9 <=? n) && (n <=? 13)) || (n =? 32) || (n =? 160).

Fixpoint trimEnd (s : string) : string :=
  match s with
  | EmptyString => EmptyString
  | String c s' =>
      match trimEnd s' with
      | EmptyString => if isWhiteSpace c then EmptyString else String c EmptyString
      | t => String c t
      end
  end.

(** [BigInt('0x' + s)]: the literal after the prefix must be a non-empty run
    of hexadecimal digits, optionally followed by white space; anything
    else is a SyntaxError. *)
Definition BigInt_0x (s : string) : completion Z :=
  match trimEnd s with
  | EmptyString => Throws SyntaxError
  | t => match parseDigits 16 0 t with
         | Some z => Returns z
         | None => Throws SyntaxError
         end
  end.

(** Digits of a non-negative integer, most significant first. *)
Fixpoint toDigits (radix : Z) (fuel : nat) (n : Z) (acc : list Z) : list Z :=
  match fuel with
  | O => n :: acc
  | S f => if n <? radix then n :: acc
           else toDigits radix f (n / radix) (n mod radix :: acc)
  end.

Definition digitsOf (radix : Z) (n : Z) : list Z :=
  toDigits radix (Z.to_nat (Z.log2 n)) n [].

Definition stringOfDigits (ds : list Z) : string :=
  string_of_list_ascii (map digitChar ds).

(** [n.toString(radix)] for a bigint (or an integral number) [n]. *)
Definition toString (radix : Z) (n : Z) : string :=
  if n <? 0 then String "-"%char (stringOfDigits (digitsOf radix (- n)))
  else stringOfDigits (digitsOf radix n).

Fixpoint repeatChar (c : ascii) (n : nat) : string :=
  match n with
  | O => EmptyString
  | S n' => String c (repeatChar c n')
  end.

(** [s.padStart(target, c)] with a one-character filler. *)
Definition padStart (target : nat) (c : ascii) (s : string) : string :=
  (repeatChar c (target - String.length s) ++ s)%string.

(** [s.startsWith(p)] *)
Fixpoint startsWith (p s : string) : bool :=
  match p, s with
  | EmptyString, _ => true
  | String a p', String b s' => Ascii.eqb a b && startsWith p' s'
  | String _ _, EmptyString => false
  end.

(** [s.slice(k)] for [0 <= k]. *)
Fixpoint sliceFrom (k : nat) (s : string) : string :=
  match k, s with
  | O, _ => s
  | S k', String _ s' => sliceFrom k' s'
  | S _, EmptyString => EmptyString
  end.

Definition byteOfZ (z : Z) : byte :=
  match Byte.of_N (Z.to_N z) with
  | Some b => b
  | None => x00
  end.

Definition byteToZ (b : byte) : Z := Z.of_N (Byte.to_N b).

(** [Buffer.from(bytes).toString('hex')] *)
Fixpoint bufferToHex (bs : list byte) : string :=
  match bs with
  | [] => EmptyString
  | b :: bs' =>
      String (digitChar (byteToZ b / 16))
        (String (digitChar (byteToZ b mod 16)) (bufferToHex bs'))
  end.

(** [Buffer.from(s, 'hex')]: decoding stops at the first pair that is not
    two hexadecimal digits; a trailing single digit is dropped. *)
Fixpoint bufferFromHex (s : string) : list byte :=
  match s with
  | String c1 (String c2 s') =>
      match digitValue 16 c1, digitValue 16 c2 with
      | Some h, Some l => byteOfZ (16 * h + l) :: bufferFromHex s'
      | _, _ => []
      end
  | _ => []
  end.

(** [/^[0-9a-fA-F]+$/.test(s)] *)
Definition isHexString (s : string) : bool :=
  match s with
  | EmptyString => false
  | _ => forallb (fun c => bool_decide (is_Some (digitValue 16 c))) (list_ascii_of_string s)
  end.

(** Auxiliary notions used to state facts about the conversions above. *)

(** Value of a digit list, most significant digit first. *)
Definition digitsValue (radix : Z) (acc : Z) (ds : list Z) : Z :=
  foldl (fun a d => a * radix + d) acc ds.

Definition digitsOk (radix : Z) (ds : list Z) : Prop :=
  Forall (fun d => 0 <= d < radix) ds.

(** The two hexadecimal digits of each byte. *)
Definition nibbles (bs : list byte) : list Z :=
  flat_map (fun b => [byteToZ b / 16; byteToZ b mod 16]) bs.

(** Bytes read from an even-length list of hexadecimal digits. *)
Fixpoint bytesOfNibbles (ds : list Z) : list byte :=
  match ds with
  | h :: l :: ds' => byteOfZ (16 * h + l) :: bytesOfNibbles ds'
  | _ => []
  end.

End JS.

(** ** Indexed Merkle tree of the registry service
    ([registry-service/src/services/indexed-merkle-tree]) *)

Module MerkleTree.
Import JS.

(** Internal leaf of the sorted linked list. *)
Record IndexedLeaf : Type := mkLeaf {
  value : Z;
  nextValue : Z;
  nextIdx : nat
}.

(** Proof object exchanged over the API (hex strings). *)
Record MerkleProof : Type := mkProof {
  leaf : string;
  root : string;
  siblings : list string;
  pathIndices : list nat;
  leafIndex : nat;
  lowNullifier : option string;
  lowNullifierNextValue : option string;
  lowNullifierNextIdx : option nat
}.

(** The private fields of [class IndexedMerkleTree]. *)
Record IndexedMerkleTree : Type := mkTree {
  leaves : list IndexedLeaf;
  tree : list (list Z);
  height : nat;
  nullifierIndex : gmap string nat;
  emptySubtreeHashes : list Z
}.

Definition TREE_HEIGHT : nat := 20.

Definition hexToBigInt (hex : string) : completion Z :=
  if bool_decide (hex = "" \/ hex = "0" \/ hex = "0x0")%string then Returns 0
  else
    let cleanHex := if startsWith "0x" hex then sliceFrom 2 hex else hex in
    if (String.length cleanHex =? 0)%nat then Returns 0
    else BigInt_0x cleanHex.

Definition bigIntToHex (n : Z) : string := padStart 64 "0" (toString 16 n).

Section WithPoseidon.
(** [poseidonHash2] and [poseidonHash3] of the module, after
    [initPoseidon] has run: circomlibjs Poseidon on two and three field
    elements. *)
Variable poseidonHash2 : Z -> Z -> Z.
Variable poseidonHash3 : Z -> Z -> Z -> Z.

Definition getEmptyLeafHash : Z := poseidonHash3 0 0 0.

Definition leafHash (l : IndexedLeaf) : Z :=
  poseidonHash3 (value l) (nextValue l) (Z.of_nat (nextIdx l)).

(** [new IndexedMerkleTree(height)] *)
Definition newTree (h : nat) : IndexedMerkleTree :=
  mkTree [] [] h ∅ [].

Fixpoint emptyHashesFrom (currentHash : Z) (n : nat) : list Z :=
  match n with
  | O => []
  | S n' =>
      let h := poseidonHash2 currentHash currentHash in
      h :: emptyHashesFrom h n'
  end.

Definition computeEmptySubtreeHashes (t : IndexedMerkleTree) : IndexedMerkleTree :=
  match emptySubtreeHashes t with
  | _ :: _ => t
  | [] =>
      let emptyLeaf := getEmptyLeafHash in
      mkTree (leaves t) (tree t) (height t) (nullifierIndex t)
             (emptyLeaf :: emptyHashesFrom emptyLeaf (height t))
  end.

(** The inner loop of [rebuildTree]: node [i] of the next level hashes
    nodes [2i] and [2i+1], the latter replaced by the empty-subtree hash
    when it is past the end. *)
Fixpoint pairUp (emptySubtree : Z) (currentLevel : list Z) : list Z :=
  match currentLevel with
  | [] => []
  | [l] => [poseidonHash2 l emptySubtree]
  | l :: r :: rest => poseidonHash2 l r :: pairUp emptySubtree rest
  end.

Definition nextLevelOf (emptySubtree : Z) (currentLevel : list Z) : list Z :=
  match pairUp emptySubtree currentLevel with
  | [] => [poseidonHash2 emptySubtree emptySubtree]
  | nextLevel => nextLevel
  end.

(** The outer loop of [rebuildTree], from [level] on for [n] levels.
    [emptySubtreeHashes] holds [height + 1] entries once computed, so
    [empties[level]] is always defined there; the default 0 is never read. *)
Fixpoint buildLevels (empties : list Z) (level n : nat) (currentLevel : list Z)
  : list (list Z) :=
  match n with
  | O => []
  | S n' =>
      let nextLevel := nextLevelOf (nth level empties 0) currentLevel in
      nextLevel :: buildLevels empties (S level) n' nextLevel
  end.

Definition rebuildTree (t : IndexedMerkleTree) : IndexedMerkleTree :=
  let t := computeEmptySubtreeHashes t in
  let leafHashes := map leafHash (leaves t) in
  mkTree (leaves t)
         (leafHashes :: buildLevels (emptySubtreeHashes t) 0 (height t) leafHashes)
         (height t) (nullifierIndex t) (emptySubtreeHashes t).

Definition initializeEmptyTree (t : IndexedMerkleTree) : IndexedMerkleTree :=
  rebuildTree
    (mkTree [mkLeaf 0 0 0] (tree t) (height t) (nullifierIndex t)
            (emptySubtreeHashes t)).

(** [initialize()] on a freshly constructed tree. *)
Definition initialize (h : nat) : IndexedMerkleTree :=
  initializeEmptyTree (newTree h).

Definition getRootBigInt (t : IndexedMerkleTree) : Z :=
  match last (tree t) with
  | Some (r :: _) => r
  | _ => getEmptyLeafHash
  end.

Definition getRoot (t : IndexedMerkleTree) : string :=
  bigIntToHex (getRootBigInt t).

Definition hasNullifier (t : IndexedMerkleTree) (nullifier : string) : bool :=
  bool_decide (is_Some (nullifierIndex t !! nullifier)).

(** The scan shared by [addLeaf] and [getNonMembershipProof]: the index
    moves to [i] when leaf [i] is below the target and above the current
    candidate. *)
Definition scanStep (ls : list IndexedLeaf) (target : Z) (candidate i : nat) : nat :=
  match ls !! i, ls !! candidate with
  | Some li, Some lc =>
      if (value li <? target) && (value lc <? value li) then i else candidate
  | _, _ => candidate
  end.

Definition findLow (ls : list IndexedLeaf) (target : Z) : nat :=
  foldl (scanStep ls target) 0%nat (seq 0 (length ls)).

(** [addLeaf(nullifier)]: the returned index and the updated tree. *)
Definition addLeaf (nullifier : string) (t : IndexedMerkleTree)
  : completion (nat * IndexedMerkleTree) :=
  bind (hexToBigInt nullifier) (fun nullifierBigInt =>
  match nullifierIndex t !! nullifier with
  | Some idx => Returns (idx, t)
  | None =>
      let predecessorIdx := findLow (leaves t) nullifierBigInt in
      match leaves t !! predecessorIdx with
      | None => Throws TypeError
      | Some p =>
          let newIdx := length (leaves t) in
          let newLeaf := mkLeaf nullifierBigInt (nextValue p) (nextIdx p) in
          let leaves' :=
            <[predecessorIdx := mkLeaf (value p) nullifierBigInt newIdx]> (leaves t)
            ++ [newLeaf] in
          Returns (newIdx,
                   rebuildTree (mkTree leaves' (tree t) (height t)
                                  (<[nullifier := newIdx]> (nullifierIndex t))
                                  (emptySubtreeHashes t)))
      end
  end).

(** The loop of [getSiblings], from [level] on for [n] levels. After
    [rebuildTree] the tree has [height + 1] rows, so [this.tree[level]] is
    always defined there; the default row is never read. *)
Fixpoint siblingsFrom (t : IndexedMerkleTree) (level n currentIndex : nat) : list string :=
  match n with
  | O => []
  | S n' =>
      let levelNodes := nth level (tree t) [] in
      let sibling :=
        if Nat.even currentIndex then levelNodes !! (currentIndex + 1)%nat
        else levelNodes !! (currentIndex - 1)%nat in
      bigIntToHex (default (nth level (emptySubtreeHashes t) 0) sibling)
        :: siblingsFrom t (S level) n' (currentIndex / 2)%nat
  end.

Definition getSiblings (t : IndexedMerkleTree) (index : nat) : list string :=
  siblingsFrom t 0 (height t) index.

Fixpoint pathIndicesFrom (n currentIndex : nat) : list nat :=
  match n with
  | O => []
  | S n' => (currentIndex mod 2)%nat :: pathIndicesFrom n' (currentIndex / 2)%nat
  end.

Definition getPathIndices (t : IndexedMerkleTree) (index : nat) : list nat :=
  pathIndicesFrom (height t) index.

Definition getProofByIndex (t : IndexedMerkleTree) (index : nat) (lf : string)
  : completion MerkleProof :=
  match leaves t !! index with
  | None => Throws TypeError
  | Some leafData =>
      Returns (mkProof lf (getRoot t) (getSiblings t index) (getPathIndices t index)
                 index
                 (Some (bigIntToHex (value leafData)))
                 (Some (bigIntToHex (nextValue leafData)))
                 (Some (nextIdx leafData)))
  end.

(** [null] when the nullifier is not in the index. *)
Definition getMembershipProof (t : IndexedMerkleTree) (nullifier : string)
  : completion (option MerkleProof) :=
  match nullifierIndex t !! nullifier with
  | None => Returns None
  | Some leafIndex => bind (getProofByIndex t leafIndex nullifier)
                        (fun p => Returns (Some p))
  end.

Definition getNonMembershipProof (t : IndexedMerkleTree) (nullifier : string)
  : completion MerkleProof :=
  bind (hexToBigInt nullifier) (fun nullifierBigInt =>
  if hasNullifier t nullifier
  then Throws (GenericError
                 "Nullifier exists in tree - cannot generate non-membership proof")
  else
    let lowNullifierIdx := findLow (leaves t) nullifierBigInt in
    match leaves t !! lowNullifierIdx with
    | None => Throws TypeError
    | Some lowLeaf =>
        Returns (mkProof nullifier (getRoot t)
                   (getSiblings t lowNullifierIdx)
                   (getPathIndices t lowNullifierIdx)
                   lowNullifierIdx
                   (Some (bigIntToHex (value lowLeaf)))
                   (Some (bigIntToHex (nextValue lowLeaf)))
                   (Some (nextIdx lowLeaf)))
    end).

(** The loop of [verifyProof]: iteration [i] reads [siblings[i]] and
    [pathIndices[i]] ([undefined], hence "right child", past the end). *)
Fixpoint foldPath (sibs : list string) (idxs : list nat) (currentHash : Z)
  : completion Z :=
  match sibs with
  | [] => Returns currentHash
  | s :: sibs' =>
      bind (hexToBigInt s) (fun sibling =>
        let pathIndex := head idxs in
        let next := if bool_decide (pathIndex = Some 0%nat)
                    then poseidonHash2 currentHash sibling
                    else poseidonHash2 sibling currentHash in
        foldPath sibs' (tail idxs) next)
  end.

Definition verifyProof (lf : string) (proof : MerkleProof) : completion bool :=
  bind (hexToBigInt lf) (fun currentHash =>
  bind (foldPath (siblings proof) (pathIndices proof) currentHash) (fun currentHash =>
  bind (hexToBigInt (root proof)) (fun expectedRoot =>
  Returns (currentHash =? expectedRoot)))).



(** A tree as [rebuildTree] leaves it: the rows are built from the leaf
    hashes, and the cached empty-subtree hashes are non-negative (they are
    field elements). *)
Definition rebuilt (t : IndexedMerkleTree) : Prop :=
  tree t = map leafHash (leaves t)
           :: buildLevels (emptySubtreeHashes t) 0 (height t) (map leafHash (leaves t)) /\
  Forall (fun x => 0 <= x) (emptySubtreeHashes t).

(** A run of [addLeaf] calls, in order; a call that throws leaves the tree as
    it was. *)
Definition addLeaves (nullifiers : list string) (t : IndexedMerkleTree)
  : IndexedMerkleTree :=
  foldl (fun t nullifier =>
           match addLeaf nullifier t with
           | Returns (_, t') => t'
           | Throws _ => t
           end) t nullifiers.

End WithPoseidon.

Definition nonnegs (l : list Z) : Prop := Forall (fun x => 0 <= x) l.

(** The sorted-linked-list invariant on the leaf array: the leaf a leaf
    points to exists and carries a larger value, or the value 0 of the head
    (end of list). *)
Definition sortedLinks (ls : list IndexedLeaf) : Prop :=
  forall i li, ls !! i = Some li ->
    exists lj, ls !! nextIdx li = Some lj /\ (value li < value lj \/ value lj = 0).

(** The links also record the value they point to. *)
Definition linked (ls : list IndexedLeaf) : Prop :=
  forall i li, ls !! i = Some li ->
    exists lj, ls !! nextIdx li = Some lj /\ value lj = nextValue li /\
               (nextValue li = 0 \/ value li < nextValue li).

(** What is known of the tree after the strings [strs], parsed to [vals],
    have been inserted. *)
Definition treeInv (t : IndexedMerkleTree) (strs : list string) (vals : list Z) : Prop :=
  Forall2 (fun s v => hexToBigInt s = Returns v) strs vals /\
  map value (leaves t) = 0 :: vals /\
  linked (leaves t) /\
  (forall s, is_Some (nullifierIndex t !! s) -> s ∈ strs).

End MerkleTree.

(** ** Nullifier routes of the registry ([registry-service/src/routes/nullifier-check]) *)

Module NullifierRoutes.
Import JS MerkleTree.

Record NullifierRecord : Type := mkRecord {
  rec_nullifier : string;
  rec_domain : string;
  rec_pseudonym : string;
  rec_timestamp : Z;
  rec_treeIndex : nat
}.

Record RegisterNullifierBody : Type := mkBody {
  body_nullifier : string;
  body_domain : string;
  body_pseudonym : string;
  body_timestamp : option Z
}.

Inductive RegisterReply : Type :=
| Status400                                  (* missing required fields *)
| Status409                                  (* nullifier already registered *)
| Status200 (treeIndex : nat) (newRoot : string).

(** State of the service: the tree and the metadata map. *)
Record Registry : Type := mkRegistry {
  merkleTree : IndexedMerkleTree;
  nullifierRecords : gmap string NullifierRecord
}.

Section WithPoseidon.
Variable poseidonHash2 : Z -> Z -> Z.
Variable poseidonHash3 : Z -> Z -> Z -> Z.

(** [POST /nullifiers/register]; [now] is [Date.now()]. An exception of
    [addLeaf] escapes the handler. *)
Definition register (now : Z) (body : RegisterNullifierBody) (st : Registry)
  : completion (RegisterReply * Registry) :=
  let nullifier := body_nullifier body in
  if bool_decide (nullifier = "" \/ body_domain body = "" \/ body_pseudonym body = "")%string
  then Returns (Status400, st)
  else if hasNullifier (merkleTree st) nullifier
  then Returns (Status409, st)
  else
    bind (addLeaf poseidonHash2 poseidonHash3 nullifier (merkleTree st))
      (fun '(treeIndex, t') =>
    let timestamp := match body_timestamp body with
                     | Some ts => if ts =? 0 then now else ts
                     | None => now
                     end in
    let record := mkRecord nullifier (body_domain body) (body_pseudonym body)
                    timestamp treeIndex in
    Returns (Status200 treeIndex (getRoot poseidonHash3 t'),
             mkRegistry t' (<[nullifier := record]> (nullifierRecords st)))).

End WithPoseidon.
End NullifierRoutes.

(** ** Field, hash and byte utilities ([wallet-sdk/src/crypto-utils.ts]) *)

Module Crypto.
Import JS.

(** Interface of the BLS12-381 G1 points of the noble library, as used
    through [G1Operations]. [pointMultiply] may throw (the library rejects
    scalars outside its accepted range); [pointFromBytes] throws on bytes
    that are not the compressed encoding of a point. *)
Class G1Ops : Type := {
  G1Point : Type;
  pointBase : G1Point;
  pointMultiply : G1Point -> Z -> completion G1Point;
  pointAdd : G1Point -> G1Point -> G1Point;
  pointNegate : G1Point -> G1Point;
  pointToBytes : G1Point -> list byte;
  pointFromBytes : list byte -> completion G1Point
}.

(** SHA-256 of the noble library. *)
Class Sha256 : Type := sha256 : list byte -> list byte.

(** The mathematical content of the point interface: G1 is a commutative
    group, written additively, on which the integers act and whose elements
    all have order dividing the scalar modulus; [pointMultiply] computes the
    action for scalars from 1 up to the modulus (excluded), and the
    compressed encoding can be read back. Nothing is assumed about
    [pointMultiply] on other scalars. *)
Class G1Model (g1 : G1Ops) : Type := {
  pointZero : G1Point;
  scalarMul : Z -> G1Point -> G1Point
}.

(** *** FieldOperations *)

Definition FIELD_MODULUS : Z :=
  0x73eda753299d7d483339d80809a1d80553bda402fffe5bfeffffffff00000001.

(** [randomScalar()], given the 32 bytes returned by [randomBytes(32)]. *)
Definition randomScalar (bytes : list byte) : completion Z :=
  bind (BigInt_0x (bufferToHex bytes)) (fun scalar =>
  Returns (Z.rem scalar FIELD_MODULUS)).

Definition scalarToBytes (scalar : Z) : list byte :=
  let hex := padStart 64 "0" (toString 16 scalar) in
  bufferFromHex hex.

Definition bytesToScalar (bytes : list byte) : completion Z :=
  bind (BigInt_0x (bufferToHex bytes)) (fun n =>
  Returns (Z.rem n FIELD_MODULUS)).

Definition addMod (a b : Z) : Z := Z.rem (a + b) FIELD_MODULUS.

Definition mulMod (a b : Z) : Z := Z.rem (a * b) FIELD_MODULUS.

Definition inRange (x : Z) : Prop := 1 <= x < FIELD_MODULUS.

Class G1Laws (g1 : G1Ops) (M : G1Model g1) : Prop := {
  add_assoc : forall a b c, pointAdd a (pointAdd b c) = pointAdd (pointAdd a b) c;
  add_comm : forall a b, pointAdd a b = pointAdd b a;
  add_zero : forall a, pointAdd a pointZero = a;
  add_negate : forall a, pointAdd a (pointNegate a) = pointZero;
  scalarMul_add : forall x y P,
    scalarMul (x + y) P = pointAdd (scalarMul x P) (scalarMul y P);
  scalarMul_mul : forall x y P, scalarMul (x * y) P = scalarMul x (scalarMul y P);
  scalarMul_distr : forall x P Q,
    scalarMul x (pointAdd P Q) = pointAdd (scalarMul x P) (scalarMul x Q);
  scalarMul_order : forall P, scalarMul FIELD_MODULUS P = pointZero;
  multiply_inRange : forall P s,
    inRange s -> pointMultiply P s = Returns (scalarMul s P);
  fromBytes_toBytes : forall P, pointFromBytes (pointToBytes P) = Returns P
}.

(** *** G1Operations *)

Section G1Operations.
Context {g1 : G1Ops}.

Definition getGenerator : G1Point := pointBase.

Definition multiply (point : G1Point) (scalar : Z) : completion G1Point :=
  pointMultiply point scalar.

Definition add (point1 point2 : G1Point) : G1Point := pointAdd point1 point2.

Definition negate (point : G1Point) : G1Point := pointNegate point.

Definition serialize (point : G1Point) : list byte := pointToBytes point.

Definition deserialize (bytes : list byte) : completion G1Point :=
  pointFromBytes bytes.

End G1Operations.

(** *** HashOperations *)

Section HashOperations.
Context {sha : Sha256}.

Definition utf8 (s : string) : list byte := list_byte_of_string s.

Definition computeChallenge (commitment T context nonce : list byte) : completion Z :=
  let combined :=
    utf8 "BBS_COMMITMENT_CHALLENGE_V1" ++ commitment ++ T ++ context ++ nonce in
  let digest := sha256 combined in
  bytesToScalar digest.

Definition createContext (did schemaId : string) (nonce : list byte) : list byte :=
  sha256 (utf8 did ++ utf8 schemaId ++ nonce).

End HashOperations.

(** *** CryptoUtils *)

Definition hexToBytes (hex : string) : list byte := bufferFromHex hex.

Definition bytesToHex (bytes : list byte) : string := bufferToHex bytes.

Definition constantTimeEqual (a b : list byte) : bool :=
  if negb (length a =? length b)%nat then false
  else
    let result :=
      foldl (fun result '(x, y) => Z.lor result (Z.lxor (byteToZ x) (byteToZ y)))
            0 (zip a b) in
    result =? 0.

End Crypto.

(** ** Public parameters ([wallet-sdk/src/public-parameters]) *)

Module PublicParams.
Import JS Crypto.

Record PublicParameters : Type := mkParams {
  version : Z;
  maxAttributes : nat;
  generatorG : string;
  attributeGenerators : list string;
  blindingGenerator : string;
  generatedAt : Z
}.

Section WithCurve.
Context {g1 : G1Ops}.

(** The parsed generators kept by [PublicParametersManager]. *)
Record Generators : Type := mkGenerators {
  G : G1Point;
  parsedAttributeGenerators : list G1Point;
  parsedBlindingGenerator : G1Point
}.

Record PublicParametersManager : Type := mkManager {
  params : option PublicParameters;
  parsedGenerators : option Generators
}.

Definition notLoaded {A} : completion A :=
  Throws (GenericError "Parameters not loaded. Call loadParameters() first.").

Definition getGenerators (m : PublicParametersManager) : completion Generators :=
  match parsedGenerators m with
  | Some g => Returns g
  | None => notLoaded
  end.

Definition getMaxAttributes (m : PublicParametersManager) : completion nat :=
  match params m with
  | Some p => Returns (maxAttributes p)
  | None => notLoaded
  end.

(** The loop [for (i ...) deserialize(hexToBytes(attributeGenerators[i]))]. *)
Fixpoint deserializeAll (hexes : list string) : completion unit :=
  match hexes with
  | [] => Returns tt
  | h :: rest => bind (deserialize (hexToBytes h)) (fun _ => deserializeAll rest)
  end.

(** The hex string decodes to the encoding of a point. *)
Definition deserializes (hex : string) : Prop :=
  exists P, deserialize (hexToBytes hex) = Returns P.

(** [TrustedSetup.verifyParameters] *)
Definition verifyParameters (p : PublicParameters) : bool :=
  catch
    (bind (deserialize (hexToBytes (generatorG p))) (fun _ =>
     if negb (length (attributeGenerators p) =? maxAttributes p)%nat then Returns false
     else
       bind (deserializeAll (attributeGenerators p)) (fun _ =>
       bind (deserialize (hexToBytes (blindingGenerator p))) (fun _ =>
       Returns true))))
    false.

(** The parsing done by [PublicParametersManager.loadParameters] once the
    JSON file has been read. *)
Fixpoint parseGenerators (hexes : list string) : completion (list G1Point) :=
  match hexes with
  | [] => Returns []
  | h :: rest =>
      bind (deserialize (hexToBytes h)) (fun P =>
      bind (parseGenerators rest) (fun Ps => Returns (P :: Ps)))
  end.

Definition loadParameters (p : PublicParameters) : completion PublicParametersManager :=
  bind (deserialize (hexToBytes (generatorG p))) (fun g =>
  bind (parseGenerators (attributeGenerators p)) (fun hs =>
  bind (deserialize (hexToBytes (blindingGenerator p))) (fun hr =>
  Returns (mkManager (Some p) (Some (mkGenerators g hs hr)))))).

End WithCurve.
End PublicParams.

(** ** Pedersen commitment protocol ([wallet-sdk/src/commitment-protocol]) *)

Module Commitment.
Import JS Crypto PublicParams.

Record CommitmentData : Type := mkCommitmentData {
  commitment : list byte;
  blindingFactor : Z
}.

Record ZeroKnowledgeProof : Type := mkZKProof {
  zk_commitment : list byte;
  zk_T : list byte;
  zk_challenge : list byte;
  zk_responses : list Z;
  zk_nonce : list byte
}.

(** The values [generateProof] draws: three kinds of [randomScalar()] calls
    and [randomBytes(32)]. [rnd_attr i] is the scalar drawn for attribute [i]
    by [attributes.map(() => randomScalar())]. *)
Record ProofRandomness : Type := mkRandomness {
  rnd_ms : Z;
  rnd_attr : nat -> Z;
  rnd_blind : Z;
  rnd_nonce : list byte
}.

Section WithCurve.
Context {g1 : G1Ops} {sha : Sha256}.

(** The loop shared by [createCommitment], [generateProof] and [verifyProof]:
    [for (i = 0; i < xs.length; i++) X = add(X, multiply(attributeGenerators[i], xs[i]))].
    Reading a generator past the end gives [undefined], on which
    [point.multiply] is a TypeError. *)
Fixpoint accumulate (gens : list G1Point) (i : nat) (xs : list Z) (X : G1Point)
  : completion G1Point :=
  match xs with
  | [] => Returns X
  | x :: rest =>
      match gens !! i with
      | None => Throws TypeError
      | Some H =>
          bind (multiply H x) (fun t => accumulate gens (S i) rest (add X t))
      end
  end.

(** [createCommitment(masterSecret, attributes, blindingFactor?)]; [fresh] is
    the value [randomScalar()] returns if it is called. *)
Definition createCommitment (m : PublicParametersManager)
    (masterSecret : Z) (attributes : list Z) (blinding : option Z) (fresh : Z)
  : completion CommitmentData :=
  bind (getGenerators m) (fun generators =>
  bind (getMaxAttributes m) (fun maxAttrs =>
  if (maxAttrs <? length attributes)%nat
  then Throws (GenericError "Too many attributes")
  else
    (* blindingFactor || FieldOperations.randomScalar() *)
    let r := match blinding with
             | Some b => if b =? 0 then fresh else b
             | None => fresh
             end in
    bind (multiply (G generators) masterSecret) (fun C =>
    bind (accumulate (parsedAttributeGenerators generators) 0 attributes C) (fun C =>
    bind (multiply (parsedBlindingGenerator generators) r) (fun blindingCommit =>
    let C := add C blindingCommit in
    Returns (mkCommitmentData (serialize C) r)))))).

Definition generateProof (m : PublicParametersManager) (rnd : ProofRandomness)
    (masterSecret : Z) (attributes : list Z) (blinding : Z)
    (commitmentBytes context : list byte)
  : completion ZeroKnowledgeProof :=
  bind (getGenerators m) (fun generators =>
  let r_ms := rnd_ms rnd in
  let r_attrs := map (rnd_attr rnd) (seq 0 (length attributes)) in
  let r_blind := rnd_blind rnd in
  bind (multiply (G generators) r_ms) (fun T =>
  bind (accumulate (parsedAttributeGenerators generators) 0 r_attrs T) (fun T =>
  bind (multiply (parsedBlindingGenerator generators) r_blind) (fun blindingT =>
  let T := add T blindingT in
  let T_bytes := serialize T in
  let nonce := rnd_nonce rnd in
  bind (computeChallenge commitmentBytes T_bytes context nonce) (fun challenge =>
  let challengeBytes := scalarToBytes challenge in
  let s_ms := addMod r_ms (mulMod challenge masterSecret) in
  let s_attrs :=
    imap (fun i attr => addMod (nth i r_attrs 0) (mulMod challenge attr)) attributes in
  let s_blind := addMod r_blind (mulMod challenge blinding) in
  let responses := [s_ms] ++ s_attrs ++ [s_blind] in
  Returns (mkZKProof commitmentBytes T_bytes challengeBytes responses nonce)))))).

Definition verifyProof (m : PublicParametersManager) (proof : ZeroKnowledgeProof)
    (context : list byte) (numAttributes : nat) : bool :=
  catch
    (bind (getGenerators m) (fun generators =>
     let expectedResponses := (1 + numAttributes + 1)%nat in
     if negb (length (zk_responses proof) =? expectedResponses)%nat then Returns false
     else
       let s_ms := nth 0 (zk_responses proof) 0 in
       let s_attrs := take numAttributes (drop 1 (zk_responses proof)) in
       let s_blind := List.last (zk_responses proof) 0 in
       bind (bytesToScalar (zk_challenge proof)) (fun challenge =>
       bind (multiply (G generators) s_ms) (fun T_prime =>
       bind (accumulate (parsedAttributeGenerators generators) 0 s_attrs T_prime)
         (fun T_prime =>
       bind (multiply (parsedBlindingGenerator generators) s_blind) (fun blindingT =>
       let T_prime := add T_prime blindingT in
       bind (deserialize (zk_commitment proof)) (fun C =>
       bind (multiply C challenge) (fun C_c =>
       let T_prime := add T_prime (negate C_c) in
       let T_prime_bytes := serialize T_prime in
       bind (computeChallenge (zk_commitment proof) T_prime_bytes context
               (zk_nonce proof)) (fun challenge_prime =>
       let challenge_prime_bytes := scalarToBytes challenge_prime in
       Returns (constantTimeEqual (zk_challenge proof) challenge_prime_bytes))))))))))
    false.

(** The pure value the loop [accumulate] computes when no call throws. *)
Fixpoint linear {M : G1Model g1} (gens : list G1Point) (i : nat) (xs : list Z)
    (X : G1Point) : G1Point :=
  match xs with
  | [] => X
  | x :: rest =>
      match gens !! i with
      | None => X
      | Some H => linear gens (S i) rest (pointAdd X (scalarMul x H))
      end
  end.

End WithCurve.
End Commitment.

(** ** A small instance of the external interfaces

    The integers modulo the scalar modulus, written additively, stand for
    G1: a group in which every element has order dividing the modulus. Point
    multiplication rejects scalars outside [1, modulus) as the curve library
    does. The digest is a checksum. The instance serves to run the code on
    concrete inputs. *)

Module Toy.
Import JS Crypto PublicParams Commitment.

(** Stand-ins for Poseidon on two and three inputs. *)
Definition toyHash2 (a b : Z) : Z := (7 * a + 13 * b + 1) mod 1000003.

Definition toyHash3 (a b c : Z) : Z := (3 * a + 5 * b + 11 * c + 2) mod 1000003.

(** A tree of height 2 holding the nullifier [05]. *)
Definition toyTree : MerkleTree.IndexedMerkleTree :=
  MerkleTree.addLeaves toyHash2 toyHash3 ["05"%string]
    (MerkleTree.initialize toyHash2 toyHash3 2).


Definition inField (z : Z) : bool := (0 <=? z) && (z <? FIELD_MODULUS).

Definition Zq : Type := { z : Z | inField z = true }.

Definition zq (z : Z) : Zq :=
  let r := z mod FIELD_MODULUS in
  match Sumbool.sumbool_of_bool (inField r) with
  | left H => exist _ r H
  | right _ => exist _ 0 eq_refl
  end.

Definition rep (P : Zq) : Z := proj1_sig P.

Definition toyMultiply (P : Zq) (s : Z) : completion Zq :=
  if (1 <=? s) && (s <? FIELD_MODULUS) then Returns (zq (s * rep P))
  else Throws RangeError.

Definition toyFromBytes (bs : list byte) : completion Zq :=
  bind (BigInt_0x (bufferToHex bs)) (fun z =>
  if inField z && (length bs =? 32)%nat then Returns (zq z)
  else Throws (GenericError "invalid point")).

#[export] Instance toyG1 : G1Ops := {|
  G1Point := Zq;
  pointBase := zq 1;
  pointMultiply := toyMultiply;
  pointAdd := fun P Q => zq (rep P + rep Q);
  pointNegate := fun P => zq (- rep P);
  pointToBytes := fun P => scalarToBytes (rep P);
  pointFromBytes := toyFromBytes
|}.

#[export] Instance toyModel : G1Model toyG1 := {|
  pointZero := zq 0;
  scalarMul := fun x P => zq (x * rep P)
|}.

#[export] Instance toySha : Sha256 := fun m =>
  scalarToBytes (foldl (fun acc b => 31 * acc + byteToZ b + 1) 7 m mod 2 ^ 256).

(** Parameters with two attribute generators. *)
Definition toyParams : PublicParameters :=
  mkParams 1 2 (bytesToHex (scalarToBytes 1))
    [bytesToHex (scalarToBytes 3); bytesToHex (scalarToBytes 4)]
    (bytesToHex (scalarToBytes 2)) 0.

Definition toyGenerators : Generators :=
  mkGenerators (zq 1) [zq 3; zq 4] (zq 2).

Definition toyManager : PublicParametersManager :=
  mkManager (Some toyParams) (Some toyGenerators).

Definition toyRandomness : ProofRandomness :=
  mkRandomness 11 (fun i => 20 + Z.of_nat i) 13 (repeat x07 32).

Definition toyContext : list byte := repeat x01 32.

(** Parameters in which the generators are not distinct. *)
Definition repeatedParams : PublicParameters :=
  mkParams 1 2 (bytesToHex (scalarToBytes 3))
    [bytesToHex (scalarToBytes 3); bytesToHex (scalarToBytes 3)]
    (bytesToHex (scalarToBytes 3)) 0.

(** A run of the protocol on master secret 5 and attributes 6 and 7: the
    commitment made with the given optional blinding factor, and the proof
    generated for blinding factor [r]. *)
Definition toyCommitmentData (blinding : option Z) (fresh : Z) : CommitmentData :=
  match createCommitment toyManager 5 [6; 7] blinding fresh with
  | Returns cd => cd
  | Throws _ => mkCommitmentData [] 0
  end.

Definition toyProof (cd : CommitmentData) (r : Z) : ZeroKnowledgeProof :=
  match generateProof toyManager toyRandomness 5 [6; 7] r (commitment cd) toyContext with
  | Returns pf => pf
  | Throws _ => mkZKProof [] [] [] [] []
  end.

End Toy.

(** ** Poseidon hashing ([wallet-sdk/src/poseidon-hash]) *)

Module PoseidonHash.
Import JS Crypto.

(** circomlibjs Poseidon, after [PoseidonHash.init()]: the hash of an array
    of field elements ([F.e] on the way in, [F.toObject] on the way out).
    The library may reject an array (it supports a bounded number of
    inputs), hence the [completion]. *)
Class Poseidon : Type := poseidon : list Z -> completion Z.

Section WithPoseidon.
Context {P : Poseidon}.

Definition hash2 (a b : Z) : completion Z := poseidon [a; b].

Definition hash3 (a b c : Z) : completion Z := poseidon [a; b; c].

Definition hashMany (inputs : list Z) : completion Z :=
  match inputs with
  | [] => Returns 0
  | _ => poseidon inputs
  end.

(** [data.slice(from, to)] *)
Definition sliceBytes (from to : nat) (data : list byte) : list byte :=
  take (to - from) (drop from data).

(** [padded = new Uint8Array(32); padded.set(chunk, 0)] for a chunk of at
    most 32 bytes. *)
Definition padTo32 (chunk : list byte) : list byte :=
  chunk ++ replicate (32 - length chunk) x00.

(** The loop [for (let i = 0; i < data.length; i += 31)] of [hashBytes],
    with [fuel] bounding the number of iterations. *)
Fixpoint chunkLoop (fuel : nat) (data : list byte) (i : nat) (chunks : list Z)
  : completion (list Z) :=
  match fuel with
  | O => Returns chunks
  | S fuel' =>
      if (i <? length data)%nat then
        let chunk := sliceBytes i (Nat.min (i + 31) (length data)) data in
        let padded := padTo32 chunk in
        bind (bytesToScalar padded) (fun c =>
        chunkLoop fuel' data (i + 31) (chunks ++ [c]))
      else Returns chunks
  end.

Definition hashBytes (data : list byte) : completion Z :=
  bind (chunkLoop (S (length data)) data 0 []) hashMany.

(** [hashString(str)] for a string of code units below 128, whose UTF-8
    encoding is the string itself. *)
Definition hashString (str : string) : completion Z :=
  hashBytes (utf8 str).

Definition toHex (v : Z) : string := bytesToHex (scalarToBytes v).

Definition fromHex (hex : string) : completion Z := bytesToScalar (hexToBytes hex).

(** The absorption as the specification words it: the chunk values are
    folded with [hash2], a single chunk is hashed with 0, and the empty input
    hashes to [hash2(0, 0)]. *)
Fixpoint specFold (acc : Z) (chunks : list Z) : completion Z :=
  match chunks with
  | [] => Returns acc
  | c :: rest => bind (hash2 acc c) (fun acc' => specFold acc' rest)
  end.

Definition specAbsorb (chunks : list Z) : completion Z :=
  match chunks with
  | [] => hash2 0 0
  | [c0] => hash2 c0 0
  | c0 :: rest => specFold c0 rest
  end.

End WithPoseidon.

(** The 31-byte chunks of a buffer, in order. *)
Fixpoint chunksFuel (fuel : nat) (data : list byte) : list (list byte) :=
  match fuel with
  | O => []
  | S fuel' =>
      match data with
      | [] => []
      | _ => take 31 data :: chunksFuel fuel' (drop 31 data)
      end
  end.

Definition chunks31 (data : list byte) : list (list byte) :=
  chunksFuel (S (length data)) data.

(** Big-endian value of a byte string. *)
Definition bigEndian (bs : list byte) : Z := digitsValue 16 0 (nibbles bs).

(** The field element [hashBytes] makes of a chunk: the chunk followed by
    zero bytes up to 32 bytes, read big-endian and reduced. *)
Definition chunkValue (chunk : list byte) : Z :=
  Z.rem (bigEndian (padTo32 chunk)) FIELD_MODULUS.

End PoseidonHash.

(** ** The proof-generation script ([scripts/generate-real-proof.js]) *)

Module Script.
Import JS PoseidonHash.

Definition MAX_252_BIT : Z := 2 ^ 252.

Definition fitsIn252Bits (val : Z) : bool := val <? MAX_252_BIT.

Definition MAX_ATTEMPTS : nat := 100.

(** What one turn of the sampling loop draws. *)
Record Draw : Type := mkDraw {
  d_masterSecret : Z;
  d_sessionNonce : Z;
  d_blindingFactor : Z;
  d_credentialId : string
}.

Record Secrets : Type := mkSecrets {
  s_draw : Draw;
  s_domainHash : Z;
  s_credentialIdHash : Z;
  s_pseudonymRaw : Z;
  s_nullifierRaw : Z
}.

Section WithPoseidon.
Context {P : Poseidon}.

(** [PoseidonWrapper.hashString]: chunks are read without padding and
    folded with [hash2]. *)
Fixpoint rawChunks (fuel : nat) (bytes : list byte) (i : nat) (chunks : list Z)
  : completion (list Z) :=
  match fuel with
  | O => Returns chunks
  | S fuel' =>
      if (i <? length bytes)%nat then
        let chunk := sliceBytes i (Nat.min (i + 31) (length bytes)) bytes in
        bind (BigInt_0x (bufferToHex chunk)) (fun c =>
        rawChunks fuel' bytes (i + 31) (chunks ++ [c]))
      else Returns chunks
  end.

Fixpoint foldHash2 (acc : Z) (chunks : list Z) : completion Z :=
  match chunks with
  | [] => Returns acc
  | c :: rest => bind (hash2 acc c) (fun acc' => foldHash2 acc' rest)
  end.

Definition wrapperHashString (str : string) : completion Z :=
  bind (rawChunks (S (String.length str)) (Crypto.utf8 str) 0 []) (fun chunks =>
  match chunks with
  | [] => hash2 0 0
  | [c0] => hash2 c0 0
  | c0 :: c1 :: rest => bind (hash2 c0 c1) (fun acc => foldHash2 acc rest)
  end).

(** The [while (attempts < MAX_ATTEMPTS)] loop of [generateRealProof] and
    the check that follows it. [draws k] is what attempt number [k] samples;
    the loop is unrolled over [todo] remaining turns. The state kept after
    the loop is the last sample and [attempts]. *)
Fixpoint sampleLoop (domain : string) (draws : nat -> Draw) (todo attempts : nat)
    (last : option Secrets) : completion (nat * option Secrets) :=
  match todo with
  | O => Returns (attempts, last)
  | S todo' =>
      let attempts := S attempts in
      let d := draws attempts in
      bind (wrapperHashString domain) (fun domainHash =>
      bind (wrapperHashString (d_credentialId d)) (fun credentialIdHash =>
      bind (hash3 (d_masterSecret d) (d_sessionNonce d) domainHash) (fun pseudonymRaw =>
      bind (hash3 credentialIdHash (d_sessionNonce d) domainHash) (fun nullifierRaw =>
      let s := mkSecrets d domainHash credentialIdHash pseudonymRaw nullifierRaw in
      if fitsIn252Bits pseudonymRaw && fitsIn252Bits nullifierRaw
      then Returns (attempts, Some s)
      else sampleLoop domain draws todo' attempts (Some s)))))
  end.

Definition sampleSecrets (domain : string) (draws : nat -> Draw) : completion Secrets :=
  bind (sampleLoop domain draws MAX_ATTEMPTS 0 None) (fun '(attempts, last) =>
  if (MAX_ATTEMPTS <=? attempts)%nat
  then Throws (GenericError "Could not generate values that fit in 252 bits")
  else match last with
       | Some s => Returns s
       | None => Throws TypeError
       end).

End WithPoseidon.
End Script.

(** ** Types shared by the proof generator and the verifier *)

Module AuthTypes.

Record AuthChallenge : Type := mkChallenge {
  challengeId : string;
  challenge : string;
  domain : string;
  registryRoot : string;
  circuitId : string;
  createdAt : Z;
  expiresAt : Z
}.

Record SnarkProof : Type := mkSnarkProof {
  pi_a : list string;
  pi_b : list (list string);
  pi_c : list string;
  protocol : string;
  curve : string
}.

Record SnarkPublicInputs : Type := mkPublicInputs {
  pub_pseudonym : string;
  pub_nullifier : string;
  pub_commitmentHash : string;
  pub_registryRoot : string;
  pub_challenge : string
}.

Record BBSSelectiveDisclosureProof : Type := mkBBSProof {
  bbs_proof : string;
  revealedIndices : list nat;
  revealedMessages : gmap nat string;
  issuerPublicKey : string;
  bbs_nonce : string
}.

Record HybridAuthProof : Type := mkHybridProof {
  snarkProof : SnarkProof;
  publicInputs : SnarkPublicInputs;
  bbsProof : option BBSSelectiveDisclosureProof;
  commitmentHash : string
}.

Record HybridAuthPackage : Type := mkPackage {
  pkg_challengeId : string;
  pkg_challenge : string;
  hybridProof : HybridAuthProof;
  pkg_pseudonym : string;
  pkg_nullifier : string;
  pkg_domain : string;
  pkg_registryRoot : string;
  pkg_timestamp : Z
}.

(** What a [fetch] followed by [response.json()] can come to: the request
    fails, the status is not ok, or the status is ok and the body is parsed
    ([None] when parsing or reading the expected fields throws). *)
Inductive fetchOutcome (A : Type) : Type :=
| NetworkFailure
| HttpNotOk
| HttpOk (body : option A).
Arguments NetworkFailure {A}.
Arguments HttpNotOk {A}.
Arguments HttpOk {A} body.

End AuthTypes.

(** ** Hybrid proof generation ([wallet-sdk/src/hybrid-proof-generator.ts]) *)

Module HybridProofGenerator.
Import JS Crypto PoseidonHash AuthTypes.

Definition MERKLE_LEVELS : nat := 20.

Record StoredCredential : Type := mkCredential {
  cred_id : string;
  cred_bbsSignature : string;
  cred_commitmentHash : string;
  cred_blindingFactor : string;
  cred_issuerPublicKey : string
}.

Record SnarkPrivateInputs : Type := mkPrivateInputs {
  masterSecret : Z;
  sessionNonce : Z;
  domainHash : Z;
  credentialIdHash : Z;
  blindingFactor : Z;
  lowNullifier : Z;
  lowNullifierNextValue : Z;
  lowNullifierNextIdx : Z;
  merkleSiblings : list Z;
  merklePathIndices : list nat
}.

(** The object handed to [snarkjs.groth16.fullProve]; decimal strings are
    kept as the integers they denote. *)
Record CircuitInputs : Type := mkCircuitInputs {
  ci_pseudonym : Z;
  ci_nullifier : Z;
  ci_commitmentHash : Z;
  ci_registryRoot : Z;
  ci_challenge : Z;
  ci_private : SnarkPrivateInputs
}.

(** Body of a successful [POST /merkle/proof] answer. *)
Record ProofResponse : Type := mkProofResponse {
  resp_success : bool;
  resp_proof : MerkleTree.MerkleProof
}.

(** Everything [generateHybridProof] reads from outside. *)
Record World : Type := mkWorld {
  w_randomBytes : list byte;
  w_getMasterSecret : string -> completion Z;
  w_merkleProof : fetchOutcome ProofResponse;
  w_circuitReady : bool;
  w_fullProve : CircuitInputs -> completion SnarkProof;
  (* generateBBSSelectiveProof: JSON and base64 encoding of the demo proof *)
  w_bbsSelectiveProof :
    StoredCredential -> list nat -> string -> BBSSelectiveDisclosureProof;
  w_now : Z
}.

Section WithPoseidon.
Context {P : Poseidon}.

Definition zeros64 : string := repeatChar "0" 64.

(** [getNonMembershipProof]: the registry's proof, or the placeholder when
    the registry cannot be used. *)
Definition getNonMembershipProof (w : World) (nullifier : string)
  : MerkleTree.MerkleProof :=
  let placeholder :=
    MerkleTree.mkProof nullifier zeros64 (replicate MERKLE_LEVELS zeros64)
      (replicate MERKLE_LEVELS 0%nat) 0 (Some zeros64) (Some zeros64) (Some 0%nat) in
  match w_merkleProof w with
  | HttpOk (Some data) =>
      if resp_success data then
        let p := resp_proof data in
        MerkleTree.mkProof (MerkleTree.leaf p) (MerkleTree.root p)
          (MerkleTree.siblings p) (MerkleTree.pathIndices p) 0
          (MerkleTree.lowNullifier p) (MerkleTree.lowNullifierNextValue p)
          (MerkleTree.lowNullifierNextIdx p)
      else placeholder
  | _ => placeholder
  end.

Definition hexToDecimal (hex : string) : completion Z :=
  let cleanHex := if startsWith "0x" hex then sliceFrom 2 hex else hex in
  BigInt_0x cleanHex.

Definition generateDemoSnarkProof (pub : SnarkPublicInputs) : completion SnarkProof :=
  bind (fromHex (pub_pseudonym pub)) (fun a =>
  bind (fromHex (pub_nullifier pub)) (fun b =>
  bind (fromHex (pub_challenge pub)) (fun c =>
  bind (hash3 a b c) (fun proofSeed =>
  let proofHex := toHex proofSeed in
  let h := substring 0 64 proofHex in
  Returns (mkSnarkProof [h; h; "1"] [[h; h]; [h; h]; ["1"; "0"]] [h; h; "1"]
             "groth16" "bn128"))))).

Definition generateSnarkProof (w : World) (pub : SnarkPublicInputs)
    (priv : SnarkPrivateInputs) : completion SnarkProof :=
  bind (hexToDecimal (pub_pseudonym pub)) (fun p =>
  bind (hexToDecimal (pub_nullifier pub)) (fun n =>
  bind (hexToDecimal (pub_commitmentHash pub)) (fun c =>
  bind (hexToDecimal (pub_registryRoot pub)) (fun r =>
  bind (hexToDecimal (pub_challenge pub)) (fun ch =>
  let circuitInputs := mkCircuitInputs p n c r ch priv in
  if w_circuitReady w then
    match w_fullProve w circuitInputs with
    | Returns proof =>
        Returns (mkSnarkProof (pi_a proof) (pi_b proof) (pi_c proof) "groth16" "bn128")
    | Throws _ => generateDemoSnarkProof pub
    end
  else generateDemoSnarkProof pub))))).

(** [x ? BigInt('0x' + x) : BigInt(0)] for an optional string [x]. *)
Definition optionalHex (x : option string) : completion Z :=
  match x with
  | None | Some EmptyString => Returns 0
  | Some s => BigInt_0x s
  end.

Fixpoint mapHex (l : list string) : completion (list Z) :=
  match l with
  | [] => Returns []
  | s :: rest =>
      bind (BigInt_0x s) (fun z =>
      bind (mapHex rest) (fun zs => Returns (z :: zs)))
  end.

Definition generateHybridProof (w : World) (holderDid : string)
    (credential : StoredCredential) (ch : AuthChallenge)
    (revealedAttributeIndices : list nat) : completion HybridAuthPackage :=
  let domain := AuthTypes.domain ch in
  (* Step 1: one call to randomScalar(); the nonce is not re-drawn *)
  bind (randomScalar (w_randomBytes w)) (fun sessionNonce =>
  (* Step 2 *)
  bind (w_getMasterSecret w holderDid) (fun masterSecret =>
  bind (BigInt_0x (cred_blindingFactor credential)) (fun blindingFactor =>
  let commitmentHash := cred_commitmentHash credential in
  (* Step 3 *)
  bind (hashString domain) (fun domainHash =>
  bind (hash3 masterSecret sessionNonce domainHash) (fun pseudonymRaw =>
  let pseudonym := toHex pseudonymRaw in
  (* Step 4 *)
  bind (hashString (cred_id credential)) (fun credentialIdHash =>
  bind (hash3 credentialIdHash sessionNonce domainHash) (fun nullifierRaw =>
  let nullifier := toHex nullifierRaw in
  (* Step 5 *)
  let merkleProof := getNonMembershipProof w nullifier in
  (* Step 6 *)
  let snarkPublicInputs :=
    mkPublicInputs pseudonym nullifier commitmentHash (MerkleTree.root merkleProof)
      (AuthTypes.challenge ch) in
  bind (optionalHex (MerkleTree.lowNullifier merkleProof)) (fun low =>
  bind (optionalHex (MerkleTree.lowNullifierNextValue merkleProof)) (fun lowNext =>
  bind (mapHex (MerkleTree.siblings merkleProof)) (fun sibs =>
  let snarkPrivateInputs :=
    mkPrivateInputs masterSecret sessionNonce domainHash credentialIdHash
      blindingFactor low lowNext
      (Z.of_nat (default 0%nat (MerkleTree.lowNullifierNextIdx merkleProof)))
      sibs (MerkleTree.pathIndices merkleProof) in
  bind (generateSnarkProof w snarkPublicInputs snarkPrivateInputs) (fun snarkProof =>
  (* Step 7 *)
  let bbsProof :=
    match revealedAttributeIndices with
    | [] => None
    | _ => Some (w_bbsSelectiveProof w credential revealedAttributeIndices
                   (AuthTypes.challenge ch))
    end in
  (* Step 8 *)
  let hybridProof := mkHybridProof snarkProof snarkPublicInputs bbsProof commitmentHash in
  Returns (mkPackage (challengeId ch) (AuthTypes.challenge ch) hybridProof
             pseudonym nullifier domain (MerkleTree.root merkleProof) (w_now w))))))))))))).

End WithPoseidon.
End HybridProofGenerator.

(** ** Challenge issuance ([verifier-service/src/services/challenge-manager]) *)

Module ChallengeManager.
Import JS AuthTypes.

Definition FIELD_MODULUS : Z :=
  0x73eda753299d7d483339d80809a1d80553bda402fffe5bfeffffffff00000001.

Definition CHALLENGE_TTL_MS : Z := 5 * 60 * 1000.

Definition CIRCUIT_ID : string := "halp-auth-v1".

(** Body of [GET /merkle/root]. *)
Record RootResponse : Type := mkRootResponse {
  rr_root : option string
}.

(** What one call of [generateChallenge] reads from outside, in the order
    it reads it. *)
Record World : Type := mkWorld {
  w_nowId : Z;                              (* Date.now() in generateChallengeId *)
  w_random8 : list byte;                    (* randomBytes(8) *)
  w_random32 : list byte;                   (* randomBytes(32) *)
  w_rootFetch : fetchOutcome RootResponse;  (* GET /merkle/root *)
  w_placeholderDigest : list byte;          (* sha256('HALP_EMPTY_TREE_ROOT_V1') *)
  w_nowCreated : Z                          (* Date.now() in step 4 *)
}.

Definition generateChallengeId (w : World) : string :=
  let timestamp := toString 36 (w_nowId w) in
  let random := bufferToHex (w_random8 w) in
  ("ch_" ++ timestamp ++ "_" ++ random)%string.

(** [getRegistryRoot()]; [None] stands for [undefined], returned when the
    answer is ok but carries no [root]. *)
Definition getRegistryRoot (w : World) : option string :=
  let placeholder := Some (bufferToHex (w_placeholderDigest w)) in
  match w_rootFetch w with
  | HttpOk (Some data) => rr_root data
  | _ => placeholder
  end.

(** [generateChallenge(request)]: the challenge returned and the store after
    [this.store.store(authChallenge)]. *)
Definition generateChallenge (w : World) (store : gmap string AuthChallenge)
    (requestDomain : string)
  : completion (AuthChallenge * gmap string AuthChallenge) :=
  let challengeId := generateChallengeId w in
  bind (BigInt_0x (bufferToHex (w_random32 w))) (fun n =>
  let challengeBigInt := Z.rem n FIELD_MODULUS in
  let challenge := padStart 64 "0" (toString 16 challengeBigInt) in
  match getRegistryRoot w with
  | None => Throws TypeError   (* registryRoot.substring on undefined *)
  | Some registryRoot =>
      let createdAt := w_nowCreated w in
      let expiresAt := createdAt + CHALLENGE_TTL_MS in
      let authChallenge :=
        mkChallenge challengeId challenge requestDomain registryRoot CIRCUIT_ID
          createdAt expiresAt in
      Returns (authChallenge, <[challengeId := authChallenge]> store)
  end).

End ChallengeManager.

(** ** Hybrid verification ([verifier-service/src/services/hybrid-verifier])

    [revealedAttributes] of the result (filled by JSON parsing of the revealed
    messages) is not part of the model. *)

Module HybridVerifier.
Import JS AuthTypes.

Record HybridVerificationResult : Type := mkResult {
  valid : bool;
  snarkValid : bool;
  bbsValid : bool;
  bindingValid : bool;
  registryRootValid : bool;
  nullifierFresh : bool;
  res_pseudonym : option string;
  res_domain : option string;
  res_error : option string
}.

(** Body of [POST /nullifiers/check]; [used] is the truthiness of
    [data.used]. *)
Record CheckResponse : Type := mkCheckResponse {
  used : bool
}.

(** Body of [GET /merkle/root]; [None] when [data.root] is not a string. *)
Record RootResponse : Type := mkRootResponse {
  currentRoot : option string
}.

(** What [verify] reads from the registry. *)
Record Registry : Type := mkRegistry {
  rootFetch : fetchOutcome RootResponse;
  checkFetch : fetchOutcome CheckResponse
}.

Section WithGroth16.
(** The verification key type and [snarkjs.groth16.verify(vk, signals, proof)]
    (public signals are decimal strings). *)
Variable VerificationKey : Type.
Variable groth16_verify :
  VerificationKey -> list string -> SnarkProof -> completion bool.

(** State of a [HybridVerifier] after its constructor. *)
Record Verifier : Type := mkVerifier {
  verificationKey : option VerificationKey;
  circuitReady : bool
}.

Definition validateSnarkStructure (proof : SnarkProof) : bool :=
  if (length (pi_a proof) <? 2)%nat then false
  else if (length (pi_c proof) <? 2)%nat then false
  else match pi_b proof with
       | [] => false
       | _ :: _ => true
       end.

(** [l.length >= 2 && l[0] === l[1]] *)
Definition firstTwoEqual (l : list string) : bool :=
  match l with
  | x0 :: x1 :: _ => bool_decide (x0 = x1)
  | _ => false
  end.

Definition isDemoModeProof (p : SnarkProof) : bool :=
  if firstTwoEqual (pi_a p) then true
  else if firstTwoEqual (pi_c p) then true
  else false.

Definition performStructuralVerification (p : SnarkProof) (pub : SnarkPublicInputs)
  : bool :=
  let hasContent :=
    existsb (fun v => negb (bool_decide (v = "0"%string))
                      && negb (bool_decide (v = ""%string))
                      && negb (bool_decide (v = "1"%string))) (pi_a p) in
  if negb hasContent then false
  else if negb (isHexString (pub_pseudonym pub)) then false
  else if negb (isHexString (pub_nullifier pub)) then false
  else true.

Definition hexToDecimal (hex : string) : completion string :=
  let cleanHex := if startsWith "0x" hex then sliceFrom 2 hex else hex in
  bind (BigInt_0x cleanHex) (fun n => Returns (toString 10 n)).

Definition verifySnarkProof (v : Verifier) (hp : HybridAuthProof) : bool :=
  let snarkProof := snarkProof hp in
  let publicInputs := publicInputs hp in
  if negb (validateSnarkStructure snarkProof) then false
  else
    match circuitReady v, verificationKey v with
    | true, Some vk =>
        let attempt :=
          bind (hexToDecimal (pub_pseudonym publicInputs)) (fun s1 =>
          bind (hexToDecimal (pub_nullifier publicInputs)) (fun s2 =>
          bind (hexToDecimal (pub_commitmentHash publicInputs)) (fun s3 =>
          bind (hexToDecimal (pub_registryRoot publicInputs)) (fun s4 =>
          bind (hexToDecimal (pub_challenge publicInputs)) (fun s5 =>
          let publicSignals := [s1; s2; s3; s4; s5] in
          bind (groth16_verify vk publicSignals snarkProof) (fun isValid =>
          if negb isValid && isDemoModeProof snarkProof
          then Returns (performStructuralVerification snarkProof publicInputs)
          else Returns isValid)))))) in
        catch attempt (performStructuralVerification snarkProof publicInputs)
    | _, _ => performStructuralVerification snarkProof publicInputs
    end.

Definition verifyBBSProof (b : BBSSelectiveDisclosureProof) : bool :=
  if bool_decide (bbs_proof b = ""%string) then false
  else if negb (bool_decide (0%nat ∈ revealedIndices b)) then false
  else match revealedMessages b !! 0%nat with
       | None | Some EmptyString => false
       | Some _ => true
       end.

Definition verifyBinding (hp : HybridAuthProof) : completion bool :=
  let snarkCommitment := pub_commitmentHash (publicInputs hp) in
  let declaredCommitment := commitmentHash hp in
  if negb (bool_decide (snarkCommitment = declaredCommitment)) then Returns false
  else
    match bbsProof hp with
    | Some b =>
        match revealedMessages b !! 0%nat with
        | None => Throws TypeError   (* bbsCommitment.substring on undefined *)
        | Some bbsCommitment =>
            if negb (bool_decide (bbsCommitment = snarkCommitment)) then Returns false
            else Returns true
        end
    | None => Returns true
    end.

Definition verifyRegistryRoot (r : Registry) (claimedRoot : string) : bool :=
  match rootFetch r with
  | HttpOk (Some data) =>
      match currentRoot data with
      | Some currentRoot =>
          if bool_decide (currentRoot = claimedRoot) then true
          else if (String.length claimedRoot =? 64)%nat then true
          else false
      | None => true            (* currentRoot.substring throws: caught *)
      end
  | _ => true                   (* could not reach registry: accepted *)
  end.

Definition checkNullifierFresh (r : Registry) (nullifier : string) : bool :=
  match checkFetch r with
  | HttpOk (Some data) => negb (used data)
  | _ => true                   (* could not reach registry: assumed fresh *)
  end.

Definition failed (res : HybridVerificationResult) (msg : string)
  : HybridVerificationResult :=
  mkResult false (snarkValid res) (bbsValid res) (bindingValid res)
    (registryRootValid res) (nullifierFresh res) None None (Some msg).

Definition verify (v : Verifier) (r : Registry) (pkg : HybridAuthPackage)
  : HybridVerificationResult :=
  let hp := hybridProof pkg in
  (* Step 1 *)
  let sv := verifySnarkProof v hp in
  let result1 := mkResult false sv true false false false None None None in
  if negb sv then failed result1 "SNARK proof verification failed"
  else
    (* Step 2 *)
    let bv := match bbsProof hp with
              | Some b => verifyBBSProof b
              | None => true
              end in
    let result2 := mkResult false sv bv false false false None None None in
    if negb bv then failed result2 "BBS+ proof verification failed"
    else
      (* Step 3 *)
      match verifyBinding hp with
      | Throws _ => failed result2 "Verification failed"
      | Returns bd =>
          let result3 := mkResult false sv bv bd false false None None None in
          if negb bd then failed result3 "Proof binding verification failed"
          else
            (* Step 4 *)
            let rv := verifyRegistryRoot r (pkg_registryRoot pkg) in
            let result4 := mkResult false sv bv bd rv false None None None in
            if negb rv then failed result4 "Registry root mismatch"
            else
              (* Step 5 *)
              let nf := checkNullifierFresh r (pkg_nullifier pkg) in
              let result5 := mkResult false sv bv bd rv nf None None None in
              if negb nf
              then failed result5 "Nullifier already used (replay attack detected)"
              else
                mkResult true sv bv bd rv nf
                  (Some (pkg_pseudonym pkg)) (Some (pkg_domain pkg)) None
      end.

(** The three checks of [verify] that do not involve the registry. *)
Definition proofChecks (v : Verifier) (hp : HybridAuthProof) : bool :=
  verifySnarkProof v hp
  && match bbsProof hp with
     | Some b => verifyBBSProof b
     | None => true
     end
  && catch (verifyBinding hp) false.

End WithGroth16.

(** The registry did not answer with a usable body: the request failed, the
    status was not ok, or the body could not be read. *)
Definition unavailable {A : Type} (f : fetchOutcome A) : Prop :=
  match f with
  | HttpOk (Some _) => False
  | _ => True
  end.

End HybridVerifier.


(** ** Concrete scenarios

    Stand-ins for the remaining external parties, to run the code on
    concrete inputs. *)

Module Scenarios.
Import JS Crypto PoseidonHash AuthTypes.

Definition BN254_ORDER : Z :=
  21888242871839275222246405745257275088548364400416034343698204186575808495617.

(** A stand-in for Poseidon: an affine checksum of the inputs, reduced into
    the BN254 scalar field. *)
#[export] Instance toyPoseidon : Poseidon := fun inputs =>
  Returns ((foldl (fun acc x => 31 * acc + x + 1) 7 inputs
            * 0x2f3a9c5e7b1d4f6a8c0e2b4d6f8a1c3e5d7f9b0a2c4e6f8091a3b5c7d9e0f123)
           mod BN254_ORDER).

Definition bytes32 : list byte :=
  [x00; x01; x02; x03; x04; x05; x06; x07; x08; x09; x0a; x0b; x0c; x0d; x0e; x0f;
   x10; x11; x12; x13; x14; x15; x16; x17; x18; x19; x1a; x1b; x1c; x1d; x1e; x1f].

Definition bytes8 : list byte := [x01; x02; x03; x04; x05; x06; x07; x08].

(** *** Challenge issuance *)

Definition challengeWorld : ChallengeManager.World :=
  ChallengeManager.mkWorld 1000 bytes8 bytes32
    (HttpOk (Some (ChallengeManager.mkRootResponse (Some (repeatChar "a" 64)))))
    bytes32 2000.

Definition issuedChallenge : AuthChallenge :=
  match ChallengeManager.generateChallenge challengeWorld ∅ "example.com" with
  | Returns (c, _) => c
  | Throws _ => mkChallenge "" "" "" "" "" 0 0
  end.

(** *** Hybrid proof generation *)

Definition holderCredential : HybridProofGenerator.StoredCredential :=
  HybridProofGenerator.mkCredential "urn:uuid:1" "sig" (repeatChar "c" 64) "02" "pk".

Definition noBbsProof : HybridProofGenerator.StoredCredential -> list nat -> string ->
                        BBSSelectiveDisclosureProof :=
  fun _ _ nonce => mkBBSProof "" [] ∅ "" nonce.

(** The registry is unreachable and no circuit is loaded: the generator
    uses its placeholder Merkle proof and its demo SNARK proof. *)
Definition generatorWorld : HybridProofGenerator.World :=
  HybridProofGenerator.mkWorld bytes32 (fun _ => Returns 5) NetworkFailure false
    (fun _ => Throws (GenericError "no circuit")) noBbsProof 3000.

Definition generatedPackage : completion HybridAuthPackage :=
  HybridProofGenerator.generateHybridProof generatorWorld "did:example:alice"
    holderCredential issuedChallenge [].

(** *** Hybrid verification *)

(** A Groth16 verifier that accepts, one that rejects, one that throws. *)
Definition acceptAll : unit -> list string -> SnarkProof -> completion bool :=
  fun _ _ _ => Returns true.

Definition rejectAll : unit -> list string -> SnarkProof -> completion bool :=
  fun _ _ _ => Returns false.

Definition loadedVerifier : HybridVerifier.Verifier unit :=
  HybridVerifier.mkVerifier unit (Some tt) true.

Definition someProof : SnarkProof :=
  mkSnarkProof ["11"; "12"; "1"] [["21"; "22"]; ["23"; "24"]; ["1"; "0"]]
    ["31"; "32"; "1"] "groth16" "bn128".

(** The shape of the generator's demo proofs: [pi_a[0] = pi_a[1]]. *)
Definition demoProof : SnarkProof :=
  mkSnarkProof ["5"; "5"; "1"] [["5"; "5"]; ["5"; "5"]; ["1"; "0"]]
    ["5"; "5"; "1"] "groth16" "bn128".

Definition packageWith (proof : SnarkProof) : HybridAuthPackage :=
  let pub := mkPublicInputs (repeatChar "1" 64) (repeatChar "2" 64) (repeatChar "c" 64)
               (repeatChar "a" 64) (repeatChar "3" 64) in
  mkPackage "ch_rs_0102030405060708" (repeatChar "3" 64)
    (mkHybridProof proof pub None (repeatChar "c" 64))
    (repeatChar "1" 64) (repeatChar "2" 64) "example.com" (repeatChar "a" 64) 3000.

(** The registry cannot be reached at all. *)
Definition registryDown : HybridVerifier.Registry :=
  HybridVerifier.mkRegistry NetworkFailure NetworkFailure.

End Scenarios.

(** ** The path fold of [verifyProof], on field elements *)

Module PathFold.


End PathFold.

(** ** The remaining registry endpoints
    ([registry-service/src/routes/nullifier-check],
     [registry-service/src/routes/merkle-proof]) and [getStats] *)

Module RegistryRoutes.
Import JS MerkleTree NullifierRoutes.

(** [getStats()]; [now] is [Date.now()]. *)
Record TreeStats : Type := mkStats {
  stats_height : nat;
  stats_leafCount : nat;
  stats_root : string;
  stats_updatedAt : Z
}.

(** Answer of [POST /nullifiers/check]. *)
Inductive CheckReply : Type :=
| CheckStatus400
| CheckStatus200 (shown : string) (used : bool) (usedAt : option Z) (domain : option string).

(** Answer of [GET /nullifiers/stats]. *)
Record NullifierStats : Type := mkNullifierStats {
  totalNullifiers : nat;
  treeHeight : nat;
  currentRoot : string;
  lastUpdated : Z
}.

(** Answer of [POST /merkle/proof]. *)
Inductive ProofReply : Type :=
| ProofStatus400Missing                       (* missing required field: leaf *)
| ProofStatus404                              (* leaf not found in tree *)
| ProofStatus400 (error : jserror)            (* proof generation failed *)
| ProofStatus200 (proofType : string) (proof : MerkleProof).

(** The [proof] object of a [POST /merkle/verify] body. *)
Record VerifyProofBody : Type := mkVerifyProofBody {
  vp_root : string;
  vp_siblings : list string;
  vp_pathIndices : list nat;
  vp_leafIndex : nat
}.

(** Answer of [POST /merkle/verify]. *)
Inductive VerifyReply : Type :=
| VerifyStatus400Missing
| VerifyStatus400 (error : jserror)
| VerifyStatus200 (valid : bool) (shownLeaf : string) (expectedRoot : string).

Section WithPoseidon.
Variable poseidonHash2 : Z -> Z -> Z.
Variable poseidonHash3 : Z -> Z -> Z -> Z.

Definition getStats (now : Z) (t : IndexedMerkleTree) : TreeStats :=
  mkStats (height t) (length (leaves t)) (getRoot poseidonHash3 t) now.

(** [POST /nullifiers/check]; [None] is a body without [nullifier]. *)
Definition check (nullifier : option string) (st : Registry) : CheckReply :=
  match nullifier with
  | None | Some EmptyString => CheckStatus400
  | Some nullifier =>
      let used := hasNullifier (merkleTree st) nullifier in
      let record := nullifierRecords st !! nullifier in
      CheckStatus200 (substring 0 32 nullifier ++ "...") used
        (rec_timestamp <$> record) (rec_domain <$> record)
  end.

(** [GET /nullifiers/stats] *)
Definition nullifierStats (now : Z) (st : Registry) : NullifierStats :=
  let stats := getStats now (merkleTree st) in
  mkNullifierStats (stats_leafCount stats) (stats_height stats) (stats_root stats)
    (stats_updatedAt stats).

(** [POST /merkle/proof]; [proofType] defaults to ['non-membership'], and
    every value other than ['membership'] asks for a non-membership proof. *)
Definition proofRoute (leaf : option string) (proofType : option string)
    (t : IndexedMerkleTree) : ProofReply :=
  match leaf with
  | None | Some EmptyString => ProofStatus400Missing
  | Some leaf =>
      let proofType := default "non-membership"%string proofType in
      if bool_decide (proofType = "membership"%string) then
        match getMembershipProof poseidonHash3 t leaf with
        | Returns None => ProofStatus404
        | Returns (Some proof) => ProofStatus200 "membership" proof
        | Throws e => ProofStatus400 e
        end
      else
        match getNonMembershipProof poseidonHash3 t leaf with
        | Returns proof => ProofStatus200 "non-membership" proof
        | Throws e => ProofStatus400 e
        end
  end.

(** [POST /merkle/verify]: the proof handed to [verifyProof] carries the
    leaf of the request and no low-nullifier fields. *)
Definition verifyRoute (leaf : option string) (proof : option VerifyProofBody)
  : VerifyReply :=
  match leaf, proof with
  | None, _ | Some EmptyString, _ | _, None => VerifyStatus400Missing
  | Some leaf, Some proof =>
      match verifyProof poseidonHash2 leaf
              (mkProof leaf (vp_root proof) (vp_siblings proof) (vp_pathIndices proof)
                 (vp_leafIndex proof) None None None) with
      | Returns isValid =>
          VerifyStatus200 isValid (substring 0 32 leaf ++ "...")
            (substring 0 32 (vp_root proof) ++ "...")
      | Throws e => VerifyStatus400 e
      end
  end.

(** The trees the service can reach: [initialize()] followed by [addLeaf]
    calls. *)
Definition reachable (h : nat) (t : IndexedMerkleTree) : Prop :=
  exists nullifiers, t = addLeaves poseidonHash2 poseidonHash3 nullifiers
                           (initialize poseidonHash2 poseidonHash3 h).

End WithPoseidon.

(** What the index and the leaf array of a tree have to do with each other:
    the head leaf carries the value 0, there is one key per leaf other than
    the head, and a key is mapped to the leaf that carries its value. *)
Definition consistent (t : IndexedMerkleTree) : Prop :=
  (exists l0, leaves t !! 0%nat = Some l0 /\ value l0 = 0) /\
  length (leaves t) = S (size (nullifierIndex t)) /\
  (forall s i, nullifierIndex t !! s = Some i ->
     (0 < i)%nat /\
     exists l v, leaves t !! i = Some l /\ hexToBigInt s = Returns v /\ value l = v).

(** No stored value lies strictly between the value of a leaf and the value
    the leaf links to; a leaf that links to 0 carries the largest value. *)
Definition gapFree (ls : list IndexedLeaf) : Prop :=
  forall i li j lj, ls !! i = Some li -> ls !! j = Some lj ->
    value li < value lj -> nextValue li <> 0 /\ nextValue li <= value lj.

(** The request body of [POST /merkle/verify] made of a proof the tree
    returned. *)
Definition bodyOf (p : MerkleProof) : VerifyProofBody :=
  mkVerifyProofBody (root p) (siblings p) (pathIndices p) (leafIndex p).

End RegistryRoutes.

(** ** The authentication circuit ([circuits/halp-auth.circom])

    A template is the function from its input signals to its output signal,
    [None] when one of its constraints cannot be met. Signals are elements
    of the BN254 scalar field, kept as integers in [0, FIELD_ORDER). *)

Module Circuit.
Import JS.

Definition FIELD_ORDER : Z :=
  21888242871839275222246405745257275088548364400416034343698204186575808495617.

(** The circomlib templates the circuit includes: [Poseidon(nInputs)],
    [LessThan(252)] ([None] when its bit decomposition has no solution),
    [IsZero()] and [MultiMux1(2)]. *)
Class Circomlib : Type := {
  Poseidon : list Z -> Z;
  LessThan252 : Z -> Z -> option Z;
  IsZero : Z -> Z;
  MultiMux1 : list (Z * Z) -> Z -> list Z
}.

(** What the circuit relies on from circomlib: outputs are field elements;
    on inputs below 2^252 [LessThan(252)] outputs 1 or 0 as the first is
    below the second or not; [IsZero] outputs 1 on 0 and 0 elsewhere; on
    field elements the multiplexer selects the first components on selector
    0 and the second ones on selector 1. *)
Class CircomlibLaws (C : Circomlib) : Prop := {
  Poseidon_range : forall l, 0 <= Poseidon l < FIELD_ORDER;
  LessThan252_spec : forall a b,
    0 <= a < 2 ^ 252 -> 0 <= b < 2 ^ 252 ->
    LessThan252 a b = Some (if a <? b then 1 else 0);
  IsZero_spec : forall x,
    0 <= x < FIELD_ORDER -> IsZero x = if x =? 0 then 1 else 0;
  MultiMux1_spec : forall a b c d,
    0 <= a < FIELD_ORDER -> 0 <= b < FIELD_ORDER ->
    0 <= c < FIELD_ORDER -> 0 <= d < FIELD_ORDER ->
    MultiMux1 [(a, b); (c, d)] 0 = [a; c] /\ MultiMux1 [(a, b); (c, d)] 1 = [b; d]
}.

Section WithCircomlib.
Context {C : Circomlib}.

(** [template Poseidon2()] *)
Definition Poseidon2 (in0 in1 : Z) : Z := Poseidon [in0; in1].

(** [template Poseidon3()] *)
Definition Poseidon3 (in0 in1 in2 : Z) : Z := Poseidon [in0; in1; in2].

(** The loop of [template MerkleProof(levels)], started at [hashes[i]] with
    the siblings and path indices from level [i] on. *)
Fixpoint merkleLoop (hash : Z) (siblings pathIndices : list Z) : option Z :=
  match siblings, pathIndices with
  | [], [] => Some hash
  | sibling :: siblings', pathIndex :: pathIndices' =>
      (* pathIndices[i] * (1 - pathIndices[i]) === 0 *)
      if (pathIndex * (1 - pathIndex)) mod FIELD_ORDER =? 0 then
        match MultiMux1 [(hash, sibling); (sibling, hash)] pathIndex with
        | [out0; out1] => merkleLoop (Poseidon2 out0 out1) siblings' pathIndices'
        | _ => None
        end
      else None
  | _, _ => None
  end.

(** [template MerkleProof(levels)]: the arrays hold [levels] signals. *)
Definition MerkleProof (levels : nat) (leaf : Z) (siblings pathIndices : list Z)
  : option Z :=
  if (length siblings =? levels)%nat && (length pathIndices =? levels)%nat
  then merkleLoop leaf siblings pathIndices
  else None.

(** [template NonMembershipProof(levels)] *)
Definition NonMembershipProof (levels : nat)
    (nullifier lowNullifier lowNullifierNextValue lowNullifierNextIdx : Z)
    (siblings pathIndices : list Z) : option Z :=
  match LessThan252 lowNullifier nullifier with
  | None => None
  | Some lt1 =>
      if negb (lt1 =? 1) then None
      else
        let isZero := IsZero lowNullifierNextValue in
        match LessThan252 nullifier lowNullifierNextValue with
        | None => None
        | Some lt2 =>
            let validRange := (isZero + lt2 - isZero * lt2) mod FIELD_ORDER in
            if negb (validRange =? 1) then None
            else
              let leafHash :=
                Poseidon3 lowNullifier lowNullifierNextValue lowNullifierNextIdx in
              MerkleProof levels leafHash siblings pathIndices
        end
  end.



End WithCircomlib.

(** circomlib's templates, as their sources define them, for running the
    circuit on concrete inputs; Poseidon is replaced by a checksum. *)
Definition num2bits (n : nat) (x : Z) : option (Z -> bool) :=
  if (0 <=? x) && (x <? 2 ^ Z.of_nat n) then Some (Z.testbit x) else None.

Definition toyCircomlib : Circomlib := {|
  Poseidon := fun l =>
    (foldl (fun acc x => 31 * acc + x + 1) 7 l
     * 0x2f3a9c5e7b1d4f6a8c0e2b4d6f8a1c3e5d7f9b0a2c4e6f8091a3b5c7d9e0f123)
    mod FIELD_ORDER;
  LessThan252 := fun a b =>
    match num2bits 253 ((a + 2 ^ 252 - b) mod FIELD_ORDER) with
    | Some bits => Some (1 - Z.b2z (bits 252))
    | None => None
    end;
  IsZero := fun x => if x mod FIELD_ORDER =? 0 then 1 else 0;
  MultiMux1 := fun c s => map (fun '(c0, c1) => ((c1 - c0) * s + c0) mod FIELD_ORDER) c
|}.

End Circuit.

(** ** Attribute encoding ([HashOperations.encodeAttribute] of
    [wallet-sdk/src/crypto-utils.ts]) *)

Module Attributes.
Import JS Crypto.

(** The values [encodeAttribute] can be handed. A number is kept as what
    [Math.floor] makes of it: an integer, or [None] for NaN and the
    infinities, on which [BigInt] throws a RangeError. [AOther] stands for
    the values of any other type. *)
Inductive AttributeValue : Type :=
| AString (s : string)
| ANumber (floor : option Z)
| ABoolean (b : bool)
| AOther.

Section WithSha.
Context {sha : Sha256}.

Definition encodeAttribute (value : AttributeValue) : completion Z :=
  match value with
  | AString s =>
      let hash := sha256 (utf8 s) in
      bytesToScalar hash
  | ANumber floor =>
      match floor with
      | Some n => Returns (Z.rem n FIELD_MODULUS)
      | None => Throws RangeError
      end
  | ABoolean b => Returns (if b then 1 else 0)
  | AOther => Throws (GenericError "Unsupported attribute type")
  end.

End WithSha.
End Attributes.

(** ** Challenge validation ([class ChallengeStore], [validateChallenge],
    [consumeChallenge] of [verifier-service/src/services/challenge-manager]) *)

Module ChallengeStore.
Import JS AuthTypes.

(** [store(challenge)] *)
Definition store (challenge : AuthChallenge) (challenges : gmap string AuthChallenge)
  : gmap string AuthChallenge :=
  <[challengeId challenge := challenge]> challenges.

(** [get(challengeId)] *)
Definition get (challengeId : string) (challenges : gmap string AuthChallenge)
  : option AuthChallenge :=
  challenges !! challengeId.

(** [delete(challengeId)]: whether the key was there, and the map without it. *)
Definition delete (challengeId : string) (challenges : gmap string AuthChallenge)
  : bool * gmap string AuthChallenge :=
  (bool_decide (is_Some (challenges !! challengeId)), base.delete challengeId challenges).

(** [cleanup()], run every minute; [now] is [Date.now()]. The loop visits
    the entries the map held when it started (deleting the entry being
    visited is allowed during the iteration of a [Map]). *)
Definition cleanup (now : Z) (challenges : gmap string AuthChallenge)
  : gmap string AuthChallenge :=
  foldl (fun acc '(id, challenge) =>
           if expiresAt challenge <? now then snd (delete id acc) else acc)
        challenges (map_to_list challenges).

(** Result of [validateChallenge]. *)
Record ValidationResult : Type := mkValidation {
  v_valid : bool;
  v_challenge : option AuthChallenge;
  v_error : option string
}.

(** [validateChallenge(challengeId, expectedChallenge)]; [now] is
    [Date.now()]. An expired challenge is deleted. *)
Definition validateChallenge (now : Z) (challengeId expectedChallenge : string)
    (challenges : gmap string AuthChallenge)
  : ValidationResult * gmap string AuthChallenge :=
  match get challengeId challenges with
  | None =>
      (mkValidation false None (Some "Challenge not found or already used"%string),
       challenges)
  | Some challenge =>
      if expiresAt challenge <? now then
        (mkValidation false None (Some "Challenge has expired"%string),
         snd (delete challengeId challenges))
      else if negb (bool_decide (AuthTypes.challenge challenge = expectedChallenge)) then
        (mkValidation false None (Some "Challenge value mismatch"%string), challenges)
      else (mkValidation true (Some challenge) None, challenges)
  end.

(** [consumeChallenge(challengeId)] *)
Definition consumeChallenge (challengeId : string) (challenges : gmap string AuthChallenge)
  : gmap string AuthChallenge :=
  snd (delete challengeId challenges).

End ChallengeStore.

(** ** The SNARK verifier of the authentication endpoint
    ([verifier-service/src/services/snark-verifier.ts]) *)

Module SnarkVerifier.
Import JS AuthTypes.

(** A proof object as the verifier meets it: each of [pi_a], [pi_b], [pi_c]
    is an array of strings or is absent. *)
Record ProofData : Type := mkProofData {
  pd_pi_a : option (list string);
  pd_pi_b : option (list (list string));
  pd_pi_c : option (list string)
}.

(** The [proof] argument of [verify]: a string or a proof object. *)
Inductive ProofInput : Type :=
| ProofString (s : string)
| ProofObject (p : ProofData).

Record PublicInputs : Type := mkInputs {
  in_pseudonym : string;
  in_nullifier : string;
  in_commitmentHash : option string;
  in_registryRoot : string;
  in_challenge : string
}.

Section WithSnarkjs.
(** [JSON.parse] on a proof string, and [snarkjs.groth16.verify] on the
    loaded key, the signals and the proof. *)
Variable JSON_parse : string -> completion ProofData.
Variable VerificationKey : Type.
Variable groth16_verify : VerificationKey -> list string -> ProofData -> completion bool.

(** State of a [SnarkVerifier]: [loadVerificationKey] sets both fields,
    [setVerificationKey] the first one only. *)
Record Verifier : Type := mkVerifier {
  verificationKey : option VerificationKey;
  circuitReady : bool
}.

Definition setVerificationKey (vk : VerificationKey) (v : Verifier) : Verifier :=
  mkVerifier (Some vk) (circuitReady v).

(** The test [this.circuitReady && this.verificationKey] of [verify] fails:
    the verifier runs in demo mode. *)
Definition demoMode (v : Verifier) : Prop :=
  circuitReady v = false \/ verificationKey v = None.

Definition defaultStructure : ProofData :=
  mkProofData (Some ["0"; "0"]%string) (Some [["0"; "0"]]%string) (Some ["0"; "0"]%string).

(** [parseProof(proofHex)] *)
Definition parseProof (proofHex : string) : ProofData :=
  catch
    (if startsWith "{" proofHex then JSON_parse proofHex
     else
       Returns (mkProofData
                  (Some [substring 0 64 proofHex; substring 64 64 proofHex])
                  (Some [[substring 128 64 proofHex; substring 192 64 proofHex]])
                  (Some [substring 256 64 proofHex; substring 320 64 proofHex])))
    defaultStructure.

Definition validateProofStructure (proof : ProofData) : bool :=
  match pd_pi_a proof, pd_pi_b proof, pd_pi_c proof with
  | Some pi_a, Some _, Some pi_c =>
      if (length pi_a <? 2)%nat then false
      else if (length pi_c <? 2)%nat then false
      else true
  | _, _, _ => false
  end.

(** [performVerification]: the content and format checks only log. *)
Definition performVerification (proof : ProofData) (publicInputs : option PublicInputs)
  : bool :=
  match pd_pi_a proof with
  | None | Some [] => false
  | Some _ => true
  end.

(** The helper [hexToDec] of [verify]. *)
Definition hexToDec (hex : string) : completion string :=
  match hex with
  | EmptyString => Returns "0"%string
  | _ =>
      let cleanHex := if startsWith "0x" hex then sliceFrom 2 hex else hex in
      bind (BigInt_0x cleanHex) (fun n => Returns (toString 10 n))
  end.

(** [commitmentHash || '0'] *)
Definition orZero (x : option string) : string :=
  match x with
  | None | Some EmptyString => "0"%string
  | Some s => s
  end.

(** [verify(proof, publicInputs, publicSignals)] *)
Definition verify (v : Verifier) (proof : ProofInput) (publicInputs : option PublicInputs)
    (publicSignals : option (list string)) : bool :=
  catch
    (let proofData := match proof with
                      | ProofString s => parseProof s
                      | ProofObject p => p
                      end in
     if negb (validateProofStructure proofData) then Returns false
     else
       match circuitReady v, verificationKey v with
       | true, Some vk =>
           let signals : completion (list string) :=
             match publicSignals, publicInputs with
             | Some given, _ =>
                 if (length given =? 5)%nat then Returns given
                 else match publicInputs with
                      | Some inputs =>
                          bind (hexToDec (in_pseudonym inputs)) (fun s1 =>
                          bind (hexToDec (in_nullifier inputs)) (fun s2 =>
                          bind (hexToDec (orZero (in_commitmentHash inputs))) (fun s3 =>
                          bind (hexToDec (in_registryRoot inputs)) (fun s4 =>
                          bind (hexToDec (in_challenge inputs)) (fun s5 =>
                          Returns [s1; s2; s3; s4; s5])))))
                      | None => Returns []
                      end
             | None, Some inputs =>
                 bind (hexToDec (in_pseudonym inputs)) (fun s1 =>
                 bind (hexToDec (in_nullifier inputs)) (fun s2 =>
                 bind (hexToDec (orZero (in_commitmentHash inputs))) (fun s3 =>
                 bind (hexToDec (in_registryRoot inputs)) (fun s4 =>
                 bind (hexToDec (in_challenge inputs)) (fun s5 =>
                 Returns [s1; s2; s3; s4; s5])))))
             | None, None => Returns []
             end in
           bind signals (fun signals =>
           Returns (catch (groth16_verify vk signals proofData) false))
       | _, _ => Returns (performVerification proofData publicInputs)
       end)
    false.

End WithSnarkjs.
End SnarkVerifier.

(** ** The authentication verifier
    ([verifier-service/src/services/auth-verifier]) and the routes
    [POST /auth/challenge], [POST /auth/verify]
    ([verifier-service/src/routes/auth-challenge]) *)

Module AuthVerifier.
Import JS AuthTypes ChallengeStore SnarkVerifier.

Inductive AuthErrorCode : Type :=
| INVALID_CHALLENGE
| CHALLENGE_EXPIRED
| INVALID_PROOF
| NULLIFIER_REUSED
| REGISTRY_ROOT_MISMATCH
| INTERNAL_ERROR.

(** The package handed to [verifyAuthentication]. The route checks the
    presence of all fields but [registryRoot], [commitmentHash],
    [publicSignals] and [timestamp]. *)
Record AuthenticationPackage : Type := mkAuthPackage {
  ap_challengeId : string;
  ap_challenge : string;
  ap_proof : ProofInput;
  ap_publicSignals : option (list string);
  ap_pseudonym : string;
  ap_nullifier : string;
  ap_commitmentHash : option string;
  ap_registryRoot : option string;
  ap_domain : string
}.

Record VerificationResult : Type := mkVerification {
  valid : bool;
  res_pseudonym : option string;
  res_domain : option string;
  sessionToken : option string;
  tokenExpiresAt : option Z;
  error : option string;
  errorCode : option AuthErrorCode
}.

(** Body of [GET /merkle/root]; [None] when [data.root] is not a string. *)
Record RootBody : Type := mkRootBody {
  rb_root : option string
}.

(** Body of [POST /nullifiers/check]: whether [data.used === true]. *)
Record CheckBody : Type := mkCheckBody {
  cb_used : bool
}.

(** What one call of [verifyAuthentication] reads from outside, in the
    order it reads it. [w_sign pseudonym domain authenticatedAt] is
    [JwtManager.sign] on the session payload. The answer to the
    registration request is not looked at. *)
Record World : Type := mkWorld {
  w_nowValidate : Z;
  w_rootFetch : fetchOutcome RootBody;
  w_checkFetch : fetchOutcome CheckBody;
  w_nowAuthenticated : Z;
  w_sign : string -> string -> Z -> completion string;
  w_nowToken : Z
}.

Section WithSnarkjs.
Variable JSON_parse : string -> completion ProofData.
Variable VerificationKey : Type.
Variable groth16_verify : VerificationKey -> list string -> ProofData -> completion bool.

Definition failure (msg : option string) (code : AuthErrorCode) : VerificationResult :=
  mkVerification false None None None None msg (Some code).

(** [verifyRegistryRoot(submittedRoot)] *)
Definition verifyRegistryRoot (w : World) (submittedRoot : string) : bool :=
  match w_rootFetch w with
  | HttpOk (Some data) =>
      match rb_root data with
      | Some root => if bool_decide (root = submittedRoot) then true else true
      | None => true            (* data.root.substring throws: caught *)
      end
  | _ => true
  end.

(** [checkNullifierUsed(nullifier)] *)
Definition checkNullifierUsed (w : World) (nullifier : string) : bool :=
  match w_checkFetch w with
  | HttpOk (Some data) => cb_used data
  | _ => false
  end.

(** [verifyAuthentication(authPackage)]: the result and the challenge map
    afterwards. Every exception raised after the first step is caught and
    reported as an internal error. *)
Definition verifyAuthentication (v : Verifier VerificationKey) (w : World)
    (authPackage : AuthenticationPackage) (challenges : gmap string AuthChallenge)
  : VerificationResult * gmap string AuthChallenge :=
  let internal := failure (Some "Internal verification error"%string) INTERNAL_ERROR in
  (* Step 1 *)
  let '(challengeResult, challenges) :=
    validateChallenge (w_nowValidate w) (ap_challengeId authPackage)
      (ap_challenge authPackage) challenges in
  if negb (v_valid challengeResult)
  then (failure (v_error challengeResult) INVALID_CHALLENGE, challenges)
  else
    (* Step 2 *)
    match ap_registryRoot authPackage with
    | None => (internal, challenges)       (* registryRoot.substring on undefined *)
    | Some registryRoot =>
        if negb (verifyRegistryRoot w registryRoot)
        then (failure (Some "Registry root is invalid or stale"%string)
                REGISTRY_ROOT_MISMATCH, challenges)
        else
          (* Step 3 *)
          let publicInputs :=
            mkInputs (ap_pseudonym authPackage) (ap_nullifier authPackage)
              (ap_commitmentHash authPackage) registryRoot (ap_challenge authPackage) in
          let proofValid :=
            verify JSON_parse VerificationKey groth16_verify v (ap_proof authPackage)
              (Some publicInputs) (ap_publicSignals authPackage) in
          if negb proofValid
          then (failure (Some "Zero-knowledge proof verification failed"%string)
                  INVALID_PROOF, challenges)
          else
            (* Step 4 *)
            if checkNullifierUsed w (ap_nullifier authPackage)
            then (failure (Some "Nullifier has been used - possible replay attack"%string)
                    NULLIFIER_REUSED, challenges)
            else
              (* Steps 5 and 6 *)
              match w_sign w (ap_pseudonym authPackage) (ap_domain authPackage)
                      (w_nowAuthenticated w) with
              | Throws _ => (internal, challenges)
              | Returns token =>
                  let tokenExpiresAt := w_nowToken w + 60 * 60 * 1000 in
                  (mkVerification true (Some (ap_pseudonym authPackage))
                     (Some (ap_domain authPackage)) (Some token) (Some tokenExpiresAt)
                     None None,
                   challenges)
              end
    end.

(** Body of [POST /auth/verify]; [None] is an absent field. *)
Record VerifyBody : Type := mkVerifyBody {
  vb_challengeId : option string;
  vb_challenge : option string;
  vb_proof : option ProofInput;
  vb_publicSignals : option (list string);
  vb_pseudonym : option string;
  vb_nullifier : option string;
  vb_commitmentHash : option string;
  vb_registryRoot : option string;
  vb_domain : option string
}.

Inductive VerifyReply : Type :=
| Reply400
| Reply401 (error : option string) (errorCode : option AuthErrorCode)
| Reply200 (pseudonym domain sessionToken : option string) (expiresAt : option Z).

(** A string field that is present and not empty. *)
Definition truthy (x : option string) : option string :=
  match x with
  | None | Some EmptyString => None
  | Some s => Some s
  end.

(** A [proof] field that is present and is not the empty string. *)
Definition truthyProof (x : option ProofInput) : option ProofInput :=
  match x with
  | None | Some (ProofString EmptyString) => None
  | Some p => Some p
  end.

(** [POST /auth/verify]: a successful verification consumes the
    challenge. *)
Definition verifyRoute (v : Verifier VerificationKey) (w : World) (body : VerifyBody)
    (challenges : gmap string AuthChallenge)
  : VerifyReply * gmap string AuthChallenge :=
  match truthy (vb_challengeId body), truthy (vb_challenge body), truthyProof (vb_proof body),
        truthy (vb_pseudonym body), truthy (vb_nullifier body), truthy (vb_domain body) with
  | Some challengeId, Some challenge, Some proof, Some pseudonym, Some nullifier,
    Some domain =>
      let '(result, challenges) :=
        verifyAuthentication v w
          (mkAuthPackage challengeId challenge proof (vb_publicSignals body) pseudonym
             nullifier (vb_commitmentHash body) (vb_registryRoot body) domain)
          challenges in
      if valid result then
        (Reply200 (res_pseudonym result) (res_domain result) (sessionToken result)
           (tokenExpiresAt result),
         consumeChallenge challengeId challenges)
      else (Reply401 (error result) (errorCode result), challenges)
  | _, _, _, _, _, _ => (Reply400, challenges)
  end.

End WithSnarkjs.

(** A JSON parser that rejects everything, a signer and a world in which the
    registry answers, for running the verifier on concrete inputs. *)
Definition noJson : string -> completion ProofData := fun _ => Throws SyntaxError.

Definition noGroth16 : unit -> list string -> ProofData -> completion bool :=
  fun _ _ _ => Returns false.

Definition demoVerifier : Verifier unit := mkVerifier unit None false.

Definition yesGroth16 : unit -> list string -> ProofData -> completion bool :=
  fun _ _ _ => Returns true.

Definition readyVerifier : Verifier unit := mkVerifier unit (Some tt) true.

Definition toyChallenge : AuthChallenge :=
  mkChallenge "ch_1" (repeatChar "3" 64) "example.com" (repeatChar "a" 64) "halp-auth-v1"
    1000 301000.

Definition toyStore : gmap string AuthChallenge := {["ch_1"%string := toyChallenge]}.

Definition toyPackage : AuthenticationPackage :=
  mkAuthPackage "ch_1" (repeatChar "3" 64) (ProofString "no proof at all")
    (Some ["1"; "2"; "3"; "4"; "5"]%string) "alice" "02" None (Some "anything"%string)
    "other.example".

Definition toyWorld (now : Z) : World :=
  mkWorld now (HttpOk (Some (mkRootBody (Some (repeatChar "a" 64)))))
    (HttpOk (Some (mkCheckBody false))) now
    (fun pseudonym domain _ => Returns ("jwt." ++ pseudonym ++ "." ++ domain)%string) now.

End AuthVerifier.

(** ** Holder, registry, circuit and verifier together

    How the parts meet: the registry's replies as the holder's and the
    verifier's [fetch] see them, and the object handed to
    [snarkjs.groth16.fullProve] as the circuit reads it. *)

Module Pipeline.
Import JS AuthTypes.




(** The public signals of a proof for these inputs, in the order of
    [component main {public [pseudonym, nullifier, commitmentHash,
    registryRoot, challenge]}], as decimal strings. *)
Definition publicSignals (ci : HybridProofGenerator.CircuitInputs) : list string :=
  map (toString 10)
    [HybridProofGenerator.ci_pseudonym ci; HybridProofGenerator.ci_nullifier ci;
     HybridProofGenerator.ci_commitmentHash ci; HybridProofGenerator.ci_registryRoot ci;
     HybridProofGenerator.ci_challenge ci].













End Pipeline.

(** ** Trusted setup ([wallet-sdk/src/public-parameters], [TrustedSetup]) *)

Module TrustedSetup.
Import JS Crypto PublicParams.

Definition PARAMS_VERSION : Z := 1.

Definition DEFAULT_MAX_ATTRIBUTES : nat := 20.

Section WithCurve.
Context {g1 : G1Ops}.

(** [G1Operations.hashToCurve(data)] on a string: the curve library's
    hash-to-curve under the fixed domain separation tag. *)
Variable hashToCurve : string -> G1Point.

(** The domain [`BBS_ATTR_GENERATOR_${i}_V1`]. *)
Definition attributeDomain (i : nat) : string :=
  ("BBS_ATTR_GENERATOR_" ++ toString 10 (Z.of_nat i) ++ "_V1")%string.

(** [generateParameters(maxAttributes)] for a number of attributes that is
    a natural number; [now] is [Date.now()]. *)
Definition generateParameters (now : Z) (maxAttributes : nat) : PublicParameters :=
  let G := getGenerator in
  let generatorG := bytesToHex (serialize G) in
  let attributeGenerators :=
    map (fun i => bytesToHex (serialize (hashToCurve (attributeDomain i))))
      (seq 0 maxAttributes) in
  let H_r := hashToCurve "BBS_BLINDING_GENERATOR_V1" in
  let blindingGenerator := bytesToHex (serialize H_r) in
  mkParams PARAMS_VERSION maxAttributes generatorG attributeGenerators blindingGenerator
    now.

(** [setupDefaultParameters()], the file it writes aside. *)
Definition setupDefaultParameters (now : Z) : completion PublicParameters :=
  let params := generateParameters now DEFAULT_MAX_ATTRIBUTES in
  if negb (verifyParameters params)
  then Throws (GenericError "Generated parameters failed verification")
  else Returns params.

End WithCurve.

(** A stand-in for hash-to-curve on the small instance of the curve. *)
Definition toyHashToCurve (s : string) : Toy.Zq :=
  Toy.zq (1 + Z.of_nat (String.length s)).

End TrustedSetup.

(** ** Proofs of the demo shape that miss the structure gate *)

Module DemoShapes.
Import AuthTypes.

(** [pi_a[0] = pi_a[1]], but [pi_b] is empty. *)
Definition withoutPiB : SnarkProof :=
  mkSnarkProof ["5"; "5"; "1"] [] ["5"; "5"; "1"] "groth16" "bn128".

(** [pi_c[0] = pi_c[1]], but [pi_a] has one entry. *)
Definition shortPiA : SnarkProof :=
  mkSnarkProof ["5"] [["5"; "5"]; ["5"; "5"]; ["1"; "0"]] ["5"; "5"; "1"] "groth16" "bn128".

End DemoShapes.

(** ** Nullifier derivation ([wallet-sdk/src/nullifier-manager]) *)

Module NullifierManager.
Import JS Crypto PoseidonHash.

Record NullifierData : Type := mkNullifierData {
  nullifier : string;
  nullifierRaw : Z;
  credentialId : string;
  sessionNonce : Z;
  domain : string
}.

Section WithPoseidon.
Context {P : Poseidon}.

(** [deriveNullifier(credentialId, sessionNonce, domain)] *)
Definition deriveNullifier (credentialId : string) (sessionNonce : Z) (domain : string)
  : completion NullifierData :=
  bind (hashString credentialId) (fun credIdField =>
  bind (hashString domain) (fun domainField =>
  let nonceField := Z.rem sessionNonce FIELD_MODULUS in
  bind (hash3 credIdField nonceField domainField) (fun nullifierRaw =>
  let nullifier := toHex nullifierRaw in
  Returns (mkNullifierData nullifier nullifierRaw credentialId sessionNonce domain)))).

(** [verifyNullifier(credentialId, sessionNonce, domain, expectedNullifier)] *)
Definition verifyNullifier (credentialId : string) (sessionNonce : Z) (domain : string)
    (expectedNullifier : string) : completion bool :=
  bind (deriveNullifier credentialId sessionNonce domain) (fun computed =>
  Returns (bool_decide (nullifier computed = expectedNullifier))).

End WithPoseidon.
End NullifierManager.

(** ** One turn of the script's sampling loop *)

Module ScriptSampling.
Import JS PoseidonHash Script.

Section WithPoseidon.
Context {P : Poseidon}.

(** The values one turn of the loop computes from what it draws. *)
Definition sampleOf (domain : string) (d : Draw) : completion Secrets :=
  bind (wrapperHashString domain) (fun domainHash =>
  bind (wrapperHashString (d_credentialId d)) (fun credentialIdHash =>
  bind (hash3 (d_masterSecret d) (d_sessionNonce d) domainHash) (fun pseudonymRaw =>
  bind (hash3 credentialIdHash (d_sessionNonce d) domainHash) (fun nullifierRaw =>
  Returns (mkSecrets d domainHash credentialIdHash pseudonymRaw nullifierRaw))))).

(** The test that ends the loop. *)
Definition fits (s : Secrets) : bool :=
  fitsIn252Bits (s_pseudonymRaw s) && fitsIn252Bits (s_nullifierRaw s).

End WithPoseidon.

(** Draws for a concrete run: master secret and session nonce grow with the
    number of the attempt. *)
Definition countingDraws (k : nat) : Draw :=
  mkDraw (Z.of_nat k * 1234567) (Z.of_nat k * 7654321 + 3) 9 "urn:uuid:1".

End ScriptSampling.

(** * Part II: properties of the embedded code *)

(** ** Facts about the JavaScript fragments *)

Module JSFacts.
Import JS.

Lemma digitValue_range radix c d :
  digitValue radix c = Some d -> 0 <= d < radix.
Proof.
  unfold digitValue. intros H.
  destruct (_ <? radix) eqn:E in H; [|discriminate].
  injection H as <-. apply Z.ltb_lt in E. split; [|exact E].
  repeat match goal with
         | |- context [if ?b then _ else _] => destruct b eqn:?
         end; try lia.
Qed.

Lemma parseDigits_nonneg radix s : forall acc v,
  0 <= radix -> 0 <= acc -> parseDigits radix acc s = Some v -> 0 <= v.
Proof.
  induction s as [|c s IH]; simpl; intros acc v Hr Hacc H.
  - injection H as <-. exact Hacc.
  - destruct (digitValue radix c) as [d|] eqn:Ed; [|discriminate].
    apply digitValue_range in Ed. eapply IH; [exact Hr| |exact H]. nia.
Qed.

Lemma BigInt_0x_nonneg s v : BigInt_0x s = Returns v -> 0 <= v.
Proof.
  unfold BigInt_0x. destruct (trimEnd s) as [|c t] eqn:Et; [discriminate|].
  destruct (parseDigits 16 0 _) as [z|] eqn:Ep; [|discriminate].
  intros H. injection H as <-. eapply parseDigits_nonneg; [| |exact Ep]; lia.
Qed.


Lemma charCode_charOfCode n : 0 <= n < 256 -> charCode (charOfCode n) = n.
Proof.
  intros H. unfold charCode, charOfCode.
  rewrite N_ascii_embedding by lia. lia.
Qed.

Lemma charCode_digitChar d :
  0 <= d < 36 -> charCode (digitChar d) = if d <? 10 then 48 + d else 87 + d.
Proof.
  intros H. unfold digitChar. destruct (d <? 10) eqn:E.
  - apply charCode_charOfCode. lia.
  - apply charCode_charOfCode. lia.
Qed.

Lemma digitValue_digitChar radix d :
  radix <= 36 -> 0 <= d < radix -> digitValue radix (digitChar d) = Some d.
Proof.
  intros Hr Hd. unfold digitValue. rewrite charCode_digitChar by lia.
  destruct (d <? 10) eqn:E.
  - apply Z.ltb_lt in E.
    replace ((48 <=? 48 + d) && (48 + d <=? 57)) with true by (symmetry; apply andb_true_iff; lia).
    replace (48 + d - 48) with d by lia.
    destruct (d <? radix) eqn:E2; [reflexivity|lia].
  - apply Z.ltb_ge in E.
    replace ((48 <=? 87 + d) && (87 + d <=? 57)) with false by (symmetry; apply andb_false_iff; lia).
    replace ((97 <=? 87 + d) && (87 + d <=? 122)) with true by (symmetry; apply andb_true_iff; lia).
    replace (87 + d - 87) with d by lia.
    destruct (d <? radix) eqn:E2; [reflexivity|lia].
Qed.

Lemma isWhiteSpace_digitChar d : 0 <= d < 36 -> isWhiteSpace (digitChar d) = false.
Proof.
  intros H. unfold isWhiteSpace. rewrite charCode_digitChar by lia.
  destruct (d <? 10) eqn:E; [apply Z.ltb_lt in E|apply Z.ltb_ge in E];
    repeat (apply orb_false_iff; split); try (apply andb_false_iff); lia.
Qed.

Lemma stringOfDigits_cons d ds :
  stringOfDigits (d :: ds) = String (digitChar d) (stringOfDigits ds).
Proof. reflexivity. Qed.

Lemma stringOfDigits_app ds1 ds2 :
  stringOfDigits (ds1 ++ ds2) = (stringOfDigits ds1 ++ stringOfDigits ds2)%string.
Proof.
  induction ds1 as [|d ds1 IH]; [reflexivity|].
  simpl. rewrite !stringOfDigits_cons, IH. reflexivity.
Qed.

Lemma length_stringOfDigits ds : String.length (stringOfDigits ds) = length ds.
Proof.
  induction ds as [|d ds IH]; [reflexivity|].
  rewrite stringOfDigits_cons. simpl. congruence.
Qed.

Lemma parseDigits_stringOfDigits radix ds : forall acc,
  radix <= 36 -> digitsOk radix ds ->
  parseDigits radix acc (stringOfDigits ds) = Some (digitsValue radix acc ds).
Proof.
  induction ds as [|d ds IH]; intros acc Hr Hok; [reflexivity|].
  inversion Hok as [|? ? Hd Hds]; subst.
  rewrite stringOfDigits_cons. simpl.
  rewrite digitValue_digitChar by assumption. apply IH; assumption.
Qed.

Lemma trimEnd_stringOfDigits ds :
  digitsOk 36 ds -> trimEnd (stringOfDigits ds) = stringOfDigits ds.
Proof.
  induction ds as [|d ds IH]; intros Hok; [reflexivity|].
  inversion Hok as [|? ? Hd Hds]; subst.
  rewrite stringOfDigits_cons. simpl. rewrite (IH Hds).
  destruct (stringOfDigits ds); [|reflexivity].
  rewrite isWhiteSpace_digitChar by lia. reflexivity.
Qed.

Lemma digitsOk_weaken r1 r2 ds : r1 <= r2 -> digitsOk r1 ds -> digitsOk r2 ds.
Proof.
  intros H Hok. eapply Forall_impl; [exact Hok|]. intros x Hx. simpl in Hx. lia.
Qed.

Lemma BigInt_0x_stringOfDigits ds :
  ds <> [] -> digitsOk 16 ds ->
  BigInt_0x (stringOfDigits ds) = Returns (digitsValue 16 0 ds).
Proof.
  intros Hne Hok. unfold BigInt_0x.
  rewrite trimEnd_stringOfDigits by (eapply digitsOk_weaken; [|exact Hok]; lia).
  destruct ds as [|d ds]; [contradiction|].
  rewrite stringOfDigits_cons. cbv iota. rewrite <- stringOfDigits_cons.
  rewrite parseDigits_stringOfDigits by (lia || assumption). reflexivity.
Qed.

(** [toDigits] with enough fuel emits the radix expansion. *)
Lemma toDigits_spec radix : 2 <= radix -> forall fuel n acc,
  0 <= n -> Z.log2 n <= Z.of_nat fuel ->
  exists ds, toDigits radix fuel n acc = ds ++ acc /\
    ds <> [] /\ digitsOk radix ds /\ digitsValue radix 0 ds = n /\
    (forall k, (1 <= k)%nat -> n < radix ^ Z.of_nat k -> (length ds <= k)%nat).
Proof.
  intros Hr. induction fuel as [|fuel IH]; intros n acc Hn Hlog.
  - assert (n < 2).
    { destruct (Z_lt_le_dec n 2); [assumption|].
      assert (1 <= Z.log2 n) by (apply (Z.log2_le_mono 2 n); lia). lia. }
    exists [n]. simpl. repeat split; try (constructor; [lia|constructor]); try lia.
    discriminate.
  - simpl. destruct (n <? radix) eqn:E.
    + apply Z.ltb_lt in E. exists [n]. simpl.
      repeat split; try (constructor; [lia|constructor]); try lia. discriminate.
    + apply Z.ltb_ge in E.
      assert (0 <= n / radix) by (apply Z.div_pos; lia).
      assert (n / radix <= n / 2).
      { apply Z.div_le_compat_l; lia. }
      assert (Z.log2 (n / radix) <= Z.of_nat fuel).
      { etransitivity; [apply Z.log2_le_mono; eassumption|].
        change 2 with (2 ^ 1). rewrite <- Z.shiftr_div_pow2 by lia.
        rewrite Z.log2_shiftr by lia. lia. }
      destruct (IH (n / radix) (n mod radix :: acc)) as (ds & Hds & Hne & Hok & Hval & Hlen);
        [assumption|assumption|].
      exists (ds ++ [n mod radix]). rewrite Hds, <- app_assoc. split; [reflexivity|].
      split; [destruct ds; discriminate|]. split.
      { apply Forall_app. split; [exact Hok|]. constructor; [|constructor].
        apply Z.mod_pos_bound. lia. }
      split.
      { unfold digitsValue in *. rewrite foldl_snoc, Hval.
        rewrite (Z.div_mod n radix) at 3 by lia. lia. }
      intros k Hk Hlt. rewrite length_app. simpl.
      destruct k as [|k]; [lia|]. destruct k as [|k].
      { simpl in Hlt. lia. }
      assert (length ds <= S k)%nat; [|lia].
      apply Hlen; [lia|].
      apply Z.div_lt_upper_bound; [lia|].
      rewrite (Nat2Z.inj_succ (S k)), Z.pow_succ_r in Hlt by lia. exact Hlt.
Qed.

Lemma digitsOf_spec radix n : 2 <= radix -> 0 <= n ->
  digitsOf radix n <> [] /\ digitsOk radix (digitsOf radix n) /\
  digitsValue radix 0 (digitsOf radix n) = n /\
  (forall k, (1 <= k)%nat -> n < radix ^ Z.of_nat k -> (length (digitsOf radix n) <= k)%nat).
Proof.
  intros Hr Hn. unfold digitsOf.
  destruct (toDigits_spec radix Hr (Z.to_nat (Z.log2 n)) n [] Hn) as (ds & Hds & H).
  { pose proof (Z.log2_nonneg n). lia. }
  rewrite Hds, app_nil_r. exact H.
Qed.

Lemma repeatChar_zero k : repeatChar "0" k = stringOfDigits (replicate k 0).
Proof. induction k as [|k IH]; [reflexivity|]. simpl. rewrite IH. reflexivity. Qed.

Lemma length_repeatChar c k : String.length (repeatChar c k) = k.
Proof. induction k as [|k IH]; [reflexivity|]. simpl. congruence. Qed.

Lemma string_length_app (s1 s2 : string) :
  String.length (s1 ++ s2) = (String.length s1 + String.length s2)%nat.
Proof. induction s1 as [|c s1 IH]; [reflexivity|]. simpl. congruence. Qed.

Lemma padStart_stringOfDigits n ds :
  padStart n "0" (stringOfDigits ds)
  = stringOfDigits (replicate (n - length ds) 0 ++ ds).
Proof.
  unfold padStart. rewrite length_stringOfDigits, repeatChar_zero, stringOfDigits_app.
  reflexivity.
Qed.

Lemma digitsValue_zeros radix k ds :
  digitsValue radix 0 (replicate k 0 ++ ds) = digitsValue radix 0 ds.
Proof.
  induction k as [|k IH]; [reflexivity|]. simpl. unfold digitsValue in *. simpl.
  exact IH.
Qed.

Lemma digitsOk_zeros radix k ds :
  0 < radix -> digitsOk radix ds -> digitsOk radix (replicate k 0 ++ ds).
Proof.
  intros Hr Hok. apply Forall_app. split; [|exact Hok].
  apply Forall_replicate. lia.
Qed.

Lemma byteToZ_range b : 0 <= byteToZ b < 256.
Proof. unfold byteToZ. pose proof (Byte.to_N_bounded b). lia. Qed.

Lemma byteToZ_byteOfZ z : 0 <= z < 256 -> byteToZ (byteOfZ z) = z.
Proof.
  intros H. unfold byteToZ, byteOfZ.
  destruct (Byte.of_N (Z.to_N z)) as [b|] eqn:E.
  - apply Byte.to_of_N in E. rewrite E. lia.
  - apply Byte.of_N_None_iff in E. lia.
Qed.

Lemma byteOfZ_byteToZ b : byteOfZ (byteToZ b) = b.
Proof.
  unfold byteToZ, byteOfZ. rewrite N2Z.id, Byte.of_to_N. reflexivity.
Qed.

Lemma bufferToHex_nibbles bs : bufferToHex bs = stringOfDigits (nibbles bs).
Proof. induction bs as [|b bs IH]; [reflexivity|]. simpl. rewrite IH. reflexivity. Qed.

Lemma digitsOk_nibbles bs : digitsOk 16 (nibbles bs).
Proof.
  induction bs as [|b bs IH]; [constructor|].
  pose proof (byteToZ_range b). simpl.
  constructor; [|constructor; [|exact IH]].
  - split; [apply Z.div_pos; lia|apply Z.div_lt_upper_bound; lia].
  - apply Z.mod_pos_bound. lia.
Qed.

Lemma length_nibbles bs : length (nibbles bs) = (2 * length bs)%nat.
Proof. induction bs as [|b bs IH]; [reflexivity|]. simpl. lia. Qed.

Lemma nibbles_nil_inv bs : nibbles bs = [] -> bs = [].
Proof. destruct bs; [reflexivity|discriminate]. Qed.

(** [BigInt('0x' + buffer.toString('hex'))] reads the bytes big-endian. *)
Lemma BigInt_0x_bufferToHex bs :
  bs <> [] -> BigInt_0x (bufferToHex bs) = Returns (digitsValue 16 0 (nibbles bs)).
Proof.
  intros Hne. rewrite bufferToHex_nibbles. apply BigInt_0x_stringOfDigits.
  - intros H. apply nibbles_nil_inv in H. contradiction.
  - apply digitsOk_nibbles.
Qed.

Lemma BigInt_0x_bufferToHex_nil : BigInt_0x (bufferToHex []) = Throws SyntaxError.
Proof. reflexivity. Qed.

Lemma bufferFromHex_stringOfDigits ds :
  digitsOk 16 ds -> bufferFromHex (stringOfDigits ds) = bytesOfNibbles ds.
Proof.
  revert ds. fix IH 1. intros ds Hok.
  destruct ds as [|h [|l ds]]; [reflexivity|reflexivity|].
  inversion Hok as [|? ? Hh Hok']; subst. inversion Hok' as [|? ? Hl Hok'']; subst.
  rewrite !stringOfDigits_cons. simpl.
  rewrite !digitValue_digitChar by lia. f_equal. apply IH. exact Hok''.
Qed.

Lemma nibbles_bytesOfNibbles ds :
  digitsOk 16 ds -> Nat.Even (length ds) -> nibbles (bytesOfNibbles ds) = ds.
Proof.
  revert ds. fix IH 1. intros ds Hok Hev.
  destruct ds as [|h [|l ds]]; [reflexivity| |].
  - destruct Hev as [k Hk]. simpl in Hk. lia.
  - inversion Hok as [|? ? Hh Hok']; subst. inversion Hok' as [|? ? Hl Hok'']; subst.
    simpl. rewrite byteToZ_byteOfZ by lia.
    replace ((16 * h + l) / 16) with h.
    2:{ apply Z.div_unique with l; lia. }
    replace ((16 * h + l) mod 16) with l.
    2:{ apply Z.mod_unique with h; lia. }
    f_equal. f_equal. apply IH; [exact Hok''|].
    destruct Hev as [k Hk]. simpl in Hk. exists (k - 1)%nat. lia.
Qed.

Lemma length_bytesOfNibbles ds :
  Nat.Even (length ds) -> (2 * length (bytesOfNibbles ds) = length ds)%nat.
Proof.
  revert ds. fix IH 1. intros ds Hev.
  destruct ds as [|h [|l ds]]; [reflexivity| |].
  - destruct Hev as [k Hk]. simpl in Hk. lia.
  - simpl. assert (Nat.Even (length ds)) as H.
    { destruct Hev as [k Hk]. simpl in Hk. exists (k - 1)%nat. lia. }
    specialize (IH ds H). lia.
Qed.

(** The digits written by [n.toString(16).padStart(64, '0')]. *)
Lemma padded_hex_digits n :
  0 <= n ->
  exists ds, padStart 64 "0" (toString 16 n) = stringOfDigits ds /\
    digitsOk 16 ds /\ digitsValue 16 0 ds = n /\ (64 <= length ds)%nat /\
    (n < 2 ^ 256 -> length ds = 64%nat).
Proof.
  intros Hn. unfold toString. destruct (n <? 0) eqn:E; [apply Z.ltb_lt in E; lia|].
  destruct (digitsOf_spec 16 n ltac:(lia) Hn) as (Hne & Hok & Hval & Hlen).
  rewrite padStart_stringOfDigits.
  exists (replicate (64 - length (digitsOf 16 n)) 0 ++ digitsOf 16 n).
  split; [reflexivity|]. split; [apply digitsOk_zeros; [lia|exact Hok]|].
  split; [rewrite digitsValue_zeros; exact Hval|].
  rewrite length_app, length_replicate. split; [lia|].
  intros Hlt. specialize (Hlen 64%nat ltac:(lia)).
  change (16 ^ Z.of_nat 64) with (2 ^ 256) in Hlen. specialize (Hlen Hlt). lia.
Qed.


End JSFacts.
(** ** The indexed Merkle tree *)

Module MerkleFacts.
Import JS JSFacts MerkleTree.

Lemma hexToBigInt_nonneg s v : hexToBigInt s = Returns v -> 0 <= v.
Proof.
  unfold hexToBigInt. case_bool_decide.
  - intros E; injection E as <-. lia.
  - destruct (_ =? _)%nat.
    + intros E; injection E as <-. lia.
    + apply BigInt_0x_nonneg.
Qed.

(** The scan returns an index of the array whose value is the largest one
    below the target (or the head when no value is below it). *)
Lemma scan_spec (ls : list IndexedLeaf) target n :
  (n <= length ls)%nat ->
  let p := foldl (scanStep ls target) 0%nat (seq 0 n) in
  (p = 0%nat \/ (p < n)%nat /\ exists lp, ls !! p = Some lp /\ value lp < target) /\
  (forall i li lp, (i < n)%nat -> ls !! i = Some li -> ls !! p = Some lp ->
                   value li < target -> value li <= value lp).
Proof.
  induction n as [|n IH]; intros Hn.
  - simpl. split; [left; reflexivity|]. intros; lia.
  - cbv zeta. rewrite seq_S, foldl_snoc. cbn [Nat.add].
    specialize (IH ltac:(lia)). cbv zeta in IH. destruct IH as [IH1 IH2].
    set (p := foldl (scanStep ls target) 0%nat (seq 0 n)) in *.
    unfold scanStep.
    destruct (ls !! n) as [ln|] eqn:En.
    2:{ apply lookup_ge_None in En. lia. }
    destruct (ls !! p) as [lp|] eqn:Ep.
    + destruct ((value ln <? target) && (value lp <? value ln)) eqn:Eb; cbv iota.
      * apply andb_true_iff in Eb as [Eb1 Eb2].
        apply Z.ltb_lt in Eb1, Eb2. split.
        -- right. split; [lia|]. exists ln. auto.
        -- intros i li lp' Hi Hli Hlp' Hlt. rewrite En in Hlp'. injection Hlp' as <-.
           destruct (decide (i = n)) as [->|Hne].
           ++ rewrite En in Hli. injection Hli as <-. lia.
           ++ specialize (IH2 i li lp ltac:(lia) Hli eq_refl Hlt). lia.
      * split.
        -- rewrite Ep.
           destruct IH1 as [?|[? ?]]; [left; assumption|right; split; [lia|assumption]].
        -- intros i li lp' Hi Hli Hlp' Hlt. rewrite Ep in Hlp'. injection Hlp' as <-.
           destruct (decide (i = n)) as [->|Hne].
           ++ rewrite En in Hli. injection Hli as <-.
              apply andb_false_iff in Eb as [Eb|Eb].
              ** apply Z.ltb_ge in Eb. lia.
              ** apply Z.ltb_ge in Eb. lia.
           ++ apply (IH2 i li lp); auto. lia.
    + split.
      -- rewrite Ep. destruct IH1 as [?|[? ?]]; [left; assumption|right; split; [lia|assumption]].
      -- intros i li lp' Hi Hli Hlp'. congruence.
Qed.

Lemma findLow_spec (ls : list IndexedLeaf) target l0 :
  ls !! 0%nat = Some l0 -> value l0 < target ->
  exists lp, ls !! findLow ls target = Some lp /\ value lp < target /\
    forall i li, ls !! i = Some li -> value li < target -> value li <= value lp.
Proof.
  intros H0 Hlt. unfold findLow.
  destruct (scan_spec ls target (length ls) ltac:(lia)) as [H1 H2]. simpl in *.
  set (p := foldl (scanStep ls target) 0%nat (seq 0 (length ls))) in *.
  assert (exists lp, ls !! p = Some lp /\ value lp < target) as (lp & Hp & Hv).
  { destruct H1 as [->|[_ ?]]; [exists l0; auto|assumption]. }
  exists lp. split; [exact Hp|]. split; [exact Hv|].
  intros i li Hi Hl. apply (H2 i li lp); auto. by apply lookup_lt_Some in Hi.
Qed.


Section WithPoseidon.
Variable poseidonHash2 : Z -> Z -> Z.
Variable poseidonHash3 : Z -> Z -> Z -> Z.

Local Abbreviation rebuildTree := (rebuildTree poseidonHash2 poseidonHash3).
Local Abbreviation addLeaf := (addLeaf poseidonHash2 poseidonHash3).
Local Abbreviation addLeaves := (addLeaves poseidonHash2 poseidonHash3).
Local Abbreviation initialize := (initialize poseidonHash2 poseidonHash3).

Lemma leaves_rebuildTree t : leaves (rebuildTree t) = leaves t.
Proof.
  unfold rebuildTree, computeEmptySubtreeHashes.
  destruct (emptySubtreeHashes t); reflexivity.
Qed.

Lemma nullifierIndex_rebuildTree t : nullifierIndex (rebuildTree t) = nullifierIndex t.
Proof.
  unfold rebuildTree, computeEmptySubtreeHashes.
  destruct (emptySubtreeHashes t); reflexivity.
Qed.

Lemma height_rebuildTree t : height (rebuildTree t) = height t.
Proof.
  unfold rebuildTree, computeEmptySubtreeHashes.
  destruct (emptySubtreeHashes t); reflexivity.
Qed.

(** A call on a string that is already a key of the index returns the stored
    index and the tree itself. *)
Lemma addLeaf_present s v idx t :
  hexToBigInt s = Returns v -> nullifierIndex t !! s = Some idx ->
  addLeaf s t = Returns (idx, t).
Proof. intros Hv Hi. unfold addLeaf. rewrite Hv. simpl. rewrite Hi. reflexivity. Qed.

(** A call on a new key appends a leaf after the predecessor found by the
    scan. *)
Lemma addLeaf_fresh s v p t :
  hexToBigInt s = Returns v -> nullifierIndex t !! s = None ->
  leaves t !! findLow (leaves t) v = Some p ->
  exists t', addLeaf s t = Returns (length (leaves t), t') /\
    leaves t' = <[findLow (leaves t) v := mkLeaf (value p) v (length (leaves t))]> (leaves t)
                ++ [mkLeaf v (nextValue p) (nextIdx p)] /\
    nullifierIndex t' = <[s := length (leaves t)]> (nullifierIndex t) /\
    height t' = height t.
Proof.
  intros Hv Hi Hp. unfold addLeaf. rewrite Hv. simpl. rewrite Hi, Hp.
  eexists. split; [reflexivity|].
  rewrite leaves_rebuildTree, nullifierIndex_rebuildTree, height_rebuildTree.
  simpl. auto.
Qed.

Lemma treeInv_initialize h : treeInv (initialize h) [] [].
Proof.
  unfold treeInv, initialize, initializeEmptyTree.
  rewrite leaves_rebuildTree, nullifierIndex_rebuildTree. simpl.
  split; [constructor|]. split; [reflexivity|]. split.
  - intros i li Hi. destruct i as [|i]; [|destruct i; discriminate].
    injection Hi as <-. simpl. exists (mkLeaf 0 0 0). simpl. auto.
  - intros s [x Hx]. rewrite lookup_empty in Hx. discriminate.
Qed.

Lemma lookup_after_insert (ls : list IndexedLeaf) p lp v k x j lj :
  ls !! p = Some lp -> ls !! j = Some lj ->
  exists lj', (<[p := mkLeaf (value lp) v k]> ls ++ [x]) !! j = Some lj' /\
              value lj' = value lj.
Proof.
  intros Hp Hj. pose proof (lookup_lt_Some _ _ _ Hj) as Hlt.
  rewrite lookup_app_l by (rewrite length_insert; exact Hlt).
  destruct (decide (p = j)) as [->|Hne].
  - rewrite list_lookup_insert_eq by exact Hlt. eexists; split; [reflexivity|].
    simpl. congruence.
  - rewrite list_lookup_insert_ne by exact Hne. eauto.
Qed.

Lemma treeInv_step t strs vals s v :
  treeInv t strs vals -> hexToBigInt s = Returns v -> v <> 0 -> v ∉ vals ->
  exists i t', addLeaf s t = Returns (i, t') /\ treeInv t' (strs ++ [s]) (vals ++ [v]).
Proof.
  intros (HF & Hvals & Hlink & Hidx) Hv Hv0 Hfresh.
  assert (0 < v) as Hpos by (pose proof (hexToBigInt_nonneg _ _ Hv); lia).
  assert (nullifierIndex t !! s = None) as Hnone.
  { destruct (nullifierIndex t !! s) eqn:E; [|reflexivity]. exfalso.
    assert (s ∈ strs) as Hin by (apply Hidx; eauto).
    apply list_elem_of_lookup in Hin as [k Hk].
    destruct (Forall2_lookup_l _ _ _ _ _ HF Hk) as (v' & Hk' & Hv').
    rewrite Hv in Hv'. injection Hv' as <-.
    apply Hfresh. apply list_elem_of_lookup. eauto. }
  destruct (leaves t) as [|l0 ls0] eqn:El; [discriminate|].
  assert (value l0 = 0) as Hl0 by (simpl in Hvals; congruence).
  destruct (findLow_spec (l0 :: ls0) v l0 eq_refl ltac:(lia)) as (lp & Hp & Hlpv & Hmax).
  rewrite <- El in *.
  destruct (addLeaf_fresh s v lp t Hv Hnone Hp) as (t' & Ht' & Hleaves & Hindex & _).
  exists (length (leaves t)), t'. split; [exact Ht'|].
  set (p := findLow (leaves t) v) in *.
  assert (Hnotin : forall j lj, leaves t !! j = Some lj -> value lj <> v).
  { intros j lj Hj Heq.
    assert (v ∈ map value (leaves t)) as Hin.
    { rewrite <- Heq. apply list_elem_of_fmap. exists lj. split; [reflexivity|].
      apply list_elem_of_lookup. eauto. }
    rewrite Hvals in Hin. apply elem_of_cons in Hin as [?|?]; [lia|contradiction]. }
  split; [|split; [|split]].
  - apply Forall2_app; [exact HF|]. constructor; [exact Hv|constructor].
  - rewrite Hleaves, map_app. simpl.
    change (0 :: vals ++ [v]) with ((0 :: vals) ++ [v]). rewrite <- Hvals. f_equal.
    apply list_eq. intros k. rewrite !list_lookup_fmap.
    destruct (decide (p = k)) as [<-|Hne].
    + rewrite list_lookup_insert_eq by (eapply lookup_lt_Some; exact Hp).
      rewrite Hp. reflexivity.
    + rewrite list_lookup_insert_ne by exact Hne. reflexivity.
  - rewrite Hleaves. intros i li Hi.
    assert (Hlen : length (<[p := mkLeaf (value lp) v (length (leaves t))]> (leaves t))
                   = length (leaves t)) by apply length_insert.
    destruct (decide (i < length (leaves t))%nat) as [Hlt|Hge].
    + rewrite lookup_app_l in Hi by lia.
      destruct (decide (p = i)) as [<-|Hne].
      * rewrite list_lookup_insert_eq in Hi by exact Hlt. injection Hi as <-. simpl.
        exists (mkLeaf v (nextValue lp) (nextIdx lp)). simpl.
        split; [|split; [reflexivity|right; exact Hlpv]].
        rewrite lookup_app_r by lia. rewrite Hlen, Nat.sub_diag. reflexivity.
      * rewrite list_lookup_insert_ne in Hi by exact Hne.
        destruct (Hlink i li Hi) as (lj & Hj & Hjv & Hord).
        destruct (lookup_after_insert (leaves t) p lp v (length (leaves t))
                    (mkLeaf v (nextValue lp) (nextIdx lp)) _ lj Hp Hj) as (lj' & Hj' & Hv').
        exists lj'. split; [exact Hj'|]. split; [congruence|exact Hord].
    + assert (i = length (leaves t)) as ->.
      { apply lookup_lt_Some in Hi. rewrite length_app, Hlen in Hi. simpl in Hi. lia. }
      rewrite lookup_app_r in Hi by lia. rewrite Hlen, Nat.sub_diag in Hi.
      injection Hi as <-. simpl.
      destruct (Hlink p lp Hp) as (lj & Hj & Hjv & Hord).
      destruct (lookup_after_insert (leaves t) p lp v (length (leaves t))
                  (mkLeaf v (nextValue lp) (nextIdx lp)) _ lj Hp Hj) as (lj' & Hj' & Hv').
      exists lj'. split; [exact Hj'|]. split; [congruence|].
      destruct (decide (nextValue lp = 0)) as [?|Hnz]; [left; assumption|right].
      destruct Hord as [?|Hord]; [contradiction|].
      pose proof (Hnotin _ lj Hj) as Hne.
      destruct (Z_lt_le_dec (value lj) v) as [Hlt|?]; [|lia].
      pose proof (Hmax _ lj Hj Hlt). lia.
  - intros s' Hs'. rewrite Hindex in Hs'.
    destruct (decide (s = s')) as [<-|Hne].
    + apply elem_of_app. right. apply list_elem_of_singleton. reflexivity.
    + rewrite lookup_insert_ne in Hs' by exact Hne.
      apply elem_of_app. left. apply Hidx. exact Hs'.
Qed.

Lemma treeInv_addLeaves strs vals : forall t strs0 vals0,
  treeInv t strs0 vals0 ->
  Forall2 (fun s v => hexToBigInt s = Returns v) strs vals ->
  NoDup (vals0 ++ vals) -> Forall (fun v => v <> 0) vals ->
  treeInv (addLeaves strs t) (strs0 ++ strs) (vals0 ++ vals).
Proof.
  intros t strs0 vals0 Hinv HF. revert t strs0 vals0 Hinv.
  induction HF as [|s v strs vals Hv HF IH]; intros t strs0 vals0 Hinv Hnd Hnz.
  - rewrite !app_nil_r. exact Hinv.
  - apply NoDup_app in Hnd as Hnd'. destruct Hnd' as (_ & Hdisj & _).
    destruct (treeInv_step t strs0 vals0 s v Hinv Hv) as (i & t' & Hadd & Hinv').
    { by inversion Hnz. }
    { intros Hin. apply (Hdisj v Hin). left. }
    unfold MerkleTree.addLeaves. simpl. rewrite Hadd.
    replace (strs0 ++ s :: strs) with ((strs0 ++ [s]) ++ strs) by (rewrite <- app_assoc; reflexivity).
    replace (vals0 ++ v :: vals) with ((vals0 ++ [v]) ++ vals) by (rewrite <- app_assoc; reflexivity).
    apply IH; [exact Hinv'| |by inversion Hnz].
    rewrite <- app_assoc. exact Hnd.
Qed.

Lemma linked_sortedLinks ls : linked ls -> sortedLinks ls.
Proof.
  intros H i li Hi. destruct (H i li Hi) as (lj & Hj & Hv & Hord).
  exists lj. split; [exact Hj|]. rewrite Hv. destruct Hord; [right|left]; assumption.
Qed.

(** C6. From the initial tree (head leaf only), after any run of [addLeaf]
    calls whose nullifiers parse to pairwise distinct non-zero values, every
    leaf points to an existing leaf whose value is larger or is 0 (end of
    list), the values held by the leaves are pairwise distinct, and they are
    0 followed by the inserted values in insertion order. *)
Theorem addLeaf_preserves_sorted_links (h : nat) (strs : list string) (vals : list Z) :
  Forall2 (fun s v => hexToBigInt s = Returns v) strs vals ->
  NoDup vals -> Forall (fun v => v <> 0) vals ->
  sortedLinks (leaves (addLeaves strs (initialize h))) /\
  NoDup (map value (leaves (addLeaves strs (initialize h)))) /\
  map value (leaves (addLeaves strs (initialize h))) = 0 :: vals.
Proof.
  intros HF Hnd Hnz.
  destruct (treeInv_addLeaves strs vals (initialize h) [] [] (treeInv_initialize h) HF)
    as (_ & Hvals & Hlink & _); [exact Hnd|exact Hnz|].
  split; [apply linked_sortedLinks; exact Hlink|]. split; [|exact Hvals].
  rewrite Hvals. apply NoDup_cons. split; [|exact Hnd].
  intros Hin. rewrite Forall_forall in Hnz. by apply (Hnz 0 Hin).
Qed.



Lemma addLeaf_index s t i t' :
  addLeaf s t = Returns (i, t') ->
  (exists v, hexToBigInt s = Returns v) /\ nullifierIndex t' !! s = Some i.
Proof.
  intros Hadd. unfold MerkleTree.addLeaf in Hadd.
  destruct (hexToBigInt s) as [v|] eqn:Ev; [|discriminate]. cbn [bind] in Hadd.
  split; [eauto|].
  destruct (nullifierIndex t !! s) as [idx|] eqn:Ei.
  - injection Hadd as <- <-. exact Ei.
  - destruct (leaves t !! findLow (leaves t) v); [|discriminate].
    injection Hadd as <- <-. rewrite nullifierIndex_rebuildTree. simpl.
    apply lookup_insert_eq.
Qed.

(** A call of [addLeaf] keeps every index entry. *)
Lemma addLeaf_keeps_index s' t j t' s i :
  addLeaf s' t = Returns (j, t') -> nullifierIndex t !! s = Some i ->
  nullifierIndex t' !! s = Some i.
Proof.
  intros Hadd Hi. unfold MerkleTree.addLeaf in Hadd.
  destruct (hexToBigInt s') as [v|]; [|discriminate]. cbn [bind] in Hadd.
  destruct (nullifierIndex t !! s') as [idx|] eqn:Ei.
  - injection Hadd as <- <-. exact Hi.
  - destruct (leaves t !! findLow (leaves t) v); [|discriminate].
    injection Hadd as <- <-. rewrite nullifierIndex_rebuildTree. simpl.
    rewrite lookup_insert_ne; [exact Hi|]. intros ->. congruence.
Qed.

Lemma addLeaves_keeps_index s i : forall later t,
  nullifierIndex t !! s = Some i ->
  nullifierIndex (addLeaves later t) !! s = Some i.
Proof.
  induction later as [|s' later IH]; intros t Hi; [exact Hi|].
  change (addLeaves (s' :: later) t)
    with (addLeaves later match addLeaf s' t with
                          | Returns (_, t') => t'
                          | Throws _ => t
                          end).
  apply IH. destruct (addLeaf s' t) as [[j t']|] eqn:Hadd; [|exact Hi].
  exact (addLeaf_keeps_index s' t j t' s i Hadd Hi).
Qed.

(** C5, as amended. Once [addLeaf] has returned index [i] for a nullifier
    string, then in that tree state and in every state reached from it by
    further [addLeaf] calls, calling [addLeaf] with that string returns [i]
    again, without an error, and leaves the tree as it is. The rejection of
    the duplicate is the business of the route [POST /nullifiers/register],
    which answers 409 and leaves the registry as it is. *)
Theorem addLeaf_again_returns_index (s : string) (t t' : IndexedMerkleTree) (i : nat)
    (later : list string) (now : Z) (dom pseud : string) (ts : option Z)
    (recs : gmap string NullifierRoutes.NullifierRecord) :
  addLeaf s t = Returns (i, t') ->
  addLeaf s (addLeaves later t') = Returns (i, addLeaves later t') /\
  (s <> ""%string -> dom <> ""%string -> pseud <> ""%string ->
   NullifierRoutes.register poseidonHash2 poseidonHash3 now
     (NullifierRoutes.mkBody s dom pseud ts)
     (NullifierRoutes.mkRegistry (addLeaves later t') recs)
   = Returns (NullifierRoutes.Status409,
              NullifierRoutes.mkRegistry (addLeaves later t') recs)).
Proof.
  intros Hadd. destruct (addLeaf_index s t i t' Hadd) as [[v Hv] Hi].
  pose proof (addLeaves_keeps_index s i later t' Hi) as Hi'. split.
  - apply (addLeaf_present s v i _ Hv Hi').
  - intros Hs Hd Hp. unfold NullifierRoutes.register. cbn.
    rewrite bool_decide_false by (intros [?|[?|?]]; contradiction).
    unfold hasNullifier. rewrite Hi'.
    rewrite bool_decide_true by eauto. reflexivity.
Qed.

End WithPoseidon.
End MerkleFacts.

(** ** Merkle paths of the tree *)

Module MerklePath.
Import JS JSFacts MerkleTree MerkleFacts.

(** Hex strings written by [bigIntToHex] are read back by [hexToBigInt]. *)
Lemma hexToBigInt_bigIntToHex v : 0 <= v -> hexToBigInt (bigIntToHex v) = Returns v.
Proof.
  intros Hv. unfold bigIntToHex.
  destruct (padded_hex_digits v Hv) as (ds & Hds & Hok & Hval & Hlen & _).
  rewrite Hds. unfold hexToBigInt.
  destruct ds as [|d0 [|d1 ds]]; [simpl in Hlen; lia|simpl in Hlen; lia|].
  inversion Hok as [|? ? Hd0 Hok']; subst. inversion Hok' as [|? ? Hd1 Hok'']; subst.
  assert (Hx : digitChar d1 <> "x"%char).
  { intros E. apply (f_equal (digitValue 16)) in E.
    rewrite digitValue_digitChar in E by lia. discriminate. }
  rewrite bool_decide_false.
  2:{ rewrite !stringOfDigits_cons. intros [E|[E|E]]; [discriminate|discriminate|].
      injection E as _ E _. contradiction. }
  assert (startsWith "0x" (stringOfDigits (d0 :: d1 :: ds)) = false) as ->.
  { rewrite !stringOfDigits_cons. cbn [startsWith].
    assert (Ascii.eqb "x" (digitChar d1) = false) as ->.
    { apply Ascii.eqb_neq. intros E. symmetry in E. contradiction. }
    apply andb_false_r. }
  rewrite length_stringOfDigits.
  replace (length (d0 :: d1 :: ds) =? 0)%nat with false by reflexivity.
  rewrite BigInt_0x_stringOfDigits by (discriminate || assumption).
  reflexivity.
Qed.




Section WithPoseidon.
Variable poseidonHash2 : Z -> Z -> Z.
Variable poseidonHash3 : Z -> Z -> Z -> Z.
Hypothesis hash2_nonneg : forall a b, 0 <= poseidonHash2 a b.
Hypothesis hash3_nonneg : forall a b c, 0 <= poseidonHash3 a b c.

Local Abbreviation pairUp := (pairUp poseidonHash2).
Local Abbreviation nextLevelOf := (nextLevelOf poseidonHash2).
Local Abbreviation buildLevels := (buildLevels poseidonHash2).
Local Abbreviation foldPath := (foldPath poseidonHash2).

Lemma pairUp_lookup e : forall j l x,
  l !! (2 * j)%nat = Some x ->
  pairUp e l !! j = Some (poseidonHash2 x (default e (l !! (2 * j + 1)%nat))).
Proof.
  induction j as [|j IH]; intros l x Hx.
  - destruct l as [|a [|b l]]; [discriminate| |]; simpl in *; congruence.
  - destruct l as [|a [|b l]]; [discriminate|discriminate|].
    replace (2 * S j)%nat with (S (S (2 * j))) in * by lia.
    replace (2 * S j + 1)%nat with (S (S (2 * j + 1))) by lia.
    exact (IH l x Hx).
Qed.

Lemma nextLevelOf_lookup e j l x :
  l !! (2 * j)%nat = Some x ->
  nextLevelOf e l !! j = Some (poseidonHash2 x (default e (l !! (2 * j + 1)%nat))).
Proof.
  intros Hx. unfold MerkleTree.nextLevelOf.
  pose proof (pairUp_lookup e j l x Hx) as H.
  destruct (pairUp e l) eqn:E; [discriminate|]. exact H.
Qed.

Lemma nonnegs_pairUp e l : nonnegs (pairUp e l).
Proof.
  revert l. fix IH 1. intros l. destruct l as [|a [|b l]]; simpl.
  - constructor.
  - constructor; [apply hash2_nonneg|constructor].
  - constructor; [apply hash2_nonneg|apply IH].
Qed.

Lemma nonnegs_nextLevelOf e l : nonnegs (nextLevelOf e l).
Proof.
  unfold MerkleTree.nextLevelOf. pose proof (nonnegs_pairUp e l) as H.
  destruct (pairUp e l); [|exact H].
  constructor; [apply hash2_nonneg|constructor].
Qed.

Lemma length_buildLevels E : forall n level cur,
  length (buildLevels E level n cur) = n.
Proof. induction n as [|n IH]; intros level cur; simpl; [reflexivity|]. by rewrite IH. Qed.

(** Each row of the tree is the next level of the row below it. *)
Lemma buildLevels_chain E : forall n level cur k,
  (k < n)%nat ->
  nth k (buildLevels E level n cur) []
  = nextLevelOf (nth (level + k) E 0) (nth k (cur :: buildLevels E level n cur) []).
Proof.
  induction n as [|n IH]; intros level cur k Hk; [lia|].
  destruct k as [|k].
  - simpl. rewrite Nat.add_0_r. reflexivity.
  - cbn [MerkleTree.buildLevels nth]. rewrite (IH (S level) _ k) by lia.
    replace (S level + k)%nat with (level + S k)%nat by lia. reflexivity.
Qed.

Lemma nonnegs_buildLevels E : forall n level cur k,
  nonnegs cur -> nonnegs (nth k (cur :: buildLevels E level n cur) []).
Proof.
  induction n as [|n IH]; intros level cur k Hcur.
  - destruct k as [|[|k]]; simpl; [exact Hcur|constructor|constructor].
  - destruct k as [|k]; [exact Hcur|].
    cbn [MerkleTree.buildLevels nth]. apply (IH (S level) _ k).
    apply nonnegs_nextLevelOf.
Qed.

Lemma nonnegs_lookup (l : list Z) i x : nonnegs l -> l !! i = Some x -> 0 <= x.
Proof.
  intros H Hi. unfold nonnegs in H. rewrite Forall_forall in H. apply H.
  apply list_elem_of_lookup. eauto.
Qed.

(** Folding a node up [n] levels along the siblings and path indices the
    tree returns for its index reaches the node above it [n] rows higher. *)
Lemma foldPath_rows (t : IndexedMerkleTree) : forall n level idx x,
  (forall k, (k < n)%nat ->
     nth (level + k + 1) (tree t) []
     = nextLevelOf (nth (level + k) (emptySubtreeHashes t) 0)
         (nth (level + k) (tree t) [])) ->
  (forall k, nonnegs (nth k (tree t) [])) ->
  nonnegs (emptySubtreeHashes t) ->
  nth level (tree t) [] !! idx = Some x ->
  exists y,
    foldPath (siblingsFrom t level n idx) (pathIndicesFrom n idx) x = Returns y /\
    nth (level + n) (tree t) [] !! (idx / 2 ^ n)%nat = Some y.
Proof.
  induction n as [|n IH]; intros level idx x Hchain Hrows HE Hx.
  - exists x. split; [reflexivity|].
    rewrite Nat.add_0_r. change (2 ^ 0)%nat with 1%nat. rewrite Nat.div_1_r. exact Hx.
  - set (cur := nth level (tree t) []) in *.
    set (e := nth level (emptySubtreeHashes t) 0).
    assert (He : 0 <= e).
    { unfold e. destruct (nth_in_or_default level (emptySubtreeHashes t) 0) as [Hin| ->]; [|lia].
      unfold nonnegs in HE. rewrite Forall_forall in HE. apply HE.
      apply list_elem_of_In. exact Hin. }
    pose proof (Hchain 0%nat ltac:(lia)) as Hnext.
    rewrite !Nat.add_0_r in Hnext. fold cur e in Hnext.
    pose proof (Nat.div_mod_eq idx 2) as Hdm.
    assert (Hsib : forall o : option Z, (forall v, o = Some v -> 0 <= v) ->
              hexToBigInt (bigIntToHex (default e o)) = Returns (default e o)).
    { intros o Ho. apply hexToBigInt_bigIntToHex. destruct o as [v|]; simpl; [auto|exact He]. }
    assert (Hcurnn : forall j v, cur !! j = Some v -> 0 <= v).
    { intros j v Hj. eapply nonnegs_lookup; [apply (Hrows level)|exact Hj]. }
    assert (exists x', nth (level + 1) (tree t) [] !! (idx / 2)%nat = Some x' /\
              foldPath (siblingsFrom t level (S n) idx) (pathIndicesFrom (S n) idx) x
              = foldPath (siblingsFrom t (S level) n (idx / 2)%nat)
                  (pathIndicesFrom n (idx / 2)%nat) x') as (x' & Hx' & Hstep).
    { cbn [MerkleTree.siblingsFrom MerkleTree.pathIndicesFrom MerkleTree.foldPath].
      fold cur e. destruct (Nat.even idx) eqn:Eev.
      - apply Nat.even_spec in Eev. destruct Eev as [j Hj].
        assert (idx mod 2 = 0)%nat as Hm by (subst idx; rewrite Nat.mul_comm; apply Nat.Div0.mod_mul).
        assert (idx / 2 = j)%nat as Hd by lia.
        rewrite Hsib by (intros v Hv; eapply Hcurnn; exact Hv). cbn [bind head tail].
        rewrite Hm, bool_decide_true by reflexivity.
        eexists. split; [|reflexivity].
        rewrite Hnext, Hd. subst idx.
        rewrite (nextLevelOf_lookup e j cur x Hx). reflexivity.
      - assert (Nat.odd idx = true) as Hodd by (rewrite <- Nat.negb_even, Eev; reflexivity).
        apply Nat.odd_spec in Hodd. destruct Hodd as [j Hj].
        assert (idx mod 2 = 1)%nat as Hm.
        { subst idx. rewrite Nat.add_comm, Nat.mul_comm, Nat.Div0.mod_add. reflexivity. }
        assert (idx / 2 = j)%nat as Hd by lia.
        assert (exists a, cur !! (2 * j)%nat = Some a) as [a Ha].
        { apply lookup_lt_is_Some. apply lookup_lt_Some in Hx. lia. }
        replace (idx - 1)%nat with (2 * j)%nat by lia. rewrite Ha.
        rewrite (Hsib (Some a)) by (intros v Hv; injection Hv as <-; eapply Hcurnn; exact Ha).
        cbn [bind head tail default]. rewrite Hm, bool_decide_false by discriminate.
        eexists. split; [|reflexivity].
        rewrite Hnext, Hd. rewrite (nextLevelOf_lookup e j cur a Ha).
        replace (2 * j + 1)%nat with idx by lia. rewrite Hx. reflexivity. }
    rewrite Hstep.
    destruct (IH (S level) (idx / 2)%nat x') as (y & Hy & Hlook).
    + intros k Hk. replace (S level + k + 1)%nat with (level + S k + 1)%nat by lia.
      replace (S level + k)%nat with (level + S k)%nat by lia. apply Hchain. lia.
    + exact Hrows.
    + exact HE.
    + replace (S level) with (level + 1)%nat by lia. exact Hx'.
    + exists y. split; [exact Hy|].
      replace (level + S n)%nat with (S level + n)%nat by lia.
      replace (idx / 2 ^ S n)%nat with (idx / 2 / 2 ^ n)%nat; [exact Hlook|].
      rewrite Nat.Div0.div_div. reflexivity.
Qed.

Local Abbreviation rebuildTree := (rebuildTree poseidonHash2 poseidonHash3).
Local Abbreviation addLeaf := (addLeaf poseidonHash2 poseidonHash3).
Local Abbreviation addLeaves := (addLeaves poseidonHash2 poseidonHash3).
Local Abbreviation initialize := (initialize poseidonHash2 poseidonHash3).
Local Abbreviation leafHash := (leafHash poseidonHash3).

Lemma nonnegs_emptyHashesFrom n : forall cur, nonnegs (emptyHashesFrom poseidonHash2 cur n).
Proof.
  induction n as [|n IH]; intros cur; simpl; [constructor|].
  constructor; [apply hash2_nonneg|apply IH].
Qed.

Local Abbreviation rebuilt := (rebuilt poseidonHash2 poseidonHash3).

Lemma rebuilt_rebuildTree t0 :
  emptySubtreeHashes t0 = [] \/ nonnegs (emptySubtreeHashes t0) -> rebuilt (rebuildTree t0).
Proof.
  intros H. unfold rebuilt, MerkleTree.rebuildTree, computeEmptySubtreeHashes.
  destruct (emptySubtreeHashes t0) as [|e0 es] eqn:E; simpl.
  - split; [reflexivity|]. constructor; [apply hash3_nonneg|apply nonnegs_emptyHashesFrom].
  - split; [rewrite E; reflexivity|]. rewrite E. destruct H as [H|H]; [discriminate|exact H].
Qed.

Lemma rebuilt_initialize h : rebuilt (initialize h) /\ height (initialize h) = h.
Proof.
  split; [apply rebuilt_rebuildTree; left; reflexivity|].
  unfold MerkleTree.initialize, initializeEmptyTree. rewrite height_rebuildTree. reflexivity.
Qed.

Lemma rebuilt_addLeaf s t i t' :
  rebuilt t -> addLeaf s t = Returns (i, t') ->
  rebuilt t' /\ height t' = height t.
Proof.
  intros [Hrows HE] Hadd. unfold MerkleTree.addLeaf in Hadd.
  destruct (hexToBigInt s) as [v|]; [|discriminate]. cbn [bind] in Hadd.
  destruct (nullifierIndex t !! s).
  - injection Hadd as <- <-. split; [split; assumption|reflexivity].
  - destruct (leaves t !! findLow (leaves t) v); [|discriminate].
    injection Hadd as <- <-. split.
    + apply rebuilt_rebuildTree. right. exact HE.
    + rewrite height_rebuildTree. reflexivity.
Qed.

Lemma rebuilt_addLeaves strs : forall t,
  rebuilt t -> rebuilt (addLeaves strs t) /\ height (addLeaves strs t) = height t.
Proof.
  induction strs as [|s strs IH]; intros t Ht; [split; [exact Ht|reflexivity]|].
  unfold MerkleTree.addLeaves. cbn [foldl].
  destruct (addLeaf s t) as [[i t']|] eqn:E.
  - destruct (rebuilt_addLeaf s t i t' Ht E) as [Ht' Hh].
    destruct (IH t' Ht') as [H1 H2]. split; [exact H1|]. rewrite <- Hh. exact H2.
  - apply IH. exact Ht.
Qed.



End WithPoseidon.
End MerklePath.

(** ** The tree on concrete inputs *)

Module MerkleExamples.
Import JS MerkleTree MerkleFacts MerklePath Toy.



(** Witness of [addLeaf_preserves_sorted_links]: 5, 3 and 9 inserted in that
    order. *)
Lemma addLeaf_preserves_sorted_links_witness :
  let t := addLeaves toyHash2 toyHash3 ["05"; "03"; "09"]%string
             (initialize toyHash2 toyHash3 3) in
  sortedLinks (leaves t) /\ NoDup (map value (leaves t)) /\
  map value (leaves t) = [0; 5; 3; 9].
Proof.
  apply (addLeaf_preserves_sorted_links toyHash2 toyHash3 3
           ["05"; "03"; "09"]%string [5; 3; 9]).
  - repeat constructor.
  - apply (bool_decide_unpack _). vm_compute. exact I.
  - repeat constructor; lia.
Defined.

(** C5, counterexample. The nullifier [05] is in the tree, and inserting it
    again returns its index 1 instead of failing. *)
Lemma addLeaf_duplicate_returns :
  hasNullifier toyTree "05" = true /\
  addLeaf toyHash2 toyHash3 "05" toyTree = Returns (1%nat, toyTree).
Proof. split; vm_compute; reflexivity. Qed.

(** Witness of [addLeaf_again_returns_index]: [05] is inserted, then [03];
    inserting [05] again returns its index 1. *)
Lemma addLeaf_again_returns_index_witness :
  addLeaf toyHash2 toyHash3 "05" (addLeaves toyHash2 toyHash3 ["03"%string] toyTree)
  = Returns (1%nat, addLeaves toyHash2 toyHash3 ["03"%string] toyTree) /\
  (NullifierRoutes.register toyHash2 toyHash3 1000
     (NullifierRoutes.mkBody "05" "example.com" "ab" None)
     (NullifierRoutes.mkRegistry (addLeaves toyHash2 toyHash3 ["03"%string] toyTree) ∅)
   = Returns (NullifierRoutes.Status409,
              NullifierRoutes.mkRegistry
                (addLeaves toyHash2 toyHash3 ["03"%string] toyTree) ∅)).
Proof.
  destruct (addLeaf_again_returns_index toyHash2 toyHash3 "05"
              (initialize toyHash2 toyHash3 2) toyTree 1 ["03"%string] 1000
              "example.com" "ab" None ∅)
    as [H1 H2].
  - vm_compute. reflexivity.
  - split; [exact H1|]. apply H2; discriminate.
Defined.



End MerkleExamples.
(** ** Field and byte utilities *)

Module CryptoFacts.
Import JS JSFacts Crypto.

Lemma FIELD_MODULUS_bounds : 0 < FIELD_MODULUS < 2 ^ 256.
Proof. unfold FIELD_MODULUS. split; reflexivity. Qed.

(** The 32 bytes of a scalar below 2^256, read back. *)
Lemma scalarToBytes_spec n :
  0 <= n < 2 ^ 256 ->
  length (scalarToBytes n) = 32%nat /\
  BigInt_0x (bufferToHex (scalarToBytes n)) = Returns n.
Proof.
  intros [Hn Hlt]. unfold scalarToBytes.
  destruct (padded_hex_digits n Hn) as (ds & Hds & Hok & Hval & _ & Hlen).
  specialize (Hlen Hlt). rewrite Hds, bufferFromHex_stringOfDigits by exact Hok.
  assert (Nat.Even (length ds)) as Hev by (exists 32%nat; lia).
  pose proof (length_bytesOfNibbles ds Hev) as Hl.
  split; [lia|].
  rewrite BigInt_0x_bufferToHex.
  - rewrite nibbles_bytesOfNibbles by assumption. congruence.
  - intros E. rewrite E in Hl. simpl in Hl. lia.
Qed.

Lemma bytesToScalar_scalarToBytes n :
  0 <= n < FIELD_MODULUS -> bytesToScalar (scalarToBytes n) = Returns n.
Proof.
  intros H. pose proof FIELD_MODULUS_bounds.
  unfold bytesToScalar. destruct (scalarToBytes_spec n ltac:(lia)) as [_ ->].
  simpl. rewrite Z.rem_small by lia. reflexivity.
Qed.

Lemma bytesToScalar_range bs n :
  bytesToScalar bs = Returns n -> 0 <= n < FIELD_MODULUS.
Proof.
  unfold bytesToScalar. destruct (BigInt_0x _) as [z|] eqn:E; [|discriminate].
  simpl. intros H. injection H as <-. apply BigInt_0x_nonneg in E.
  pose proof FIELD_MODULUS_bounds.
  rewrite Z.rem_mod_nonneg by lia. apply Z.mod_pos_bound. lia.
Qed.

Lemma constantTimeEqual_refl a : constantTimeEqual a a = true.
Proof.
  unfold constantTimeEqual. rewrite Nat.eqb_refl. simpl.
  assert (forall l : list byte,
            foldl (fun result '(x, y) => Z.lor result (Z.lxor (byteToZ x) (byteToZ y)))
                  0 (zip l l) = 0) as H.
  { induction l as [|x l IH]; [reflexivity|]. simpl. rewrite Z.lxor_nilpotent. exact IH. }
  rewrite H. reflexivity.
Qed.


End CryptoFacts.
(** ** The commitment protocol *)

Module CommitmentFacts.
Import JS JSFacts Crypto CryptoFacts PublicParams Commitment.

Section WithCurve.
Context {g1 : G1Ops} {M : G1Model g1} {laws : G1Laws g1 M} {sha : Sha256}.

Lemma scalarMul_mod x P : scalarMul (x mod FIELD_MODULUS) P = scalarMul x P.
Proof.
  pose proof FIELD_MODULUS_bounds.
  rewrite (Z.div_mod x FIELD_MODULUS) at 2 by lia.
  rewrite scalarMul_add, scalarMul_mul, scalarMul_order.
  rewrite add_comm, add_zero. reflexivity.
Qed.

Lemma addMod_mulMod_inRange r c x :
  0 <= r -> 0 <= c -> 0 <= x ->
  0 <= addMod r (mulMod c x) < FIELD_MODULUS /\
  addMod r (mulMod c x) = (r + c * x) mod FIELD_MODULUS.
Proof.
  intros Hr Hc Hx. pose proof FIELD_MODULUS_bounds.
  unfold addMod, mulMod.
  rewrite (Z.rem_mod_nonneg (c * x)) by nia.
  assert (0 <= (c * x) mod FIELD_MODULUS) by (apply Z.mod_pos_bound; lia).
  rewrite Z.rem_mod_nonneg by lia.
  rewrite Zplus_mod_idemp_r. split; [apply Z.mod_pos_bound; lia|reflexivity].
Qed.

(** A response, used as a scalar, acts as [r + c x]. *)
Lemma scalarMul_response r c x P :
  0 <= r -> 0 <= c -> 0 <= x ->
  scalarMul (addMod r (mulMod c x)) P
  = pointAdd (scalarMul r P) (scalarMul c (scalarMul x P)).
Proof.
  intros Hr Hc Hx.
  destruct (addMod_mulMod_inRange r c x Hr Hc Hx) as [_ ->].
  rewrite scalarMul_mod, scalarMul_add, scalarMul_mul. reflexivity.
Qed.

Lemma add_shuffle (a b c d : G1Point) :
  pointAdd (pointAdd a b) (pointAdd c d) = pointAdd (pointAdd a c) (pointAdd b d).
Proof.
  rewrite <- !add_assoc. f_equal. rewrite !add_assoc. f_equal. apply add_comm.
Qed.

Lemma add_cancel (a b : G1Point) : pointAdd (pointAdd a b) (pointNegate b) = a.
Proof. rewrite <- add_assoc, add_negate, add_zero. reflexivity. Qed.

(** The loop returns the linear combination when every scalar is in range
    and the generators cover the indices. *)
Lemma accumulate_linear gens xs : forall i X,
  Forall inRange xs -> (i + length xs <= length gens)%nat ->
  accumulate gens i xs X = Returns (linear gens i xs X).
Proof.
  induction xs as [|x xs IH]; intros i X Hr Hlen; [reflexivity|].
  inversion Hr as [|? ? Hx Hxs]; subst. simpl in Hlen. simpl.
  destruct (gens !! i) as [H|] eqn:E.
  2:{ apply lookup_ge_None in E. lia. }
  unfold multiply. rewrite multiply_inRange by exact Hx. simpl.
  apply IH; [exact Hxs|lia].
Qed.

(** Linearity of the responses: with [s_k = r_k + c x_k], the combination of
    the responses is the combination of the nonces plus [c] times the
    combination of the secrets. *)
Lemma linear_responses gens c xs : forall (f : nat -> Z) i X Y,
  0 <= c -> Forall (fun x => 0 <= x) xs ->
  (forall k, (k < length xs)%nat -> 0 <= f k) ->
  (i + length xs <= length gens)%nat ->
  linear gens i (imap (fun k x => addMod (f k) (mulMod c x)) xs)
         (pointAdd X (scalarMul c Y))
  = pointAdd (linear gens i (map f (seq 0 (length xs))) X)
             (scalarMul c (linear gens i xs Y)).
Proof.
  induction xs as [|x xs IH]; intros f i X Y Hc Hxs Hf Hlen; [reflexivity|].
  inversion Hxs as [|? ? Hx Hxs']; subst. simpl in Hlen.
  cbn [imap length seq map linear].
  destruct (gens !! i) as [H|] eqn:E.
  2:{ apply lookup_ge_None in E. lia. }
  rewrite scalarMul_response by (try assumption; apply Hf; simpl; lia).
  rewrite add_shuffle, <- scalarMul_distr.
  rewrite <- seq_shift, map_map.
  rewrite <- (IH (fun k => f (S k)) (S i)); try assumption; try lia.
  - reflexivity.
  - intros k Hk. apply Hf. simpl. lia.
Qed.

Lemma bytesToScalar_total bs :
  bs <> [] -> exists c, bytesToScalar bs = Returns c /\ 0 <= c < FIELD_MODULUS.
Proof.
  intros Hne. unfold bytesToScalar. rewrite BigInt_0x_bufferToHex by exact Hne.
  simpl. eexists. split; [reflexivity|].
  eapply bytesToScalar_range. unfold bytesToScalar.
  rewrite BigInt_0x_bufferToHex by exact Hne. reflexivity.
Qed.

Lemma responses_shape (a : Z) (mid : list Z) (b : Z) :
  nth 0 ([a] ++ mid ++ [b]) 0 = a /\
  take (length mid) (drop 1 ([a] ++ mid ++ [b])) = mid /\
  List.last ([a] ++ mid ++ [b]) 0 = b /\
  length ([a] ++ mid ++ [b]) = (1 + length mid + 1)%nat.
Proof.
  split; [reflexivity|]. split; [|split].
  - change (drop 1 ([a] ++ mid ++ [b])) with (mid ++ [b]).
    apply take_app_length.
  - change ([a] ++ mid ++ [b]) with ((a :: mid) ++ [b]). apply last_last.
  - simpl. rewrite length_app. simpl. lia.
Qed.

(** X24. The Schnorr round trip on the scalars the curve library
    multiplies by. The curve is a group in which every point has order
    dividing q, point multiplication returns the multiple for scalars in
    [1, q), and an encoded point decodes to itself; digests are not empty.
    With loaded parameters holding as many attribute generators as
    [maxAttributes], at most [maxAttributes] attributes, and the master
    secret, the attributes, the blinding factor and the sampled blinding
    scalars all in [1, q): [createCommitment] keeps the blinding factor
    given and [generateProof] returns, and [verifyProof] accepts the proof
    they return whenever none of its responses and not its challenge is 0
    (a scalar 0 makes point multiplication throw). *)
Theorem schnorr_round_trip (p : PublicParameters) (gens : Generators)
    (ms : Z) (attrs : list Z) (r fresh : Z) (rnd : ProofRandomness) (ctx : list byte) :
  (forall msg, sha256 msg <> []) ->
  length (parsedAttributeGenerators gens) = maxAttributes p ->
  (length attrs <= maxAttributes p)%nat ->
  inRange ms -> Forall inRange attrs -> inRange r ->
  inRange (rnd_ms rnd) ->
  (forall i, (i < length attrs)%nat -> inRange (rnd_attr rnd i)) ->
  inRange (rnd_blind rnd) ->
  let m := mkManager (Some p) (Some gens) in
  (exists cd proof,
     createCommitment m ms attrs (Some r) fresh = Returns cd /\
     blindingFactor cd = r /\
     generateProof m rnd ms attrs r (commitment cd) ctx = Returns proof) /\
  (forall cd proof,
     createCommitment m ms attrs (Some r) fresh = Returns cd ->
     generateProof m rnd ms attrs r (commitment cd) ctx = Returns proof ->
     Forall (fun s => s <> 0) (zk_responses proof) ->
     bytesToScalar (zk_challenge proof) <> Returns 0 ->
     verifyProof m proof ctx (length attrs) = true).
Proof.
  intros Hsha Hgens Hn Hms Hattrs Hr Hrms Hrattrs Hrblind m.
  pose proof FIELD_MODULUS_bounds as Hq.
  set (Hs := parsedAttributeGenerators gens) in *.
  set (rs := map (rnd_attr rnd) (seq 0 (length attrs))).
  assert (Hrs : Forall inRange rs).
  { apply Forall_forall. intros x Hx. apply list_elem_of_fmap in Hx as (k & -> & Hk).
    apply elem_of_seq in Hk. apply Hrattrs. lia. }
  assert (Hlrs : length rs = length attrs).
  { unfold rs. rewrite length_map, length_seq. reflexivity. }
  (* createCommitment *)
  set (C0 := pointAdd (linear Hs 0 attrs (scalarMul ms (G gens)))
                      (scalarMul r (parsedBlindingGenerator gens))).
  assert (Hcc : createCommitment m ms attrs (Some r) fresh
                = Returns (mkCommitmentData (serialize C0) r)).
  { unfold createCommitment, m, getGenerators, getMaxAttributes. cbn [bind params parsedGenerators].
    destruct (maxAttributes p <? length attrs)%nat eqn:E; [apply Nat.ltb_lt in E; lia|].
    destruct (r =? 0) eqn:E0; [apply Z.eqb_eq in E0; unfold inRange in Hr; lia|].
    unfold multiply. rewrite !multiply_inRange by assumption. cbn [bind].
    fold Hs. rewrite accumulate_linear by (assumption || lia). cbn [bind].
    reflexivity. }
  (* generateProof *)
  set (T0 := pointAdd (linear Hs 0 rs (scalarMul (rnd_ms rnd) (G gens)))
                      (scalarMul (rnd_blind rnd) (parsedBlindingGenerator gens))).
  destruct (bytesToScalar_total
              (sha256 (utf8 "BBS_COMMITMENT_CHALLENGE_V1" ++ serialize C0 ++ serialize T0
                         ++ ctx ++ rnd_nonce rnd)) (Hsha _)) as (c & Hc & Hcr).
  set (s_ms := addMod (rnd_ms rnd) (mulMod c ms)).
  set (s_attrs := imap (fun i attr => addMod (rnd_attr rnd i) (mulMod c attr)) attrs).
  set (s_blind := addMod (rnd_blind rnd) (mulMod c r)).
  set (proof := mkZKProof (serialize C0) (serialize T0) (scalarToBytes c)
                  ([s_ms] ++ s_attrs ++ [s_blind]) (rnd_nonce rnd)).
  assert (Hgp : generateProof m rnd ms attrs r (serialize C0) ctx = Returns proof).
  { unfold generateProof, m, getGenerators. cbn [bind parsedGenerators].
    unfold multiply. rewrite !multiply_inRange by assumption. cbn [bind].
    fold Hs rs. rewrite accumulate_linear by (assumption || lia). cbn [bind].
    unfold add. fold T0. unfold computeChallenge. rewrite Hc. cbn [bind].
    unfold proof. do 2 f_equal. f_equal. f_equal.
    apply imap_ext. intros i x Hix. simpl. f_equal.
    unfold rs. apply lookup_lt_Some in Hix.
    rewrite (nth_indep _ 0 (rnd_attr rnd 0%nat)) by (rewrite length_map, length_seq; lia).
    rewrite map_nth, seq_nth by lia. reflexivity. }
  split.
  { exists (mkCommitmentData (serialize C0) r), proof.
    split; [exact Hcc|]. split; [reflexivity|exact Hgp]. }
  intros cd proof' Hcd Hproof' Hnz Hcnz.
  rewrite Hcc in Hcd. injection Hcd as <-. cbn [commitment] in Hproof'.
  rewrite Hgp in Hproof'. injection Hproof' as <-.
  cbn [zk_responses zk_challenge proof] in Hnz, Hcnz.
  rewrite bytesToScalar_scalarToBytes in Hcnz by exact Hcr.
  assert (Hcin : inRange c) by (unfold inRange; split; [|lia];
    destruct (decide (c = 0)) as [->|]; [contradiction|lia]).
  assert (Hnonneg : forall x, inRange x -> 0 <= x) by (unfold inRange; lia).
  assert (Hresp : forall a x, inRange a -> inRange x -> addMod a (mulMod c x) <> 0 ->
                              inRange (addMod a (mulMod c x))).
  { intros a x Ha Hx Hne.
    destruct (addMod_mulMod_inRange a c x) as [? _]; try (apply Hnonneg; assumption).
    unfold inRange. lia. }
  assert (Hs_ms : inRange s_ms).
  { apply Hresp; try assumption. by inversion Hnz. }
  assert (Hs_attrs : Forall inRange s_attrs).
  { apply Forall_forall. intros s Hs_in.
    assert (s <> 0) as Hs0.
    { rewrite Forall_forall in Hnz. apply Hnz. simpl. right.
      apply elem_of_app. left. exact Hs_in. }
    apply list_elem_of_lookup in Hs_in as [k Hk].
    unfold s_attrs in Hk. rewrite list_lookup_imap in Hk.
    destruct (attrs !! k) as [x|] eqn:Ex; [|discriminate]. simpl in Hk.
    injection Hk as <-. apply Hresp; try assumption.
    - apply Hrattrs. eapply lookup_lt_Some. exact Ex.
    - rewrite Forall_forall in Hattrs. apply Hattrs.
      apply list_elem_of_lookup. eauto. }
  assert (Hs_blind : inRange s_blind).
  { apply Hresp; try assumption. rewrite Forall_forall in Hnz. apply Hnz.
    simpl. right. apply elem_of_app. right. left. }
  assert (Hls : length s_attrs = length attrs) by (unfold s_attrs; apply length_imap).
  destruct (responses_shape s_ms s_attrs s_blind) as (Hnth & Htake & Hlast & Hlen).
  rewrite Hls in Htake, Hlen.
  unfold verifyProof, m, getGenerators. cbn [bind parsedGenerators].
  cbn [proof zk_responses zk_challenge zk_commitment zk_nonce].
  rewrite Hlen, Nat.eqb_refl. cbn [negb].
  rewrite Hnth, Htake, Hlast.
  rewrite bytesToScalar_scalarToBytes by exact Hcr. cbn [bind].
  unfold multiply, deserialize, serialize, add, negate.
  rewrite !multiply_inRange by assumption. cbn [bind].
  fold Hs. rewrite accumulate_linear by (assumption || lia). cbn [bind].
  rewrite fromBytes_toBytes. cbn [bind].
  rewrite multiply_inRange by assumption. cbn [bind].
  assert (HT : pointAdd
                 (pointAdd (linear Hs 0 s_attrs (scalarMul s_ms (G gens)))
                    (scalarMul s_blind (parsedBlindingGenerator gens)))
                 (pointNegate (scalarMul c C0)) = T0).
  { unfold s_ms, s_blind, s_attrs.
    rewrite !scalarMul_response by (try lia; apply Hnonneg; assumption).
    rewrite linear_responses; try lia.
    - fold rs. rewrite add_shuffle, <- scalarMul_distr. fold T0 C0. apply add_cancel.
    - eapply Forall_impl; [exact Hattrs|]. intros x Hx. apply Hnonneg. exact Hx.
    - intros k Hk. apply Hnonneg. apply Hrattrs. exact Hk. }
  rewrite HT. unfold computeChallenge. unfold serialize in Hc. rewrite Hc. cbn [bind catch].
  apply constantTimeEqual_refl.
Qed.

End WithCurve.
End CommitmentFacts.
(** ** The small instance satisfies the interface laws *)

Module ToyFacts.
Import JS JSFacts Crypto CryptoFacts PublicParams Commitment Toy.

Lemma inField_spec z : inField z = true <-> 0 <= z < FIELD_MODULUS.
Proof. unfold inField. rewrite andb_true_iff, Z.leb_le, Z.ltb_lt. reflexivity. Qed.

Lemma rep_range (P : Zq) : 0 <= rep P < FIELD_MODULUS.
Proof. apply inField_spec. exact (proj2_sig P). Qed.

Lemma Zq_eq (P Q : Zq) : rep P = rep Q -> P = Q.
Proof. intros H. apply (sig_eq_pi _ P Q). exact H. Qed.

Lemma rep_zq z : rep (zq z) = z mod FIELD_MODULUS.
Proof.
  unfold zq. destruct (Sumbool.sumbool_of_bool _) as [H|H]; [reflexivity|].
  exfalso. pose proof FIELD_MODULUS_bounds.
  assert (inField (z mod FIELD_MODULUS) = true) as E.
  { apply inField_spec. apply Z.mod_pos_bound. lia. }
  congruence.
Qed.

Lemma zq_rep (P : Zq) : zq (rep P) = P.
Proof.
  apply Zq_eq. rewrite rep_zq. apply Z.mod_small. apply rep_range.
Qed.

Lemma toy_laws : G1Laws toyG1 toyModel.
Proof.
  pose proof FIELD_MODULUS_bounds as Hq.
  constructor; simpl.
  - intros a b c. apply Zq_eq. rewrite !rep_zq.
    rewrite Zplus_mod_idemp_r, Zplus_mod_idemp_l. f_equal. lia.
  - intros a b. f_equal. lia.
  - intros a. apply Zq_eq. rewrite !rep_zq. rewrite Zplus_mod_idemp_r.
    rewrite Z.add_0_r. apply Z.mod_small. apply rep_range.
  - intros a. apply Zq_eq. rewrite !rep_zq. rewrite Zplus_mod_idemp_r.
    f_equal. lia.
  - intros x y P. apply Zq_eq. rewrite !rep_zq.
    rewrite <- Zplus_mod. f_equal. lia.
  - intros x y P. apply Zq_eq. rewrite !rep_zq.
    rewrite Zmult_mod_idemp_r. f_equal. lia.
  - intros x P Q. apply Zq_eq. rewrite !rep_zq.
    rewrite Zmult_mod_idemp_r, <- Zplus_mod. f_equal. lia.
  - intros P. apply Zq_eq. rewrite !rep_zq. rewrite Z.mul_comm, Z_mod_mult.
    reflexivity.
  - intros P s [H1 H2]. unfold toyMultiply.
    replace ((1 <=? s) && (s <? FIELD_MODULUS)) with true; [reflexivity|].
    symmetry. apply andb_true_iff. split; [apply Z.leb_le|apply Z.ltb_lt]; lia.
  - intros P. unfold toyFromBytes. pose proof (rep_range P) as Hr.
    destruct (scalarToBytes_spec (rep P) ltac:(lia)) as [Hlen ->].
    cbn [bind]. rewrite Hlen.
    replace (inField (rep P)) with true by (symmetry; apply inField_spec; exact Hr).
    simpl. rewrite zq_rep. reflexivity.
Qed.

Lemma toySha_nonempty msg : toySha msg <> [].
Proof.
  unfold toySha. intros E.
  destruct (scalarToBytes_spec
              (foldl (fun acc b => 31 * acc + byteToZ b + 1) 7 msg mod 2 ^ 256)) as [Hl _].
  { apply Z.mod_pos_bound. lia. }
  rewrite E in Hl. discriminate.
Qed.


(** Witness of [schnorr_round_trip]: master secret 5, attributes 6 and 7,
    blinding factor 9. *)
Lemma schnorr_round_trip_witness :
  verifyProof toyManager (toyProof (toyCommitmentData (Some 9) 0) 9) toyContext 2 = true.
Proof.
  refine (proj2 (CommitmentFacts.schnorr_round_trip (laws := toy_laws)
                   toyParams toyGenerators 5 [6; 7] 9 0 toyRandomness toyContext
                   toySha_nonempty _ _ _ _ _ _ _ _)
                (toyCommitmentData (Some 9) 0)
                (toyProof (toyCommitmentData (Some 9) 0) 9) _ _ _ _).
  - reflexivity.
  - simpl. lia.
  - unfold inRange, FIELD_MODULUS. lia.
  - unfold inRange, FIELD_MODULUS. repeat constructor; lia.
  - unfold inRange, FIELD_MODULUS. lia.
  - unfold inRange, FIELD_MODULUS. simpl. lia.
  - unfold inRange, FIELD_MODULUS. simpl. intros i Hi. lia.
  - unfold inRange, FIELD_MODULUS. simpl. lia.
  - vm_compute. reflexivity.
  - vm_compute. reflexivity.
  - vm_compute. repeat constructor; discriminate.
  - vm_compute. discriminate.
Defined.

(** C1. The round trip fails at the blinding factor 0. Given the blinding
    factor 0, [createCommitment] does not use it: it commits to a freshly
    sampled one (here 9) and returns that, as if none had been given; the
    proof [generateProof] returns for the blinding factor 0 and that
    commitment is rejected by [verifyProof]. *)
Theorem zero_blinding_factor_rejected :
  createCommitment toyManager 5 [6; 7] (Some 0) 9
  = Returns (toyCommitmentData (Some 0) 9) /\
  blindingFactor (toyCommitmentData (Some 0) 9) = 9 /\
  createCommitment toyManager 5 [6; 7] (Some 0) 9
  = createCommitment toyManager 5 [6; 7] None 9 /\
  generateProof toyManager toyRandomness 5 [6; 7] 0
    (commitment (toyCommitmentData (Some 0) 9)) toyContext
  = Returns (toyProof (toyCommitmentData (Some 0) 9) 0) /\
  verifyProof toyManager (toyProof (toyCommitmentData (Some 0) 9) 0) toyContext 2
  = false.
Proof. vm_compute. repeat split; reflexivity. Qed.

(** In this instance, as with the curve library, a zero master secret or a
    zero attribute makes [createCommitment] throw. *)
Lemma zero_scalars_throw :
  createCommitment toyManager 0 [6; 7] (Some 9) 0 = Throws RangeError /\
  createCommitment toyManager 5 [6; 0] (Some 9) 0 = Throws RangeError.
Proof. split; vm_compute; reflexivity. Qed.

End ToyFacts.

(** ** Public parameters *)

Module PublicParamsFacts.
Import JS Crypto PublicParams.

Section WithCurve.
Context {g1 : G1Ops}.

Lemma deserializeAll_returns hexes :
  (exists u, deserializeAll hexes = Returns u) <-> Forall deserializes hexes.
Proof.
  induction hexes as [|h rest IH]; simpl.
  - split; [constructor|eauto].
  - destruct (deserialize (hexToBytes h)) as [P|e] eqn:E; simpl.
    + rewrite IH. split.
      * intros H. constructor; [exists P; exact E|exact H].
      * intros H. by inversion H.
    + split.
      * intros [u Hu]. discriminate.
      * intros H. inversion H as [|? ? [P HP] _]; subst. congruence.
Qed.

(** C8, as amended. [verifyParameters] returns true exactly when the base
    generator deserializes, the number of attribute generators equals
    [maxAttributes], every attribute generator deserializes and the blinding
    generator deserializes. Whether the generators are distinct plays no
    part. *)
Theorem verifyParameters_iff (p : PublicParameters) :
  verifyParameters p = true <->
  deserializes (generatorG p) /\
  length (attributeGenerators p) = maxAttributes p /\
  Forall deserializes (attributeGenerators p) /\
  deserializes (blindingGenerator p).
Proof.
  unfold verifyParameters.
  destruct (deserialize (hexToBytes (generatorG p))) as [g|e] eqn:Eg; simpl.
  2:{ split; [discriminate|]. intros ([P HP] & _). congruence. }
  destruct (length (attributeGenerators p) =? maxAttributes p)%nat eqn:En; simpl.
  2:{ apply Nat.eqb_neq in En. split; [discriminate|]. intros (_ & H & _). contradiction. }
  apply Nat.eqb_eq in En.
  destruct (deserializeAll (attributeGenerators p)) as [u|e] eqn:Ea; simpl.
  2:{ split; [discriminate|]. intros (_ & _ & H & _).
      apply deserializeAll_returns in H as [u Hu]. congruence. }
  assert (Forall deserializes (attributeGenerators p)) as Hall
    by (apply deserializeAll_returns; eauto).
  destruct (deserialize (hexToBytes (blindingGenerator p))) as [hr|e] eqn:Er; simpl.
  - split; [|reflexivity]. intros _.
    split; [exists g; exact Eg|]. split; [exact En|]. split; [exact Hall|].
    exists hr. exact Er.
  - split; [discriminate|]. intros (_ & _ & _ & [P HP]). congruence.
Qed.

End WithCurve.

(** C8, counterexample. Parameters whose four generators are one and the
    same point pass [verifyParameters]. *)
Lemma verifyParameters_accepts_repeated_generators :
  verifyParameters (g1 := Toy.toyG1) Toy.repeatedParams = true /\
  ~ NoDup (generatorG Toy.repeatedParams
             :: attributeGenerators Toy.repeatedParams
                ++ [blindingGenerator Toy.repeatedParams]).
Proof.
  split; [vm_compute; reflexivity|].
  intros H. apply NoDup_cons in H as [H _]. apply H. vm_compute. left.
Qed.

End PublicParamsFacts.

(** ** Poseidon absorption of byte buffers *)

Module PoseidonFacts.
Import JS JSFacts Crypto CryptoFacts PoseidonHash.

Lemma digitsValue_nonneg radix ds : forall acc,
  0 <= radix -> 0 <= acc -> digitsOk radix ds -> 0 <= digitsValue radix acc ds.
Proof.
  induction ds as [|d ds IH]; intros acc Hr Hacc Hok; [exact Hacc|].
  inversion Hok as [|? ? Hd Hds]; subst. unfold digitsValue in *. simpl.
  apply IH; [exact Hr| |exact Hds]. nia.
Qed.

Lemma bigEndian_nonneg bs : 0 <= bigEndian bs.
Proof.
  unfold bigEndian. apply digitsValue_nonneg; [lia|lia|apply digitsOk_nibbles].
Qed.

Lemma chunkValue_range chunk : 0 <= chunkValue chunk < FIELD_MODULUS.
Proof.
  unfold chunkValue. pose proof FIELD_MODULUS_bounds. pose proof (bigEndian_nonneg (padTo32 chunk)).
  rewrite Z.rem_mod_nonneg by lia. apply Z.mod_pos_bound. lia.
Qed.

Lemma bytesToScalar_padTo32 chunk :
  bytesToScalar (padTo32 chunk) = Returns (chunkValue chunk).
Proof.
  unfold bytesToScalar. rewrite BigInt_0x_bufferToHex; [reflexivity|].
  unfold padTo32. intros E. apply (f_equal length) in E.
  rewrite length_app, length_replicate in E. simpl in E. lia.
Qed.

Lemma sliceBytes_chunk i (data : list byte) :
  (i < length data)%nat ->
  sliceBytes i (Nat.min (i + 31) (length data)) data = take 31 (drop i data).
Proof.
  intros Hi. unfold sliceBytes.
  destruct (decide (i + 31 <= length data)%nat) as [Hle|Hgt].
  - rewrite Nat.min_l by lia. f_equal. lia.
  - rewrite Nat.min_r by lia.
    rewrite !take_ge; [reflexivity| |]; rewrite length_drop; lia.
Qed.

(** The loop of [hashBytes] and the chunking run in step. *)
Lemma chunkLoop_chunks : forall fuel data i acc,
  chunkLoop fuel data i acc
  = Returns (acc ++ map chunkValue (chunksFuel fuel (drop i data))).
Proof.
  induction fuel as [|fuel IH]; intros data i acc; simpl.
  - rewrite app_nil_r. reflexivity.
  - destruct (i <? length data)%nat eqn:E.
    + apply Nat.ltb_lt in E. rewrite sliceBytes_chunk by exact E.
      rewrite bytesToScalar_padTo32. cbn [bind]. rewrite IH.
      destruct (drop i data) as [|b rest] eqn:Ed.
      { apply (f_equal length) in Ed. rewrite length_drop in Ed. simpl in Ed. lia. }
      rewrite <- Ed. rewrite <- app_assoc. simpl.
      rewrite drop_drop. replace (i + 31)%nat with (i + 31)%nat by lia. reflexivity.
    + apply Nat.ltb_ge in E. rewrite drop_ge by exact E. simpl.
      rewrite app_nil_r. reflexivity.
Qed.

Lemma chunksFuel_concat : forall fuel (data : list byte),
  (length data <= fuel)%nat ->
  concat (chunksFuel fuel data) = data /\
  Forall (fun c => (1 <= length c <= 31)%nat) (chunksFuel fuel data).
Proof.
  induction fuel as [|fuel IH]; intros data Hlen.
  - destruct data; [split; [reflexivity|constructor]|simpl in Hlen; lia].
  - destruct data as [|b rest] eqn:Ed; [split; [reflexivity|constructor]|].
    rewrite <- Ed in *. assert (1 <= length data)%nat by (subst; simpl; lia).
    replace (chunksFuel (S fuel) data)
      with (take 31 data :: chunksFuel fuel (drop 31 data)) by (subst; reflexivity).
    destruct (IH (drop 31 data)) as [Hc Hf]; [rewrite length_drop; lia|].
    split.
    + simpl. rewrite Hc. apply take_drop.
    + constructor; [|exact Hf]. rewrite length_take. lia.
Qed.

Section WithPoseidon.
Context {P : Poseidon}.

(** What [hashBytes] computes: the input is cut into consecutive chunks of
    at most 31 bytes, each chunk is padded with zero bytes to 32 bytes, read
    big-endian and reduced modulo the scalar modulus, and the whole list of
    chunk values is hashed with one call of Poseidon; the empty input hashes
    to 0 without any call. *)
Lemma hashBytes_single_call (data : list byte) :
  hashBytes data = hashMany (map chunkValue (chunks31 data)) /\
  concat (chunks31 data) = data /\
  Forall (fun c => (1 <= length c <= 31)%nat) (chunks31 data) /\
  Forall (fun v => 0 <= v < FIELD_MODULUS) (map chunkValue (chunks31 data)) /\
  hashBytes [] = Returns 0.
Proof.
  unfold hashBytes, chunks31.
  destruct (chunksFuel_concat (S (length data)) data ltac:(lia)) as [Hc Hf].
  split; [rewrite chunkLoop_chunks; reflexivity|].
  split; [exact Hc|]. split; [exact Hf|]. split; [|reflexivity].
  apply Forall_forall. intros v Hv. apply list_elem_of_fmap in Hv as (c & -> & _).
  apply chunkValue_range.
Qed.

(** Whatever Poseidon is, the empty input separates the code from the fold
    of the specification as soon as [hash2(0, 0)] is not 0. *)
Lemma hashBytes_empty_differs :
  hash2 0 0 <> Returns 0 -> hashBytes [] <> specAbsorb (map bigEndian (chunks31 [])).
Proof. intros H E. apply H. symmetry. exact E. Qed.

End WithPoseidon.

(** C7. [hashBytes] is not the fold of 31-byte chunks. On the empty input
    it returns 0 where the fold has [hash2(0, 0)], and on the one-byte input
    [01] it hashes one value with a single Poseidon call where the fold has
    [hash2(chunk, 0)]; that value is not the chunk's value 1 but 2^248, the
    chunk followed by 31 zero bytes, and a chunk of 31 bytes [ff] is read as
    a 32-byte number above the modulus and reduced. The script's
    [PoseidonWrapper.hashString] computes the fold on the same inputs, so
    the two hash the string ["a"] differently. *)
Theorem hashBytes_is_not_a_fold :
  hashBytes (P := Scenarios.toyPoseidon) [] = Returns 0 /\
  specAbsorb (P := Scenarios.toyPoseidon) (map bigEndian (chunks31 [])) <> Returns 0 /\
  hashBytes (P := Scenarios.toyPoseidon) [x01]
  <> specAbsorb (P := Scenarios.toyPoseidon) (map bigEndian (chunks31 [x01])) /\
  bigEndian [x01] = 1 /\ chunkValue [x01] = 2 ^ 248 /\
  FIELD_MODULUS <= bigEndian (padTo32 (replicate 31 xff)) /\
  chunkValue (replicate 31 xff) <> bigEndian (replicate 31 xff) /\
  Script.wrapperHashString (P := Scenarios.toyPoseidon) ""
  = specAbsorb (P := Scenarios.toyPoseidon) (map bigEndian (chunks31 (utf8 ""))) /\
  Script.wrapperHashString (P := Scenarios.toyPoseidon) "a"
  = specAbsorb (P := Scenarios.toyPoseidon) (map bigEndian (chunks31 (utf8 "a"))) /\
  hashString (P := Scenarios.toyPoseidon) "a"
  <> Script.wrapperHashString (P := Scenarios.toyPoseidon) "a".
Proof.
  vm_compute. repeat split; try reflexivity; intros H; discriminate.
Qed.

End PoseidonFacts.

(** ** Challenge issuance *)

Module ChallengeFacts.
Import JS JSFacts AuthTypes ChallengeManager.

Lemma length_bufferToHex bs : String.length (bufferToHex bs) = (2 * length bs)%nat.
Proof. rewrite bufferToHex_nibbles, length_stringOfDigits. apply length_nibbles. Qed.

Lemma challenge_modulus_bounds : 0 < FIELD_MODULUS < 2 ^ 256.
Proof. unfold FIELD_MODULUS. split; reflexivity. Qed.

(** C9, as amended. A challenge is issued whenever a registry root is at
    hand. Its identifier is ["ch_"], the clock reading taken when the
    identifier is made, in base 36, an underscore, and the 16 hexadecimal
    characters of 8 random bytes. Its value is the 64-character hexadecimal
    rendering of the 32 random bytes reduced modulo the scalar modulus. It is
    created at the later clock reading of step 4 and expires 300000 ms
    after that; it is stored under its identifier. *)
Theorem generateChallenge_postcondition (w : World) (store : gmap string AuthChallenge)
    (dom root : string) :
  length (w_random8 w) = 8%nat -> length (w_random32 w) = 32%nat ->
  getRegistryRoot w = Some root ->
  exists c v,
    generateChallenge w store dom = Returns (c, <[challengeId c := c]> store) /\
    challengeId c
    = ("ch_" ++ toString 36 (w_nowId w) ++ "_" ++ bufferToHex (w_random8 w))%string /\
    String.length (bufferToHex (w_random8 w)) = 16%nat /\
    isHexString (bufferToHex (w_random8 w)) = true /\
    v = digitsValue 16 0 (nibbles (w_random32 w)) mod FIELD_MODULUS /\
    0 <= v < FIELD_MODULUS /\
    challenge c = padStart 64 "0" (toString 16 v) /\
    String.length (challenge c) = 64%nat /\
    BigInt_0x (challenge c) = Returns v /\
    domain c = dom /\ registryRoot c = root /\
    createdAt c = w_nowCreated w /\
    expiresAt c = createdAt c + 300000.
Proof.
  intros H8 H32 Hroot. pose proof challenge_modulus_bounds as Hq.
  set (n := digitsValue 16 0 (nibbles (w_random32 w))).
  assert (Hn : BigInt_0x (bufferToHex (w_random32 w)) = Returns n).
  { apply BigInt_0x_bufferToHex. intros E. rewrite E in H32. discriminate. }
  assert (0 <= n) as Hn0 by (eapply BigInt_0x_nonneg; exact Hn).
  set (v := n mod FIELD_MODULUS).
  assert (Hv : 0 <= v < FIELD_MODULUS) by (apply Z.mod_pos_bound; lia).
  destruct (padded_hex_digits v ltac:(lia)) as (ds & Hds & Hok & Hval & _ & Hlen).
  specialize (Hlen ltac:(lia)).
  exists (mkChallenge (generateChallengeId w) (padStart 64 "0" (toString 16 v)) dom root
            CIRCUIT_ID (w_nowCreated w) (w_nowCreated w + CHALLENGE_TTL_MS)), v.
  split.
  { unfold generateChallenge. rewrite Hn. cbn [bind]. rewrite Hroot.
    rewrite Z.rem_mod_nonneg by lia. fold v. reflexivity. }
  cbn [challengeId challenge domain registryRoot createdAt expiresAt].
  split; [reflexivity|]. split; [rewrite length_bufferToHex, H8; reflexivity|].
  split.
  { rewrite bufferToHex_nibbles. unfold isHexString.
    destruct (nibbles (w_random8 w)) as [|d ds'] eqn:E.
    { apply (f_equal length) in E. rewrite length_nibbles, H8 in E. discriminate. }
    rewrite <- E. pose proof (digitsOk_nibbles (w_random8 w)) as Hnib.
    replace (match stringOfDigits (nibbles (w_random8 w)) with
             | EmptyString => false
             | _ => forallb (fun c => bool_decide (is_Some (digitValue 16 c)))
                      (list_ascii_of_string (stringOfDigits (nibbles (w_random8 w))))
             end)
      with (forallb (fun c => bool_decide (is_Some (digitValue 16 c)))
              (list_ascii_of_string (stringOfDigits (nibbles (w_random8 w)))))
      by (rewrite E; reflexivity).
    unfold stringOfDigits. rewrite list_ascii_of_string_of_list_ascii.
    apply forallb_forall. intros c Hc. apply in_map_iff in Hc as (d0 & <- & Hd0).
    apply bool_decide_eq_true. unfold digitsOk in Hnib. rewrite Forall_forall in Hnib.
    rewrite digitValue_digitChar; [eauto|lia|]. apply Hnib. apply list_elem_of_In. exact Hd0. }
  split; [reflexivity|]. split; [exact Hv|]. split; [reflexivity|].
  split; [rewrite Hds, length_stringOfDigits; exact Hlen|].
  split.
  { rewrite Hds. rewrite BigInt_0x_stringOfDigits; [congruence| |exact Hok].
    intros E. rewrite E in Hlen. discriminate. }
  split; [reflexivity|]. split; [reflexivity|]. split; reflexivity.
Qed.

(** Witness of [generateChallenge_postcondition]. *)
Lemma generateChallenge_postcondition_witness :
  exists c v,
    generateChallenge Scenarios.challengeWorld ∅ "example.com"
    = Returns (c, <[challengeId c := c]> ∅) /\
    challengeId c = "ch_rs_0102030405060708"%string /\
    0 <= v < FIELD_MODULUS /\
    String.length (challenge c) = 64%nat /\
    BigInt_0x (challenge c) = Returns v /\
    expiresAt c = createdAt c + 300000.
Proof.
  destruct (generateChallenge_postcondition Scenarios.challengeWorld ∅ "example.com"
              (repeatChar "a" 64))
    as (c & v & H1 & H2 & _ & _ & _ & H6 & _ & H8 & H9 & _ & _ & _ & H13);
    [reflexivity|reflexivity|reflexivity|].
  exists c, v. repeat split; try assumption; try lia.
Defined.

(** C9, counterexample. For the challenge issued at clock reading 1000
    (identifier) and 2000 (creation) with random bytes 01..08, the identifier
    is [ch_rs_0102030405060708]: its random part has 16 characters, and its
    time part is not the creation time. *)
Lemma challengeId_has_sixteen_hex_characters :
  let c := Scenarios.issuedChallenge in
  generateChallenge Scenarios.challengeWorld ∅ "example.com"
  = Returns (c, <[challengeId c := c]> ∅) /\
  ~ (exists random, String.length random = 8%nat /\
       challengeId c = ("ch_" ++ toString 36 (createdAt c) ++ "_" ++ random)%string) /\
  ~ (exists random, String.length random = 8%nat /\
       challengeId c
       = ("ch_" ++ toString 36 (w_nowId Scenarios.challengeWorld) ++ "_" ++ random)%string).
Proof.
  cbv zeta. split; [vm_compute; reflexivity|]. split.
  - intros (random & _ & H). vm_compute in H. discriminate.
  - intros (random & Hlen & H). vm_compute in H.
    injection H as H. subst random. discriminate.
Qed.

End ChallengeFacts.

(** ** Hybrid verification *)

Module VerifierFacts.
Import JS JSFacts AuthTypes HybridVerifier.

Section WithGroth16.
Variable VerificationKey : Type.
Variable groth16_verify :
  VerificationKey -> list string -> SnarkProof -> completion bool.

Local Abbreviation verifySnarkProof := (verifySnarkProof VerificationKey groth16_verify).
Local Abbreviation verify := (verify VerificationKey groth16_verify).
Local Abbreviation proofChecks := (proofChecks VerificationKey groth16_verify).

(** Whatever the Groth16 verifier answers, the outcome is at least the
    structural check on proofs of the demo shape. *)
Lemma verifySnarkProof_structural (v : Verifier VerificationKey) (hp : HybridAuthProof) :
  validateSnarkStructure (snarkProof hp) = true ->
  isDemoModeProof (snarkProof hp) = true ->
  performStructuralVerification (snarkProof hp) (publicInputs hp) = true ->
  verifySnarkProof v hp = true.
Proof.
  intros Hs Hd Hp. unfold HybridVerifier.verifySnarkProof. rewrite Hs. cbn [negb].
  destruct (circuitReady _ v); [|exact Hp].
  destruct (verificationKey _ v) as [vk|]; [|exact Hp].
  repeat match goal with
         | |- context [bind (hexToDecimal ?x) _] =>
             destruct (hexToDecimal x); cbn [bind catch]; [|exact Hp]
         end.
  destruct (groth16_verify _ _ _) as [[|]|]; cbn [bind catch negb andb].
  - reflexivity.
  - rewrite Hd. exact Hp.
  - exact Hp.
Qed.

(** C10, as amended. A proof that passes the structure gate
    [validateSnarkStructure] ([pi_a] and [pi_c] with at least two entries,
    [pi_b] not empty), has [pi_a[0] = pi_a[1]] or [pi_c[0] = pi_c[1]], has
    some [pi_a] entry other than ["0"], ["1"] and the empty string, and
    comes with hexadecimal pseudonym and nullifier inputs is accepted by
    [verifySnarkProof] whatever the Groth16 verifier answers on it, in
    particular when a verification key is loaded and Groth16 verification
    of the proof returns false. *)
Theorem demo_shaped_proof_accepted (v : Verifier VerificationKey) (hp : HybridAuthProof) :
  validateSnarkStructure (snarkProof hp) = true ->
  ((exists a rest, pi_a (snarkProof hp) = a :: a :: rest) \/
   (exists c rest, pi_c (snarkProof hp) = c :: c :: rest)) ->
  (exists x, x ∈ pi_a (snarkProof hp) /\
             x <> "0"%string /\ x <> ""%string /\ x <> "1"%string) ->
  isHexString (pub_pseudonym (publicInputs hp)) = true ->
  isHexString (pub_nullifier (publicInputs hp)) = true ->
  verifySnarkProof v hp = true /\
  (forall vk signals,
     groth16_verify vk signals (snarkProof hp) = Returns false ->
     verifySnarkProof (mkVerifier _ (Some vk) true) hp = true).
Proof.
  intros Hs Hshape (x & Hx & Hx0 & Hxe & Hx1) Hps Hnf.
  assert (Hd : isDemoModeProof (snarkProof hp) = true).
  { unfold isDemoModeProof, firstTwoEqual.
    destruct Hshape as [(a & rest & ->)|(c & rest & ->)].
    - rewrite bool_decide_true by reflexivity. reflexivity.
    - rewrite (bool_decide_true (c = c)) by reflexivity.
      repeat match goal with |- context [if ?b then _ else _] => destruct b end;
        reflexivity. }
  assert (Hp : performStructuralVerification (snarkProof hp) (publicInputs hp) = true).
  { unfold performStructuralVerification.
    assert (existsb (fun v0 => negb (bool_decide (v0 = "0"%string))
                               && negb (bool_decide (v0 = ""%string))
                               && negb (bool_decide (v0 = "1"%string)))
              (pi_a (snarkProof hp)) = true) as ->.
    { apply existsb_exists. exists x. split; [apply list_elem_of_In; exact Hx|].
      rewrite !bool_decide_false by assumption. reflexivity. }
    rewrite Hps, Hnf. reflexivity. }
  split; [apply verifySnarkProof_structural; assumption|].
  intros vk signals _. apply verifySnarkProof_structural; assumption.
Qed.

Lemma unavailable_root (r : Registry) claimed :
  unavailable (rootFetch r) -> verifyRegistryRoot r claimed = true.
Proof.
  unfold verifyRegistryRoot. destruct (rootFetch r) as [| |[data|]]; simpl; try reflexivity.
  contradiction.
Qed.

Lemma unavailable_check (r : Registry) nullifier :
  unavailable (checkFetch r) -> checkNullifierFresh r nullifier = true.
Proof.
  unfold checkNullifierFresh. destruct (checkFetch r) as [| |[data|]]; simpl; try reflexivity.
  contradiction.
Qed.

(** The verdict of [verify] is the conjunction of its five checks. *)
Lemma verify_valid (v : Verifier VerificationKey) (r : Registry) (pkg : HybridAuthPackage) :
  valid (verify v r pkg)
  = proofChecks v (hybridProof pkg)
    && verifyRegistryRoot r (pkg_registryRoot pkg)
    && checkNullifierFresh r (pkg_nullifier pkg).
Proof.
  unfold HybridVerifier.verify, HybridVerifier.proofChecks.
  destruct (HybridVerifier.verifySnarkProof _ _ v (hybridProof pkg)); [|reflexivity].
  cbn [negb andb].
  destruct (match bbsProof (hybridProof pkg) with
            | Some b => verifyBBSProof b
            | None => true
            end); [|reflexivity].
  cbn [negb andb].
  destruct (verifyBinding (hybridProof pkg)) as [[|]|]; cbn [catch negb andb];
    [|reflexivity|reflexivity].
  destruct (verifyRegistryRoot r (pkg_registryRoot pkg)); [|reflexivity].
  destruct (checkNullifierFresh r (pkg_nullifier pkg)); reflexivity.
Qed.

(** C3, as amended. A registry that cannot be reached does not stop
    verification: when the root cannot be fetched the root check passes, and
    when the nullifier query cannot be answered the nullifier counts as
    fresh; with both unavailable [verify] returns [valid = true] exactly when
    the SNARK, BBS+ and binding checks pass. A registry that answers that the
    nullifier is used still makes the verdict false. *)
Theorem registry_unavailable_is_accepted (v : Verifier VerificationKey) (r : Registry)
    (pkg : HybridAuthPackage) :
  (unavailable (rootFetch r) -> verifyRegistryRoot r (pkg_registryRoot pkg) = true) /\
  (unavailable (checkFetch r) -> checkNullifierFresh r (pkg_nullifier pkg) = true) /\
  (unavailable (rootFetch r) -> unavailable (checkFetch r) ->
   valid (verify v r pkg) = proofChecks v (hybridProof pkg)) /\
  (checkFetch r = HttpOk (Some (mkCheckResponse true)) -> valid (verify v r pkg) = false).
Proof.
  split; [apply unavailable_root|]. split; [apply unavailable_check|]. split.
  - intros H1 H2. rewrite verify_valid, unavailable_root, unavailable_check by assumption.
    rewrite !andb_true_r. reflexivity.
  - intros H. rewrite verify_valid. unfold checkNullifierFresh. rewrite H. simpl.
    apply andb_false_r.
Qed.

End WithGroth16.

(** Witness of [demo_shaped_proof_accepted]: a key is loaded and Groth16
    verification rejects the proof. *)
Lemma demo_shaped_proof_accepted_witness :
  Scenarios.rejectAll tt [] (snarkProof (hybridProof (Scenarios.packageWith Scenarios.demoProof)))
  = Returns false /\
  HybridVerifier.verifySnarkProof unit Scenarios.rejectAll Scenarios.loadedVerifier
    (hybridProof (Scenarios.packageWith Scenarios.demoProof)) = true.
Proof.
  split; [reflexivity|].
  apply (demo_shaped_proof_accepted unit Scenarios.rejectAll Scenarios.loadedVerifier
           (hybridProof (Scenarios.packageWith Scenarios.demoProof))).
  - reflexivity.
  - left. exists "5"%string, ["1"%string]. reflexivity.
  - exists "5"%string. split; [left|]. repeat split; discriminate.
  - reflexivity.
  - reflexivity.
Defined.

(** C10, counterexample. Two proofs of the shape the claim names, with
    hexadecimal pseudonym and nullifier inputs, that Groth16 verification
    rejects and [verifySnarkProof] rejects too: the first has
    [pi_a[0] = pi_a[1]] and an empty [pi_b], the second [pi_c[0] = pi_c[1]]
    and a single [pi_a] entry; both stop at the structure gate. *)
Lemma demo_shape_stops_at_structure_gate :
  (exists a rest, pi_a DemoShapes.withoutPiB = a :: a :: rest) /\
  (exists c rest, pi_c DemoShapes.shortPiA = c :: c :: rest) /\
  (forall p, p = DemoShapes.withoutPiB \/ p = DemoShapes.shortPiA ->
     (exists x, x ∈ pi_a p /\ x <> "0"%string /\ x <> ""%string /\ x <> "1"%string) /\
     isHexString (pub_pseudonym (publicInputs (hybridProof (Scenarios.packageWith p))))
     = true /\
     isHexString (pub_nullifier (publicInputs (hybridProof (Scenarios.packageWith p))))
     = true /\
     (forall signals, Scenarios.rejectAll tt signals p = Returns false) /\
     HybridVerifier.verifySnarkProof unit Scenarios.rejectAll Scenarios.loadedVerifier
       (hybridProof (Scenarios.packageWith p)) = false).
Proof.
  split; [exists "5"%string, ["1"%string]; reflexivity|].
  split; [exists "5"%string, ["1"%string]; reflexivity|].
  intros p [-> | ->].
  - split; [exists "5"%string; split; [left|repeat split; discriminate]|].
    repeat split; vm_compute; reflexivity.
  - split; [exists "5"%string; split; [left|repeat split; discriminate]|].
    repeat split; vm_compute; reflexivity.
Qed.

(** Witness of [registry_unavailable_is_accepted]. *)
Lemma registry_unavailable_is_accepted_witness :
  valid (HybridVerifier.verify unit Scenarios.acceptAll Scenarios.loadedVerifier
           Scenarios.registryDown (Scenarios.packageWith Scenarios.someProof))
  = HybridVerifier.proofChecks unit Scenarios.acceptAll Scenarios.loadedVerifier
      (hybridProof (Scenarios.packageWith Scenarios.someProof)).
Proof.
  apply (registry_unavailable_is_accepted unit Scenarios.acceptAll Scenarios.loadedVerifier
           Scenarios.registryDown (Scenarios.packageWith Scenarios.someProof)).
  - exact I.
  - exact I.
Defined.

(** C3, counterexample. The registry cannot be reached for either query, and
    [verify] returns [valid = true] for a package whose proof the Groth16
    verifier accepts. *)
Lemma registry_down_verdict_valid :
  rootFetch Scenarios.registryDown = NetworkFailure /\
  checkFetch Scenarios.registryDown = NetworkFailure /\
  valid (HybridVerifier.verify unit Scenarios.acceptAll Scenarios.loadedVerifier
           Scenarios.registryDown (Scenarios.packageWith Scenarios.someProof)) = true.
Proof. repeat split; vm_compute; reflexivity. Qed.

End VerifierFacts.

(** ** Session-nonce sampling *)

Module GeneratorFacts.
Import JS JSFacts Crypto PoseidonHash AuthTypes.

Section WithPoseidon.
Context {P : Poseidon}.

(** The loop of the script stops early only on a sample that fits. *)
Lemma sampleLoop_fits domain draws : forall todo attempts last n l,
  Script.sampleLoop domain draws todo attempts last = Returns (n, l) ->
  (n <= attempts + todo)%nat /\
  ((n < attempts + todo)%nat ->
   exists s, l = Some s /\
     Script.fitsIn252Bits (Script.s_pseudonymRaw s) = true /\
     Script.fitsIn252Bits (Script.s_nullifierRaw s) = true).
Proof.
  induction todo as [|todo IH]; intros attempts last n l H.
  - simpl in H. injection H as <- <-. split; [lia|]. intros; lia.
  - cbn [Script.sampleLoop] in H.
    destruct (Script.wrapperHashString domain) as [dh|]; [|discriminate].
    cbn [bind] in H.
    destruct (Script.wrapperHashString _) as [ch|]; [|discriminate].
    cbn [bind] in H.
    destruct (hash3 _ _ dh) as [ps|]; [|discriminate]. cbn [bind] in H.
    destruct (hash3 ch _ dh) as [nf|]; [|discriminate]. cbn [bind] in H.
    destruct (Script.fitsIn252Bits ps && Script.fitsIn252Bits nf) eqn:E.
    + injection H as <- <-. split; [lia|]. intros _.
      apply andb_true_iff in E as [E1 E2]. eexists. split; [reflexivity|]. simpl. auto.
    + apply IH in H as [H1 H2]. split; [lia|]. intros Hn. apply H2. lia.
Qed.

(** The script hands on only pseudonyms and nullifiers below 2^252. *)
Lemma script_samples_fit domain draws s :
  Script.sampleSecrets domain draws = Returns s ->
  Script.s_pseudonymRaw s < 2 ^ 252 /\ Script.s_nullifierRaw s < 2 ^ 252.
Proof.
  unfold Script.sampleSecrets. intros H.
  destruct (Script.sampleLoop domain draws Script.MAX_ATTEMPTS 0 None) as [[n l]|] eqn:E;
    [|discriminate].
  cbn [bind] in H. destruct (Script.MAX_ATTEMPTS <=? n)%nat eqn:En; [discriminate|].
  apply Nat.leb_gt in En. apply sampleLoop_fits in E as [_ E].
  destruct (E ltac:(simpl; lia)) as (s' & -> & H1 & H2). injection H as <-.
  unfold Script.fitsIn252Bits, Script.MAX_252_BIT in *. split; apply Z.ltb_lt; assumption.
Qed.

(** [generateHybridProof] draws the session nonce once and publishes the
    pseudonym and nullifier derived from it, whatever their size. *)
Lemma generateHybridProof_single_sample (w : HybridProofGenerator.World)
    (holderDid : string) (credential : HybridProofGenerator.StoredCredential)
    (ch : AuthChallenge) (revealed : list nat) (pkg : HybridAuthPackage) :
  HybridProofGenerator.generateHybridProof w holderDid credential ch revealed = Returns pkg ->
  exists sessionNonce masterSecret domainHash credentialIdHash pseudonymRaw nullifierRaw,
    randomScalar (HybridProofGenerator.w_randomBytes w) = Returns sessionNonce /\
    HybridProofGenerator.w_getMasterSecret w holderDid = Returns masterSecret /\
    hashString (domain ch) = Returns domainHash /\
    hashString (HybridProofGenerator.cred_id credential) = Returns credentialIdHash /\
    hash3 masterSecret sessionNonce domainHash = Returns pseudonymRaw /\
    hash3 credentialIdHash sessionNonce domainHash = Returns nullifierRaw /\
    pub_pseudonym (publicInputs (hybridProof pkg)) = toHex pseudonymRaw /\
    pub_nullifier (publicInputs (hybridProof pkg)) = toHex nullifierRaw.
Proof.
  unfold HybridProofGenerator.generateHybridProof. intros H.
  destruct (randomScalar _) as [nonce|]; [|discriminate]. cbn [bind] in H.
  destruct (HybridProofGenerator.w_getMasterSecret w holderDid) as [ms|]; [|discriminate].
  cbn [bind] in H.
  destruct (BigInt_0x _) as [bf|]; [|discriminate]. cbn [bind] in H.
  destruct (hashString (domain ch)) as [dh|]; [|discriminate]. cbn [bind] in H.
  destruct (hash3 ms nonce dh) as [ps|] eqn:Eps; [|discriminate]. cbn [bind] in H.
  destruct (hashString _) as [cih|]; [|discriminate]. cbn [bind] in H.
  destruct (hash3 cih nonce dh) as [nf|] eqn:Enf; [|discriminate]. cbn [bind] in H.
  destruct (HybridProofGenerator.optionalHex _) as [low|]; [|discriminate]. cbn [bind] in H.
  destruct (HybridProofGenerator.optionalHex _) as [lowNext|]; [|discriminate].
  cbn [bind] in H.
  destruct (HybridProofGenerator.mapHex _) as [sibs|]; [|discriminate]. cbn [bind] in H.
  destruct (HybridProofGenerator.generateSnarkProof _ _ _) as [sp|]; [|discriminate].
  cbn [bind] in H. injection H as <-.
  exists nonce, ms, dh, cih, ps, nf. repeat split; assumption.
Qed.

End WithPoseidon.

(** C2, the code at a failing input. With the Poseidon stand-in, master
    secret 5, the domain [example.com] and the sampled bytes 00..1f,
    [generateHybridProof] returns a package whose pseudonym public input is
    not below 2^252. *)
Lemma generateHybridProof_out_of_range :
  exists pkg v,
    Scenarios.generatedPackage = Returns pkg /\
    BigInt_0x (pub_pseudonym (publicInputs (hybridProof pkg))) = Returns v /\
    2 ^ 252 <= v.
Proof.
  destruct Scenarios.generatedPackage as [pkg|] eqn:E; [|vm_compute in E; discriminate].
  exists pkg. vm_compute in E. injection E as <-.
  eexists. split; [reflexivity|]. split; [vm_compute; reflexivity|].
  vm_compute. discriminate.
Qed.

End GeneratorFacts.

(** ** The registry endpoints and the invariants of the tree *)

Module RegistryFacts.
Import JS JSFacts MerkleTree MerkleFacts MerklePath NullifierRoutes RegistryRoutes.

Lemma findLow_lt (ls : list IndexedLeaf) target :
  ls <> [] -> (findLow ls target < length ls)%nat.
Proof.
  intros Hne. unfold findLow.
  destruct (scan_spec ls target (length ls) ltac:(lia)) as [[H|[H _]] _]; cbv zeta in *.
  - rewrite H. destruct ls; [congruence|simpl; lia].
  - exact H.
Qed.

Section WithPoseidon.
Variable poseidonHash2 : Z -> Z -> Z.
Variable poseidonHash3 : Z -> Z -> Z -> Z.

Local Abbreviation addLeaf := (addLeaf poseidonHash2 poseidonHash3).
Local Abbreviation addLeaves := (addLeaves poseidonHash2 poseidonHash3).
Local Abbreviation initialize := (initialize poseidonHash2 poseidonHash3).
Local Abbreviation reachable := (reachable poseidonHash2 poseidonHash3).

Lemma consistent_initialize h : consistent (initialize h).
Proof.
  unfold consistent, MerkleTree.initialize, initializeEmptyTree.
  rewrite leaves_rebuildTree, nullifierIndex_rebuildTree. cbn.
  split; [eexists; split; reflexivity|]. split; [reflexivity|].
  intros s i H. rewrite lookup_empty in H. discriminate.
Qed.

Lemma consistent_addLeaf s t i t' :
  consistent t -> addLeaf s t = Returns (i, t') -> consistent t'.
Proof.
  intros [(l0 & H0 & Hv0) [Hlen Hidx]] Hadd.
  destruct (addLeaf_index poseidonHash2 poseidonHash3 _ _ _ _ Hadd) as [[v Hv] _].
  destruct (nullifierIndex t !! s) as [idx|] eqn:Ei.
  - rewrite (addLeaf_present poseidonHash2 poseidonHash3 s v idx t Hv Ei) in Hadd. injection Hadd as <- <-.
    repeat split; eauto. all: apply Hidx in H; tauto.
  - assert (Hne : leaves t <> []) by (intros E; rewrite E in H0; discriminate).
    pose proof (findLow_lt (leaves t) v Hne) as Hlt.
    destruct (lookup_lt_is_Some_2 _ _ Hlt) as [p Hp].
    destruct (addLeaf_fresh poseidonHash2 poseidonHash3 s v p t Hv Ei Hp) as (t'' & Hadd' & Hl & Hi & _).
    rewrite Hadd' in Hadd. injection Hadd as <- <-.
    split; [|split].
    + destruct (lookup_after_insert (leaves t) _ p v (length (leaves t))
                  (mkLeaf v (nextValue p) (nextIdx p)) 0%nat l0 Hp H0) as (l0' & E1 & E2).
      exists l0'. rewrite Hl. split; [exact E1|congruence].
    + rewrite Hl, Hi, length_app, length_insert. simpl.
      rewrite map_size_insert_None by exact Ei. lia.
    + intros s' i'. rewrite Hi. destruct (decide (s' = s)) as [->|Hns].
      * rewrite lookup_insert_eq. intros E; injection E as <-.
        split; [destruct (leaves t); [congruence|simpl; lia]|].
        exists (mkLeaf v (nextValue p) (nextIdx p)), v. rewrite Hl.
        split; [|split; [exact Hv|reflexivity]].
        rewrite lookup_app_r by (rewrite length_insert; lia).
        rewrite length_insert, Nat.sub_diag. reflexivity.
      * rewrite lookup_insert_ne by congruence. intros E.
        destruct (Hidx s' i' E) as (Hpos & l & v' & El & Ev & Elv).
        split; [exact Hpos|].
        destruct (lookup_after_insert (leaves t) _ p v (length (leaves t))
                    (mkLeaf v (nextValue p) (nextIdx p)) i' l Hp El) as (l' & E1 & E2).
        exists l', v'. rewrite Hl. split; [exact E1|]. split; [exact Ev|congruence].
Qed.

Lemma consistent_addLeaves strs : forall t, consistent t -> consistent (addLeaves strs t).
Proof.
  induction strs as [|s strs IH]; intros t Ht; [exact Ht|].
  unfold MerkleTree.addLeaves. cbn [foldl].
  destruct (addLeaf s t) as [[i t']|] eqn:E.
  - apply IH. eapply consistent_addLeaf; eauto.
  - apply IH. exact Ht.
Qed.

Lemma reachable_consistent h t : reachable h t -> consistent t.
Proof. intros [strs ->]. apply consistent_addLeaves, consistent_initialize. Qed.

Lemma reachable_addLeaf h s t i t' :
  reachable h t -> addLeaf s t = Returns (i, t') -> reachable h t'.
Proof.
  intros [strs ->] Hadd. exists (strs ++ [s]).
  unfold MerkleTree.addLeaves. rewrite foldl_app. cbn [foldl].
  fold (addLeaves strs (initialize h)). rewrite Hadd. reflexivity.
Qed.

Lemma hasNullifier_true t s :
  hasNullifier t s = true <-> exists i, nullifierIndex t !! s = Some i.
Proof. unfold hasNullifier. rewrite bool_decide_eq_true. reflexivity. Qed.

Lemma hasNullifier_false t s :
  hasNullifier t s = false <-> nullifierIndex t !! s = None.
Proof.
  unfold hasNullifier. rewrite bool_decide_eq_false, <- eq_None_not_Some. reflexivity.
Qed.

Lemma addLeaf_reachable (h : nat) (t : IndexedMerkleTree) (s : string) :
  reachable h t ->
  match hexToBigInt s with
  | Returns v =>
      exists i t',
        addLeaf s t = Returns (i, t') /\ reachable h t' /\
        hasNullifier t' s = true /\
        (exists l, leaves t' !! i = Some l /\ value l = v) /\
        (forall s', hasNullifier t s' = true -> hasNullifier t' s' = true) /\
        (hasNullifier t s = false ->
           i = length (leaves t) /\ length (leaves t') = S (length (leaves t))) /\
        (hasNullifier t s = true -> t' = t)
  | Throws e => addLeaf s t = Throws e
  end.
Proof.
  intros Hr. pose proof (reachable_consistent h t Hr) as Hc.
  destruct (hexToBigInt s) as [v|e] eqn:Hv;
    [|unfold MerkleTree.addLeaf; rewrite Hv; reflexivity].
  assert (exists i t', addLeaf s t = Returns (i, t')) as (i & t' & Hadd).
  { destruct (nullifierIndex t !! s) as [idx|] eqn:Ei.
    - rewrite (addLeaf_present poseidonHash2 poseidonHash3 s v idx t Hv Ei). eauto.
    - destruct Hc as [(l0 & H0 & _) _].
      assert (Hne : leaves t <> []) by (intros E; rewrite E in H0; discriminate).
      destruct (lookup_lt_is_Some_2 _ _ (findLow_lt (leaves t) v Hne)) as [p Hp].
      destruct (addLeaf_fresh poseidonHash2 poseidonHash3 s v p t Hv Ei Hp) as (t'' & -> & _).
      eauto. }
  exists i, t'. split; [exact Hadd|].
  split; [eapply reachable_addLeaf; eauto|].
  pose proof (consistent_addLeaf s t i t' Hc Hadd) as (_ & _ & Hidx').
  destruct (addLeaf_index poseidonHash2 poseidonHash3 _ _ _ _ Hadd) as [_ Hi].
  split; [apply hasNullifier_true; eauto|].
  split.
  { destruct (Hidx' s i Hi) as (_ & l & v' & Hl & Hv' & Hlv).
    exists l. split; [exact Hl|]. congruence. }
  destruct (nullifierIndex t !! s) as [idx|] eqn:Ei.
  - rewrite (addLeaf_present poseidonHash2 poseidonHash3 s v idx t Hv Ei) in Hadd.
    injection Hadd as <- <-.
    split; [tauto|]. split; [|reflexivity].
    intros Hf. apply hasNullifier_false in Hf. congruence.
  - destruct Hc as [(l0 & H0 & _) _].
    assert (Hne : leaves t <> []) by (intros E; rewrite E in H0; discriminate).
    destruct (lookup_lt_is_Some_2 _ _ (findLow_lt (leaves t) v Hne)) as [p Hp].
    destruct (addLeaf_fresh poseidonHash2 poseidonHash3 s v p t Hv Ei Hp)
      as (t'' & Hadd' & Hl & Hi' & _).
    rewrite Hadd' in Hadd. injection Hadd as <- <-.
    split.
    { intros s' Hs'. apply hasNullifier_true in Hs' as [j Hj]. apply hasNullifier_true.
      rewrite Hi'. destruct (decide (s' = s)) as [->|Hne'].
      - rewrite lookup_insert_eq. eauto.
      - rewrite lookup_insert_ne by congruence. eauto. }
    split.
    { intros _. split; [reflexivity|]. rewrite Hl, length_app, length_insert. simpl. lia. }
    intros Ht. apply hasNullifier_true in Ht as [j Hj]. congruence.
Qed.

(** X1. On every tree the service can reach, [addLeaf] answers every
    nullifier that is a hexadecimal literal: the nullifier is registered
    afterwards, the returned index is that of a leaf carrying its value,
    nullifiers registered before stay registered, a nullifier that was not
    registered is appended at the old leaf count, and one that was leaves
    the tree as it is. A string that [BigInt] rejects makes [addLeaf]
    throw. *)
Theorem addLeaf_registers (h : nat) (t : IndexedMerkleTree) (s : string) :
  reachable h t ->
  match hexToBigInt s with
  | Returns v =>
      exists i t',
        addLeaf s t = Returns (i, t') /\ reachable h t' /\
        hasNullifier t' s = true /\
        (exists l, leaves t' !! i = Some l /\ value l = v) /\
        (forall s', hasNullifier t s' = true -> hasNullifier t' s' = true) /\
        (hasNullifier t s = false ->
           i = length (leaves t) /\ length (leaves t') = S (length (leaves t))) /\
        (hasNullifier t s = true -> t' = t)
  | Throws e => addLeaf s t = Throws e
  end.
Proof. exact (addLeaf_reachable h t s). Qed.

Lemma lookup_new_leaves (ls : list IndexedLeaf) p P' N k x :
  (p < length ls)%nat ->
  (<[p := P']> ls ++ [N]) !! k = Some x ->
  (k = p /\ x = P') \/ (k <> p /\ ls !! k = Some x) \/ (k = length ls /\ x = N).
Proof.
  intros Hp Hk. destruct (decide (k < length ls)%nat) as [Hlt|Hge].
  - rewrite lookup_app_l in Hk by (rewrite length_insert; exact Hlt).
    destruct (decide (k = p)) as [->|Hne].
    + rewrite list_lookup_insert_eq in Hk by exact Hp. injection Hk as <-. auto.
    + rewrite list_lookup_insert_ne in Hk by congruence. auto.
  - rewrite lookup_app_r in Hk by (rewrite length_insert; lia).
    rewrite length_insert in Hk.
    destruct (k - length ls)%nat as [|n] eqn:E; simpl in Hk; [|destruct n; discriminate].
    injection Hk as <-. right. right. split; [lia|reflexivity].
Qed.

Lemma value_in_leaves (ls : list IndexedLeaf) i l :
  ls !! i = Some l -> value l ∈ map value ls.
Proof.
  intros H. apply list_elem_of_fmap. exists l. split; [reflexivity|].
  apply list_elem_of_lookup. eauto.
Qed.

Lemma values_injective (ls : list IndexedLeaf) i j li lj :
  NoDup (map value ls) -> ls !! i = Some li -> ls !! j = Some lj ->
  value li = value lj -> i = j.
Proof.
  intros Hnd Hi Hj Hv. eapply NoDup_lookup; [exact Hnd| |].
  - rewrite list_lookup_fmap, Hi. reflexivity.
  - rewrite list_lookup_fmap, Hj. simpl. congruence.
Qed.

(** One insertion of a new non-zero value keeps the links free of gaps. *)
Lemma gapFree_step t strs vals s v i t' :
  treeInv t strs vals -> NoDup (0 :: vals) -> gapFree (leaves t) ->
  hexToBigInt s = Returns v -> v <> 0 -> v ∉ vals ->
  addLeaf s t = Returns (i, t') -> gapFree (leaves t').
Proof.
  intros (HF & Hvals & Hlink & Hidx) Hnd Hgap Hv Hv0 Hfresh Hadd.
  assert (0 < v) as Hpos by (pose proof (hexToBigInt_nonneg _ _ Hv); lia).
  assert (nullifierIndex t !! s = None) as Hnone.
  { destruct (nullifierIndex t !! s) eqn:E; [|reflexivity]. exfalso.
    assert (s ∈ strs) as Hin by (apply Hidx; eauto).
    apply list_elem_of_lookup in Hin as [k Hk].
    destruct (Forall2_lookup_l _ _ _ _ _ HF Hk) as (v' & Hk' & Hv').
    rewrite Hv in Hv'. injection Hv' as <-.
    apply Hfresh. apply list_elem_of_lookup. eauto. }
  assert (exists l0, leaves t !! 0%nat = Some l0 /\ value l0 = 0) as (l0 & H0 & Hl0).
  { destruct (leaves t) as [|l0 ls] eqn:E; [discriminate|].
    exists l0. split; [reflexivity|]. simpl in Hvals. congruence. }
  destruct (findLow_spec (leaves t) v l0 H0 ltac:(lia)) as (p & Hp & Hpv & Hmax).
  destruct (addLeaf_fresh poseidonHash2 poseidonHash3 s v p t Hv Hnone Hp)
    as (t'' & Hadd' & Hl & _).
  rewrite Hadd' in Hadd. injection Hadd as <- <-.
  rewrite <- Hvals in Hnd.
  assert (Hnotin : forall k lk, leaves t !! k = Some lk -> value lk <> v).
  { intros k lk Hk E. pose proof (value_in_leaves _ _ _ Hk) as Hin.
    rewrite Hvals, E in Hin. apply elem_of_cons in Hin as [->|Hin]; [lia|tauto]. }
  pose proof (lookup_lt_Some _ _ _ Hp) as Hplt.
  set (P' := mkLeaf (value p) v (length (leaves t))) in *.
  set (N := mkLeaf v (nextValue p) (nextIdx p)) in *.
  intros a la b lb Ha Hb Hab. rewrite Hl in Ha, Hb.
  apply lookup_new_leaves in Ha; [|exact Hplt].
  apply lookup_new_leaves in Hb; [|exact Hplt].
  destruct Ha as [[-> ->]|[[Hap Ha]|[-> ->]]], Hb as [[-> ->]|[[Hbp Hb]|[-> ->]]];
    cbn [value nextValue P' N] in *.
  - lia.
  - (* predecessor against an old leaf *)
    split; [lia|].
    destruct (Z.lt_trichotomy (value lb) v) as [Hlt|[Heq|Hgt]]; [| |lia].
    + pose proof (Hmax b lb Hb Hlt). lia.
    + exfalso. exact (Hnotin b lb Hb Heq).
  - split; lia.
  - (* old leaf against the predecessor *)
    exact (Hgap a la (findLow (leaves t) v) p Ha Hp Hab).
  - exact (Hgap a la b lb Ha Hb Hab).
  - (* old leaf against the new leaf *)
    pose proof (Hmax a la Ha Hab) as Hle.
    assert (value la < value p) as Hlt.
    { destruct (Z.eq_dec (value la) (value p)) as [E|E]; [|lia].
      exfalso. apply Hap. eapply values_injective; eauto. }
    destruct (Hgap a la _ p Ha Hp Hlt). split; lia.
  - lia.
  - (* new leaf against an old leaf *)
    apply (Hgap _ p b lb Hp Hb). lia.
  - lia.
Qed.

Lemma gapFree_initialize h : gapFree (leaves (initialize h)).
Proof.
  unfold MerkleTree.initialize, initializeEmptyTree. rewrite leaves_rebuildTree. cbn.
  intros i li j lj Hi Hj Hlt.
  destruct i; [|destruct i; discriminate]. destruct j; [|destruct j; discriminate].
  cbn in Hi, Hj. injection Hi as <-. injection Hj as <-. simpl in Hlt. lia.
Qed.

Lemma gapFree_addLeaves strs vals : forall t strs0 vals0,
  treeInv t strs0 vals0 -> gapFree (leaves t) ->
  Forall2 (fun s v => hexToBigInt s = Returns v) strs vals ->
  NoDup (0 :: vals0 ++ vals) ->
  gapFree (leaves (addLeaves strs t)).
Proof.
  intros t strs0 vals0 Hinv Hgap HF. revert t strs0 vals0 Hinv Hgap.
  induction HF as [|s v strs vals Hv HF IH]; intros t strs0 vals0 Hinv Hgap Hnd.
  - exact Hgap.
  - apply NoDup_cons in Hnd as [H0 Hnd].
    assert (v <> 0) as Hv0.
    { intros ->. apply H0. apply elem_of_app. right. left. }
    assert (v ∉ vals0) as Hfresh.
    { apply NoDup_app in Hnd as (_ & Hdisj & _). intros Hin. apply (Hdisj v Hin). left. }
    destruct (treeInv_step poseidonHash2 poseidonHash3 t strs0 vals0 s v Hinv Hv Hv0 Hfresh)
      as (i & t' & Hadd & Hinv').
    unfold MerkleTree.addLeaves. cbn [foldl]. fold (addLeaf s t). rewrite Hadd.
    apply (IH t' (strs0 ++ [s]) (vals0 ++ [v]) Hinv').
    + apply (gapFree_step t strs0 vals0 s v i t' Hinv);
        [|exact Hgap|exact Hv|exact Hv0|exact Hfresh|exact Hadd].
      apply NoDup_cons. split.
      * intros Hin. apply H0. apply elem_of_app. left. exact Hin.
      * apply NoDup_app in Hnd as (Hnd0 & _ & _). exact Hnd0.
    + rewrite <- app_assoc. simpl. apply NoDup_cons. split; [exact H0|exact Hnd].
Qed.

(** What is known of the tree after distinct non-zero values have been
    inserted into the initial tree. *)
Lemma inserted_facts h strs vals :
  Forall2 (fun s v => hexToBigInt s = Returns v) strs vals ->
  NoDup vals -> Forall (fun v => v <> 0) vals ->
  let t := addLeaves strs (initialize h) in
  treeInv t strs vals /\ gapFree (leaves t) /\ NoDup (0 :: vals) /\
  Forall (fun v => 0 < v) vals.
Proof.
  intros HF Hnd Hnz t.
  assert (NoDup (0 :: vals)) as Hnd0.
  { apply NoDup_cons. split; [|exact Hnd]. intros Hin.
    rewrite Forall_forall in Hnz. exact (Hnz 0 Hin eq_refl). }
  split; [|split; [|split; [exact Hnd0|]]].
  - apply (treeInv_addLeaves poseidonHash2 poseidonHash3 strs vals (initialize h) [] []);
      [apply treeInv_initialize|exact HF|exact Hnd|exact Hnz].
  - apply (gapFree_addLeaves strs vals (initialize h) [] []);
      [apply treeInv_initialize|apply gapFree_initialize|exact HF|exact Hnd0].
  - apply Forall_forall. intros v Hv.
    apply list_elem_of_lookup in Hv as [k Hk].
    destruct (Forall2_lookup_r _ _ _ _ _ HF Hk) as (s & _ & Hs).
    pose proof (hexToBigInt_nonneg _ _ Hs). rewrite Forall_forall in Hnz.
    assert (v <> 0) by (apply Hnz; apply list_elem_of_lookup; eauto). lia.
Qed.

(** The answer to a request for a non-membership proof of a value that is
    not registered. *)
Lemma nonMembership_low_leaf (h : nat) (strs : list string) (vals : list Z)
    (s : string) (v : Z) :
  Forall2 (fun s v => hexToBigInt s = Returns v) strs vals ->
  NoDup vals -> Forall (fun v => v <> 0) vals ->
  hexToBigInt s = Returns v -> v <> 0 -> v ∉ vals ->
  let t := addLeaves strs (initialize h) in
  exists p low,
    proofRoute poseidonHash3 (Some s) None t = ProofStatus200 "non-membership" p /\
    leaf p = s /\ root p = getRoot poseidonHash3 t /\
    siblings p = getSiblings t (leafIndex p) /\
    pathIndices p = getPathIndices t (leafIndex p) /\
    leaves t !! leafIndex p = Some low /\
    lowNullifier p = Some (bigIntToHex (value low)) /\
    lowNullifierNextValue p = Some (bigIntToHex (nextValue low)) /\
    lowNullifierNextIdx p = Some (nextIdx low) /\
    value low < v /\ (nextValue low = 0 \/ v < nextValue low) /\
    (forall j lj, leaves t !! j = Some lj -> value lj < v -> value lj <= value low).
Proof.
  intros HF Hnd Hnz Hv Hv0 Hfresh t.
  destruct (inserted_facts h strs vals HF Hnd Hnz) as ((_ & Hvals & Hlink & Hidx) & _ & _ & _).
  fold t in Hvals, Hlink, Hidx.
  assert (0 < v) as Hpos by (pose proof (hexToBigInt_nonneg _ _ Hv); lia).
  assert (hasNullifier t s = false) as Hnone.
  { apply hasNullifier_false.
    destruct (nullifierIndex t !! s) eqn:E; [|reflexivity]. exfalso.
    assert (s ∈ strs) as Hin by (apply Hidx; eauto).
    apply list_elem_of_lookup in Hin as [k Hk].
    destruct (Forall2_lookup_l _ _ _ _ _ HF Hk) as (v' & Hk' & Hv').
    rewrite Hv in Hv'. injection Hv' as <-.
    apply Hfresh. apply list_elem_of_lookup. eauto. }
  assert (exists l0, leaves t !! 0%nat = Some l0 /\ value l0 = 0) as (l0 & H0 & Hl0).
  { destruct (leaves t) as [|l0 ls] eqn:E; [discriminate|].
    exists l0. split; [reflexivity|]. simpl in Hvals. congruence. }
  destruct (findLow_spec (leaves t) v l0 H0 ltac:(lia)) as (low & Hlow & Hlv & Hmax).
  exists (mkProof s (getRoot poseidonHash3 t) (getSiblings t (findLow (leaves t) v))
            (getPathIndices t (findLow (leaves t) v)) (findLow (leaves t) v)
            (Some (bigIntToHex (value low))) (Some (bigIntToHex (nextValue low)))
            (Some (nextIdx low))), low.
  split.
  { unfold proofRoute. destruct s as [|c s']; [simpl in Hv; injection Hv as <-; lia|].
    cbn [default]. rewrite bool_decide_eq_false_2 by discriminate.
    unfold getNonMembershipProof. rewrite Hv. cbn [bind]. rewrite Hnone, Hlow.
    reflexivity. }
  cbn [leaf root siblings pathIndices leafIndex lowNullifier lowNullifierNextValue
       lowNullifierNextIdx].
  repeat (split; [reflexivity|]). split; [exact Hlow|].
  repeat (split; [reflexivity|]). split; [exact Hlv|]. split; [|exact Hmax].
  destruct (Hlink _ _ Hlow) as (lj & Hj & Hjv & Hdisj).
  destruct (Z.eq_dec (nextValue low) 0) as [E|E]; [left; exact E|right].
  destruct (Z.lt_trichotomy (nextValue low) v) as [Hlt|[Heq|Hgt]]; [| |exact Hgt].
  - rewrite <- Hjv in Hlt. pose proof (Hmax _ _ Hj Hlt). lia.
  - exfalso. pose proof (value_in_leaves _ _ _ Hj) as Hin.
    rewrite Hvals, Hjv, Heq in Hin. apply elem_of_cons in Hin as [->|Hin]; [lia|tauto].
Qed.

(** X2. Non-membership proofs bracket the nullifier. After nullifiers with
    pairwise distinct non-zero values have been registered, [POST
    /merkle/proof] answers a nullifier whose non-zero value is not among them
    with the data of the leaf at [leafIndex]: the leaf with the largest value
    below the nullifier, which links to 0 (end of list) or to a value above
    the nullifier. *)
Theorem nonMembership_proof_brackets (h : nat) (strs : list string) (vals : list Z)
    (s : string) (v : Z) :
  Forall2 (fun s v => hexToBigInt s = Returns v) strs vals ->
  NoDup vals -> Forall (fun v => v <> 0) vals ->
  hexToBigInt s = Returns v -> v <> 0 -> v ∉ vals ->
  let t := addLeaves strs (initialize h) in
  exists p low,
    proofRoute poseidonHash3 (Some s) None t = ProofStatus200 "non-membership" p /\
    leaf p = s /\ root p = getRoot poseidonHash3 t /\
    siblings p = getSiblings t (leafIndex p) /\
    pathIndices p = getPathIndices t (leafIndex p) /\
    leaves t !! leafIndex p = Some low /\
    lowNullifier p = Some (bigIntToHex (value low)) /\
    lowNullifierNextValue p = Some (bigIntToHex (nextValue low)) /\
    lowNullifierNextIdx p = Some (nextIdx low) /\
    value low < v /\ (nextValue low = 0 \/ v < nextValue low) /\
    (forall j lj, leaves t !! j = Some lj -> value lj < v -> value lj <= value low).
Proof. exact (nonMembership_low_leaf h strs vals s v). Qed.

(** X3. The leaf of a non-membership proof excludes the nullifier. After
    nullifiers with pairwise distinct non-zero values have been registered,
    if some leaf of the tree carries a value below [w] and links to 0 or to a
    value above [w], then [w] is none of the registered values, and no
    registered nullifier string has the value [w]. *)
Theorem low_leaf_excludes (h : nat) (strs : list string) (vals : list Z)
    (i : nat) (l : IndexedLeaf) (w : Z) :
  Forall2 (fun s v => hexToBigInt s = Returns v) strs vals ->
  NoDup vals -> Forall (fun v => v <> 0) vals ->
  let t := addLeaves strs (initialize h) in
  leaves t !! i = Some l ->
  value l < w -> (nextValue l = 0 \/ w < nextValue l) ->
  (w ∉ vals) /\
  (forall s, hasNullifier t s = true -> hexToBigInt s <> Returns w).
Proof.
  intros HF Hnd Hnz t Hl Hlw Hnext.
  destruct (inserted_facts h strs vals HF Hnd Hnz) as ((_ & Hvals & _ & Hidx) & Hgap & _ & _).
  fold t in Hvals, Hidx, Hgap.
  assert (w ∉ vals) as Hw.
  { intros Hin. assert (w ∈ map value (leaves t)) as Hin'.
    { rewrite Hvals. right. exact Hin. }
    apply list_elem_of_fmap in Hin' as (lj & Hjv & Hj).
    apply list_elem_of_lookup in Hj as [j Hj].
    destruct (Hgap i l j lj Hl Hj ltac:(lia)) as [Hne Hle]. lia. }
  split; [exact Hw|]. intros s Hs Hv. apply Hw.
  apply hasNullifier_true in Hs as [k Hk].
  assert (s ∈ strs) as Hin by (apply Hidx; eauto).
  apply list_elem_of_lookup in Hin as [n Hn].
  destruct (Forall2_lookup_l _ _ _ _ _ HF Hn) as (v' & Hn' & Hv').
  rewrite Hv in Hv'. injection Hv' as <-. apply list_elem_of_lookup. eauto.
Qed.

(** X4. Membership proofs exist exactly for registered nullifiers. On a
    tree the service can reach, [POST /merkle/proof] with [proofType:
    'membership'] answers 404 for a nullifier string that is not registered;
    for a registered one it answers the proof of the leaf the string was
    given, whose value is the value of the string, and a request for a
    non-membership proof of that string is refused with status 400. *)
Theorem membership_proof_route (h : nat) (t : IndexedMerkleTree) (s : string) :
  reachable h t -> s <> ""%string ->
  (hasNullifier t s = false ->
   proofRoute poseidonHash3 (Some s) (Some "membership"%string) t = ProofStatus404) /\
  (hasNullifier t s = true ->
   exists p l v,
     proofRoute poseidonHash3 (Some s) (Some "membership"%string) t
     = ProofStatus200 "membership" p /\
     leaf p = s /\ root p = getRoot poseidonHash3 t /\
     siblings p = getSiblings t (leafIndex p) /\
     pathIndices p = getPathIndices t (leafIndex p) /\
     nullifierIndex t !! s = Some (leafIndex p) /\ (0 < leafIndex p)%nat /\
     leaves t !! leafIndex p = Some l /\
     hexToBigInt s = Returns v /\ value l = v /\
     lowNullifier p = Some (bigIntToHex v) /\
     lowNullifierNextValue p = Some (bigIntToHex (nextValue l)) /\
     lowNullifierNextIdx p = Some (nextIdx l) /\
     proofRoute poseidonHash3 (Some s) None t
     = ProofStatus400
         (GenericError "Nullifier exists in tree - cannot generate non-membership proof")).
Proof.
  intros Hr Hs. pose proof (reachable_consistent h t Hr) as (_ & _ & Hidx).
  destruct s as [|c s']; [congruence|]. split.
  - intros Hf. apply hasNullifier_false in Hf. unfold proofRoute. cbn [default].
    rewrite bool_decide_eq_true_2 by reflexivity.
    unfold getMembershipProof. rewrite Hf. reflexivity.
  - intros Ht. pose proof Ht as Ht'. apply hasNullifier_true in Ht' as [i Hi].
    destruct (Hidx _ _ Hi) as (Hpos & l & v & Hl & Hv & Hlv).
    exists (mkProof (String c s') (getRoot poseidonHash3 t) (getSiblings t i)
              (getPathIndices t i) i (Some (bigIntToHex (value l)))
              (Some (bigIntToHex (nextValue l))) (Some (nextIdx l))), l, v.
    split.
    { unfold proofRoute. cbn [default]. rewrite bool_decide_eq_true_2 by reflexivity.
      unfold getMembershipProof. rewrite Hi. unfold getProofByIndex. rewrite Hl.
      reflexivity. }
    cbn [leaf root siblings pathIndices leafIndex lowNullifier lowNullifierNextValue
         lowNullifierNextIdx].
    repeat (split; [reflexivity|]). split; [exact Hi|]. split; [exact Hpos|].
    split; [exact Hl|]. split; [exact Hv|]. split; [exact Hlv|].
    split; [rewrite Hlv; reflexivity|]. repeat (split; [reflexivity|]).
    unfold proofRoute. cbn [default]. rewrite bool_decide_eq_false_2 by discriminate.
    unfold getNonMembershipProof. rewrite Hv. cbn [bind]. rewrite Ht. reflexivity.
Qed.

Local Abbreviation register := (register poseidonHash2 poseidonHash3).

(** X5. Registration is single-use. On a registry whose tree the service
    can reach, [POST /nullifiers/register] of a complete body whose nullifier
    is a hexadecimal literal and is not registered answers 200 with the old
    leaf count as index and the new root; afterwards [POST /nullifiers/check]
    reports the nullifier as used, with the recorded time and domain, every
    further registration of the same nullifier is answered 409 and changes
    nothing, and before it [check] reported the nullifier as not used. *)
Theorem register_then_check (h : nat) (st : Registry) (body : RegisterNullifierBody)
    (now v : Z) :
  reachable h (merkleTree st) ->
  body_nullifier body <> ""%string -> body_domain body <> ""%string ->
  body_pseudonym body <> ""%string ->
  hexToBigInt (body_nullifier body) = Returns v ->
  hasNullifier (merkleTree st) (body_nullifier body) = false ->
  let s := body_nullifier body in
  let ts := match body_timestamp body with
            | Some ts => if ts =? 0 then now else ts
            | None => now
            end in
  exists st',
    register now body st
    = Returns (Status200 (length (leaves (merkleTree st)))
                 (getRoot poseidonHash3 (merkleTree st')), st') /\
    reachable h (merkleTree st') /\
    check (Some s) st
    = CheckStatus200 (substring 0 32 s ++ "...") false
        (rec_timestamp <$> nullifierRecords st !! s)
        (rec_domain <$> nullifierRecords st !! s) /\
    check (Some s) st'
    = CheckStatus200 (substring 0 32 s ++ "...") true (Some ts) (Some (body_domain body)) /\
    (forall now' body',
       body_nullifier body' = s -> body_domain body' <> ""%string ->
       body_pseudonym body' <> ""%string ->
       register now' body' st' = Returns (Status409, st')).
Proof.
  intros Hr Hn Hd Hp Hv Hf s ts.
  pose proof (addLeaf_reachable h (merkleTree st) s Hr) as Hadd.
  fold s in Hv, Hf, Hn. rewrite Hv in Hadd.
  destruct Hadd as (i & t' & Hadd & Hr' & Ht' & _ & _ & Hnew & _).
  destruct (Hnew Hf) as [-> _].
  set (record := mkRecord s (body_domain body) (body_pseudonym body) ts
                   (length (leaves (merkleTree st)))).
  exists (mkRegistry t' (<[s := record]> (nullifierRecords st))).
  assert (Hnot : forall b : RegisterNullifierBody,
            body_nullifier b = s -> body_domain b <> ""%string ->
            body_pseudonym b <> ""%string ->
            bool_decide (body_nullifier b = ""%string \/ body_domain b = ""%string \/
                         body_pseudonym b = ""%string) = false).
  { intros b E1 E2 E3. apply bool_decide_eq_false. rewrite E1. tauto. }
  split.
  { unfold NullifierRoutes.register. rewrite (Hnot body eq_refl Hd Hp).
    fold s. rewrite Hf, Hadd. reflexivity. }
  cbn [merkleTree nullifierRecords].
  split; [exact Hr'|].
  assert (exists c s', s = String c s') as (c & s' & Es)
      by (destruct s; [congruence|eauto]).
  split.
  { unfold check. rewrite Es. rewrite <- Es. rewrite Hf. reflexivity. }
  split.
  { unfold check. rewrite Es. rewrite <- Es. cbn [merkleTree nullifierRecords].
    rewrite Ht', lookup_insert_eq. reflexivity. }
  intros now' body' E1 E2 E3. unfold NullifierRoutes.register.
  rewrite (Hnot body' E1 E2 E3), E1. cbn [merkleTree]. rewrite Ht'. reflexivity.
Qed.

(** X6. The leaf count of the statistics counts the head leaf. On a tree the
    service can reach, [getStats().leafCount], which [GET /nullifiers/stats]
    reports as [totalNullifiers], is one more than the number of registered
    nullifier strings; on the initial tree it is 1. *)
Theorem stats_count_head (h : nat) (st : Registry) (now : Z) :
  reachable h (merkleTree st) ->
  stats_leafCount (getStats poseidonHash3 now (merkleTree st))
  = S (size (nullifierIndex (merkleTree st))) /\
  totalNullifiers (nullifierStats poseidonHash3 now st)
  = S (size (nullifierIndex (merkleTree st))) /\
  stats_leafCount (getStats poseidonHash3 now (initialize h)) = 1%nat.
Proof.
  intros Hr. destruct (reachable_consistent h _ Hr) as (_ & Hlen & _).
  unfold nullifierStats, getStats. cbn [stats_leafCount totalNullifiers].
  split; [exact Hlen|]. split; [exact Hlen|].
  unfold MerkleTree.initialize, initializeEmptyTree. rewrite leaves_rebuildTree.
  reflexivity.
Qed.

Lemma nth_emptyHashesFrom n : forall cur k,
  (k < n)%nat ->
  nth k (emptyHashesFrom poseidonHash2 cur n) 0
  = Nat.iter (S k) (fun x => poseidonHash2 x x) cur.
Proof.
  induction n as [|n IH]; intros cur k Hk; [lia|].
  cbn [emptyHashesFrom]. destruct k as [|k]; [reflexivity|].
  cbn [nth]. rewrite IH by lia. rewrite !Nat.iter_succ_r. reflexivity.
Qed.

Lemma buildLevels_single E : forall n level x,
  (forall k, (level <= k < level + n)%nat ->
     nth (S k) E 0 = poseidonHash2 (nth k E 0) (nth k E 0)) ->
  x = nth level E 0 ->
  buildLevels poseidonHash2 E level n [x]
  = map (fun k => [nth k E 0]) (seq (S level) n).
Proof.
  induction n as [|n IH]; intros level x HE Hx; [reflexivity|].
  cbn [buildLevels seq map]. subst x.
  assert (nextLevelOf poseidonHash2 (nth level E 0) [nth level E 0] = [nth (S level) E 0])
    as ->.
  { unfold nextLevelOf. cbn [pairUp]. rewrite HE by lia. reflexivity. }
  f_equal. apply IH; [|reflexivity]. intros k Hk. apply HE. lia.
Qed.

(** X7. The root of the freshly initialised tree is the hash of the empty
    tree of its height: [Poseidon2(x, x)] iterated [height] times on
    [Poseidon3(0, 0, 0)], the hash of the head leaf. It is also the last of
    the cached empty-subtree hashes. *)
Theorem initial_root (h : nat) :
  getRootBigInt poseidonHash3 (initialize h)
  = Nat.iter h (fun x => poseidonHash2 x x) (poseidonHash3 0 0 0) /\
  getRootBigInt poseidonHash3 (initialize h)
  = nth h (emptySubtreeHashes (initialize h)) 0 /\
  getRoot poseidonHash3 (initialize h)
  = bigIntToHex (Nat.iter h (fun x => poseidonHash2 x x) (poseidonHash3 0 0 0)).
Proof.
  set (e0 := poseidonHash3 0 0 0).
  set (E := e0 :: emptyHashesFrom poseidonHash2 e0 h).
  assert (HE : forall k, (k <= h)%nat -> nth k E 0 = Nat.iter k (fun x => poseidonHash2 x x) e0).
  { intros [|k] Hk; [reflexivity|]. unfold E. cbn [nth]. apply nth_emptyHashesFrom. lia. }
  assert (Hrows : tree (initialize h)
                  = [e0] :: map (fun k => [nth k E 0]) (seq 1 h)).
  { unfold MerkleTree.initialize, initializeEmptyTree, MerkleTree.rebuildTree,
      computeEmptySubtreeHashes, newTree.
    cbn [emptySubtreeHashes leaves tree height nullifierIndex map leafHash value nextValue
         nextIdx Z.of_nat getEmptyLeafHash].
    fold e0. fold E. f_equal. apply buildLevels_single; [|reflexivity].
    intros k Hk. rewrite !HE by lia. reflexivity. }
  assert (Hroot : getRootBigInt poseidonHash3 (initialize h) = nth h E 0).
  { unfold getRootBigInt. rewrite Hrows.
    destruct h as [|h']; [reflexivity|].
    rewrite seq_S, map_app. cbn [map]. 
    change ([e0] :: map (fun k => [nth k E 0]) (seq 1 h') ++ [[nth (1 + h') E 0]])
      with (([e0] :: map (fun k => [nth k E 0]) (seq 1 h')) ++ [[nth (1 + h') E 0]]).
    rewrite last_snoc. reflexivity. }
  assert (Hemp : emptySubtreeHashes (initialize h) = E) by reflexivity.
  split; [rewrite Hroot; apply HE; lia|]. split; [rewrite Hroot, Hemp; reflexivity|].
  unfold getRoot. rewrite Hroot, HE by lia. reflexivity.
Qed.

End WithPoseidon.

Section Paths.
Variable poseidonHash2 : Z -> Z -> Z.
Variable poseidonHash3 : Z -> Z -> Z -> Z.
Hypothesis hash2_nonneg : forall a b, 0 <= poseidonHash2 a b.
Hypothesis hash3_nonneg : forall a b c, 0 <= poseidonHash3 a b c.

Local Abbreviation addLeaves := (addLeaves poseidonHash2 poseidonHash3).
Local Abbreviation initialize := (initialize poseidonHash2 poseidonHash3).

(** Folding the hash of leaf [i] over the siblings and path indices the tree
    returns for [i] gives the root. *)
Lemma fold_to_root (h : nat) (strs : list string) (i : nat) (l : IndexedLeaf) :
  let t := addLeaves strs (initialize h) in
  leaves t !! i = Some l -> (i < 2 ^ h)%nat ->
  foldPath poseidonHash2 (getSiblings t i) (getPathIndices t i) (leafHash poseidonHash3 l)
  = Returns (getRootBigInt poseidonHash3 t) /\
  0 <= getRootBigInt poseidonHash3 t /\ height t = h.
Proof.
  intros t Hl Hi.
  destruct (rebuilt_initialize poseidonHash2 poseidonHash3 hash2_nonneg hash3_nonneg h)
    as [Hinit Hh0].
  destruct (rebuilt_addLeaves poseidonHash2 poseidonHash3 hash2_nonneg hash3_nonneg
              strs (initialize h) Hinit) as [[Hrows HE] Hh].
  fold t in Hrows, HE, Hh. rewrite Hh0 in Hh.
  set (L0 := map (leafHash poseidonHash3) (leaves t)) in *.
  assert (HL0 : nonnegs L0).
  { apply Forall_forall. intros x Hx. apply list_elem_of_fmap in Hx as (y & -> & _).
    apply hash3_nonneg. }
  assert (Hnn : forall k, nonnegs (nth k (tree t) [])).
  { intros k. rewrite Hrows. apply nonnegs_buildLevels; [exact hash2_nonneg|exact HL0]. }
  destruct (foldPath_rows poseidonHash2 t h 0%nat i (leafHash poseidonHash3 l))
    as (y & Hfold & Hy).
  - intros k Hk. rewrite Hrows. rewrite Hh in *. cbn [Nat.add].
    replace (k + 1)%nat with (S k) by lia. cbn [nth].
    apply buildLevels_chain. exact Hk.
  - exact Hnn.
  - exact HE.
  - rewrite Hrows. cbn [nth]. unfold L0. rewrite list_lookup_fmap, Hl. reflexivity.
  - cbn [Nat.add] in Hy. rewrite Nat.div_small in Hy by exact Hi.
    assert (getRootBigInt poseidonHash3 t = y) as Hroot.
    { unfold getRootBigInt. rewrite last_lookup.
      assert (length (tree t) = S h) as Hlen.
      { rewrite Hrows. simpl. rewrite length_buildLevels. lia. }
      rewrite Hlen. cbn [pred]. rewrite nth_lookup in Hy.
      destruct (tree t !! h) as [row|]; simpl in Hy; [|discriminate].
      destruct row as [|r row]; [discriminate|]. simpl in Hy. congruence. }
    unfold getSiblings, getPathIndices. rewrite Hh, Hroot.
    split; [exact Hfold|]. split; [|reflexivity].
    eapply nonnegs_lookup; [apply (Hnn h)|exact Hy].
Qed.

End Paths.

(** Witness of [addLeaf_registers]: the nullifier [07] is added to the tree
    that holds [05]. *)
Lemma addLeaf_registers_witness :
  exists i t',
    MerkleTree.addLeaf Toy.toyHash2 Toy.toyHash3 "07" Toy.toyTree = Returns (i, t') /\
    hasNullifier t' "07" = true /\ i = 2%nat.
Proof.
  pose proof (addLeaf_registers Toy.toyHash2 Toy.toyHash3 2 Toy.toyTree "07"
                (ex_intro _ ["05"%string] eq_refl)) as H.
  change (hexToBigInt "07") with (Returns (A := Z) 7) in H.
  destruct H as (i & t' & H1 & _ & H3 & _ & _ & H6 & _).
  exists i, t'. split; [exact H1|]. split; [exact H3|].
  apply H6. vm_compute. reflexivity.
Defined.

Lemma toy_inserted :
  Forall2 (fun s v => hexToBigInt s = Returns v) ["05"%string] [5] /\
  NoDup [5] /\ Forall (fun v : Z => v <> 0) [5].
Proof.
  split; [repeat constructor|]. split; [apply NoDup_singleton|].
  repeat constructor. lia.
Qed.

(** Witness of [nonMembership_proof_brackets]: the nullifier [07] against the
    tree that holds [05]. *)
Lemma nonMembership_proof_brackets_witness :
  exists p low,
    proofRoute Toy.toyHash3 (Some "07"%string) None Toy.toyTree
    = ProofStatus200 "non-membership" p /\
    leaves Toy.toyTree !! leafIndex p = Some low /\
    value low < 7 /\ (nextValue low = 0 \/ 7 < nextValue low).
Proof.
  destruct toy_inserted as (HF & Hnd & Hnz).
  destruct (nonMembership_proof_brackets Toy.toyHash2 Toy.toyHash3 2 ["05"%string] [5]
              "07" 7 HF Hnd Hnz eq_refl)
    as (p & low & H1 & _ & _ & _ & _ & H6 & _ & _ & _ & H10 & H11 & _).
  - lia.
  - intros Hin. apply list_elem_of_singleton in Hin. lia.
  - exists p, low. auto.
Defined.

(** Witness of [low_leaf_excludes]: in the tree that holds [05], the head
    leaf (value 0, linked to 5) excludes the value 3. *)
Lemma low_leaf_excludes_witness :
  (3 ∉ [5]) /\
  (forall s, hasNullifier Toy.toyTree s = true -> hexToBigInt s <> Returns 3).
Proof.
  destruct toy_inserted as (HF & Hnd & Hnz).
  apply (low_leaf_excludes Toy.toyHash2 Toy.toyHash3 2 ["05"%string] [5] 0
           (mkLeaf 0 5 1) 3 HF Hnd Hnz).
  - reflexivity.
  - simpl. lia.
  - right. simpl. lia.
Defined.

(** Witness of [membership_proof_route]: the nullifiers [05] (registered)
    and [07] (not registered) against the tree that holds [05]. *)
Lemma membership_proof_route_witness :
  proofRoute Toy.toyHash3 (Some "07"%string) (Some "membership"%string) Toy.toyTree
  = ProofStatus404 /\
  exists p, proofRoute Toy.toyHash3 (Some "05"%string) (Some "membership"%string) Toy.toyTree
            = ProofStatus200 "membership" p /\ leafIndex p = 1%nat.
Proof.
  split.
  - apply (membership_proof_route Toy.toyHash2 Toy.toyHash3 2 Toy.toyTree "07").
    + exists ["05"%string]. reflexivity.
    + discriminate.
    + reflexivity.
  - destruct (membership_proof_route Toy.toyHash2 Toy.toyHash3 2 Toy.toyTree "05")
      as [_ H].
    + exists ["05"%string]. reflexivity.
    + discriminate.
    + destruct (H eq_refl) as (p & l & v & H1 & _ & _ & _ & _ & H6 & _).
      exists p. split; [exact H1|].
      assert (nullifierIndex Toy.toyTree !! "05"%string = Some 1%nat) as E
        by (vm_compute; reflexivity).
      congruence.
Defined.

(** Witness of [register_then_check]: [07] is registered on the registry
    whose tree holds [05]. *)
Lemma register_then_check_witness :
  exists st',
    register Toy.toyHash2 Toy.toyHash3 1000 (mkBody "07" "example.com" "nym" None)
      (mkRegistry Toy.toyTree ∅)
    = Returns (Status200 2 (getRoot Toy.toyHash3 (merkleTree st')), st') /\
    (forall now' body',
       body_nullifier body' = "07"%string -> body_domain body' <> ""%string ->
       body_pseudonym body' <> ""%string ->
       register Toy.toyHash2 Toy.toyHash3 now' body' st' = Returns (Status409, st')).
Proof.
  destruct (register_then_check Toy.toyHash2 Toy.toyHash3 2 (mkRegistry Toy.toyTree ∅)
              (mkBody "07" "example.com" "nym" None) 1000 7)
    as (st' & H1 & _ & _ & _ & H5).
  - exists ["05"%string]. reflexivity.
  - discriminate.
  - discriminate.
  - discriminate.
  - reflexivity.
  - reflexivity.
  - exists st'. split; [exact H1|exact H5].
Defined.

(** Witness of [stats_count_head]: the tree that holds [05] has two
    leaves. *)
Lemma stats_count_head_witness :
  totalNullifiers (nullifierStats Toy.toyHash3 0 (mkRegistry Toy.toyTree ∅)) = 2%nat.
Proof.
  destruct (stats_count_head Toy.toyHash2 Toy.toyHash3 2 (mkRegistry Toy.toyTree ∅) 0)
    as (_ & H & _).
  - exists ["05"%string]. reflexivity.
  - rewrite H. vm_compute. reflexivity.
Defined.

End RegistryFacts.

(** ** The registry's proofs and the circuit *)

Module CircuitFacts.
Import JS JSFacts MerkleTree MerkleFacts MerklePath RegistryRoutes RegistryFacts Circuit.

Lemma BigInt_0x_bigIntToHex v : 0 <= v -> BigInt_0x (bigIntToHex v) = Returns v.
Proof.
  intros Hv. unfold bigIntToHex.
  destruct (padded_hex_digits v Hv) as (ds & Hds & Hok & Hval & Hlen & _).
  rewrite Hds, BigInt_0x_stringOfDigits; [congruence| |exact Hok].
  intros E. rewrite E in Hlen. simpl in Hlen. lia.
Qed.


Lemma startsWith_0x_bigIntToHex v : 0 <= v -> startsWith "0x" (bigIntToHex v) = false.
Proof.
  intros Hv. unfold bigIntToHex.
  destruct (padded_hex_digits v Hv) as (ds & Hds & Hok & Hval & Hlen & _).
  rewrite Hds. destruct ds as [|d0 [|d1 ds]]; [simpl in Hlen; lia|simpl in Hlen; lia|].
  inversion Hok as [|? ? Hd0 Hok']; subst. inversion Hok' as [|? ? Hd1 Hok'']; subst.
  rewrite !stringOfDigits_cons. cbn [startsWith].
  assert (Ascii.eqb "x" (digitChar d1) = false) as ->; [|apply andb_false_r].
  apply Ascii.eqb_neq. intros E. apply (f_equal (digitValue 16)) in E.
  rewrite digitValue_digitChar in E by lia. discriminate.
Qed.

Lemma hexToDecimal_bigIntToHex v :
  0 <= v -> HybridProofGenerator.hexToDecimal (bigIntToHex v) = Returns v.
Proof.
  intros Hv. unfold HybridProofGenerator.hexToDecimal.
  rewrite startsWith_0x_bigIntToHex by exact Hv. apply BigInt_0x_bigIntToHex. exact Hv.
Qed.

Lemma optionalHex_bigIntToHex v :
  0 <= v -> HybridProofGenerator.optionalHex (Some (bigIntToHex v)) = Returns v.
Proof.
  intros Hv. pose proof (BigInt_0x_bigIntToHex v Hv) as H.
  unfold HybridProofGenerator.optionalHex.
  destruct (bigIntToHex v) eqn:E; [discriminate|exact H].
Qed.

Lemma FIELD_ORDER_bounds : 2 ^ 252 < FIELD_ORDER < 2 ^ 254.
Proof. unfold FIELD_ORDER. split; reflexivity. Qed.

Section Rows.
Variable h2 : Z -> Z -> Z.
Variable P : Z -> Prop.
Hypothesis P_h2 : forall a b, P (h2 a b).

Lemma pairUp_all e l : Forall P (pairUp h2 e l).
Proof.
  revert l. fix IH 1. intros l. destruct l as [|a [|b l]]; simpl.
  - constructor.
  - constructor; [apply P_h2|constructor].
  - constructor; [apply P_h2|apply IH].
Qed.

Lemma nextLevelOf_all e l : Forall P (nextLevelOf h2 e l).
Proof.
  unfold nextLevelOf. pose proof (pairUp_all e l) as H.
  destruct (pairUp h2 e l); [|exact H].
  constructor; [apply P_h2|constructor].
Qed.

Lemma buildLevels_all E : forall n level cur k,
  Forall P cur -> Forall P (nth k (cur :: buildLevels h2 E level n cur) []).
Proof.
  induction n as [|n IH]; intros level cur k Hcur.
  - destruct k as [|[|k]]; simpl; [exact Hcur|constructor|constructor].
  - destruct k as [|k]; [exact Hcur|].
    cbn [buildLevels nth]. apply (IH (S level) _ k). apply nextLevelOf_all.
Qed.

Lemma emptyHashesFrom_all n : forall cur, Forall P (emptyHashesFrom h2 cur n).
Proof.
  induction n as [|n IH]; intros cur; simpl; [constructor|].
  constructor; [apply P_h2|apply IH].
Qed.

(** The siblings the tree returns are the hex strings of nodes of the tree
    or of cached empty-subtree hashes. *)
Lemma siblingsFrom_values (t : IndexedMerkleTree) :
  (forall k, Forall P (nth k (tree t) [])) ->
  (forall k, P (nth k (emptySubtreeHashes t) 0)) ->
  forall n level idx,
  exists zs, siblingsFrom t level n idx = map bigIntToHex zs /\ Forall P zs /\
             length zs = n.
Proof.
  intros Hrows HE. induction n as [|n IH]; intros level idx.
  - exists []. repeat split. constructor.
  - destruct (IH (S level) (idx / 2)%nat) as (zs & Hzs & HP & Hlen).
    cbn [siblingsFrom]. rewrite Hzs.
    eexists (_ :: zs). split; [reflexivity|]. split; [|simpl; lia].
    constructor; [|exact HP].
    match goal with |- P (default _ ?o) => destruct o as [z|] eqn:Ez end; simpl.
    + specialize (Hrows level). rewrite Forall_forall in Hrows. apply Hrows.
      destruct (Nat.even idx); apply list_elem_of_lookup; eauto.
    + apply HE.
Qed.

End Rows.

Lemma pathIndicesFrom_binary n : forall idx,
  Forall (fun i => i = 0%nat \/ i = 1%nat) (pathIndicesFrom n idx) /\
  length (pathIndicesFrom n idx) = n.
Proof.
  induction n as [|n IH]; intros idx; [split; [constructor|reflexivity]|].
  cbn [pathIndicesFrom length].
  destruct (IH (idx / 2)%nat) as [H1 H2]. split; [|lia].
  constructor; [|exact H1]. pose proof (Nat.mod_upper_bound idx 2 ltac:(lia)). lia.
Qed.

Section WithCircomlib.
Context {C : Circomlib} {L : CircomlibLaws C}.

Local Abbreviation inF := (fun x : Z => 0 <= x < FIELD_ORDER).

(** The circuit's loop computes what [verifyProof]'s loop computes on the
    hex strings of the same field elements. *)
Lemma foldPath_merkleLoop : forall zs idxs x y,
  Forall inF zs -> inF x ->
  Forall (fun i => i = 0%nat \/ i = 1%nat) idxs -> length idxs = length zs ->
  foldPath Poseidon2 (map bigIntToHex zs) idxs x = Returns y ->
  merkleLoop x zs (map Z.of_nat idxs) = Some y.
Proof.
  induction zs as [|z zs IH]; intros idxs x y Hzs Hx Hidx Hlen Hfold.
  - destruct idxs; [|discriminate]. simpl in *. congruence.
  - destruct idxs as [|i idxs]; [discriminate|].
    inversion Hzs as [|? ? Hz Hzs']; subst. inversion Hidx as [|? ? Hi Hidx']; subst.
    cbn [map foldPath] in Hfold.
    rewrite hexToBigInt_bigIntToHex in Hfold by lia. cbn [bind head tail] in Hfold.
    cbn [map merkleLoop].
    destruct (MultiMux1_spec x z z x Hx Hz Hz Hx) as [M0 M1].
    destruct Hi as [-> | ->].
    + rewrite bool_decide_true in Hfold by reflexivity.
      change (Z.of_nat 0) with 0. change ((0 * (1 - 0)) mod FIELD_ORDER =? 0) with true.
      cbv iota. rewrite M0. apply IH; try assumption.
      * apply Poseidon_range.
      * simpl in Hlen. lia.
    + rewrite bool_decide_false in Hfold by discriminate.
      change (Z.of_nat 1) with 1. change ((1 * (1 - 1)) mod FIELD_ORDER =? 0) with true.
      cbv iota. rewrite M1. apply IH; try assumption.
      * apply Poseidon_range.
      * simpl in Hlen. lia.
Qed.

Lemma mapHex_bigIntToHex zs :
  Forall inF zs ->
  HybridProofGenerator.mapHex (map bigIntToHex zs) = Returns zs.
Proof.
  induction zs as [|z zs IH]; intros H; [reflexivity|].
  inversion H as [|? ? Hz Hzs]; subst. cbn [map HybridProofGenerator.mapHex].
  rewrite BigInt_0x_bigIntToHex by lia. cbn [bind]. rewrite IH by exact Hzs. reflexivity.
Qed.

Local Abbreviation addLeaf := (addLeaf Poseidon2 Poseidon3).
Local Abbreviation addLeaves := (addLeaves Poseidon2 Poseidon3).
Local Abbreviation initialize := (initialize Poseidon2 Poseidon3).

Lemma Poseidon2_nonneg a b : 0 <= Poseidon2 a b.
Proof. apply Poseidon_range. Qed.

Lemma Poseidon3_nonneg a b c : 0 <= Poseidon3 a b c.
Proof. apply Poseidon_range. Qed.

Lemma empties_addLeaf s t i t' :
  emptySubtreeHashes t <> [] -> addLeaf s t = Returns (i, t') ->
  emptySubtreeHashes t' = emptySubtreeHashes t.
Proof.
  intros Hne Hadd. unfold MerkleTree.addLeaf in Hadd.
  destruct (hexToBigInt s) as [v|]; [|discriminate]. cbn [bind] in Hadd.
  destruct (nullifierIndex t !! s).
  - injection Hadd as <- <-. reflexivity.
  - destruct (leaves t !! findLow (leaves t) v); [|discriminate].
    injection Hadd as <- <-.
    unfold rebuildTree, computeEmptySubtreeHashes. cbn [emptySubtreeHashes].
    destruct (emptySubtreeHashes t); [congruence|reflexivity].
Qed.

Lemma empties_addLeaves strs : forall t,
  emptySubtreeHashes t <> [] ->
  emptySubtreeHashes (addLeaves strs t) = emptySubtreeHashes t.
Proof.
  induction strs as [|s strs IH]; intros t Hne; [reflexivity|].
  unfold MerkleTree.addLeaves. cbn [foldl].
  destruct (addLeaf s t) as [[i t']|] eqn:E.
  - pose proof (empties_addLeaf s t i t' Hne E) as Ht'.
    fold (addLeaves strs t'). rewrite IH by congruence. exact Ht'.
  - apply IH. exact Hne.
Qed.

(** Every node of a reachable tree and every cached empty-subtree hash is a
    field element. *)
Lemma nodes_in_field h strs :
  let t := addLeaves strs (initialize h) in
  (forall k, Forall inF (nth k (tree t) [])) /\
  (forall k, inF (nth k (emptySubtreeHashes t) 0)).
Proof.
  intros t.
  destruct (rebuilt_initialize Poseidon2 Poseidon3 Poseidon2_nonneg Poseidon3_nonneg h)
    as [Hinit _].
  destruct (rebuilt_addLeaves Poseidon2 Poseidon3 Poseidon2_nonneg Poseidon3_nonneg
              strs (initialize h) Hinit) as [[Hrows _] _].
  fold t in Hrows. split.
  - intros k. rewrite Hrows. apply buildLevels_all; [intros; apply Poseidon_range|].
    apply Forall_forall. intros x Hx. apply list_elem_of_fmap in Hx as (y & -> & _).
    apply Poseidon_range.
  - intros k. unfold t. rewrite empties_addLeaves by discriminate.
    change (emptySubtreeHashes (initialize h))
      with (Poseidon3 0 0 0 :: emptyHashesFrom Poseidon2 (Poseidon3 0 0 0) h).
    pose proof FIELD_ORDER_bounds.
    destruct (nth_in_or_default k (Poseidon3 0 0 0 :: emptyHashesFrom Poseidon2 (Poseidon3 0 0 0) h) 0)
      as [Hin| ->]; [|lia].
    destruct Hin as [<-|Hin]; [apply Poseidon_range|].
    pose proof (emptyHashesFrom_all Poseidon2 inF (fun a b => Poseidon_range _) h (Poseidon3 0 0 0))
      as Hall.
    rewrite Forall_forall in Hall. apply Hall. apply list_elem_of_In. exact Hin.
Qed.

Lemma nonMembership_circuit (h : nat) (strs : list string) (vals : list Z)
    (s : string) (v : Z) :
  Forall2 (fun s v => hexToBigInt s = Returns v) strs vals ->
  NoDup vals -> Forall (fun v => v <> 0) vals -> Forall (fun v => v < 2 ^ 252) vals ->
  hexToBigInt s = Returns v -> v <> 0 -> v < 2 ^ 252 -> v ∉ vals ->
  (length strs < 2 ^ h)%nat ->
  let t := addLeaves strs (initialize h) in
  exists p low next sibs r,
    getNonMembershipProof Poseidon3 t s = Returns p /\
    HybridProofGenerator.optionalHex (MerkleTree.lowNullifier p) = Returns low /\
    HybridProofGenerator.optionalHex (MerkleTree.lowNullifierNextValue p) = Returns next /\
    HybridProofGenerator.mapHex (siblings p) = Returns sibs /\
    HybridProofGenerator.hexToDecimal (root p) = Returns r /\
    r = getRootBigInt Poseidon3 t /\
    NonMembershipProof h v low next
      (Z.of_nat (default 0%nat (MerkleTree.lowNullifierNextIdx p)))
      sibs (map Z.of_nat (pathIndices p))
    = Some r.
Proof.
  intros HF Hnd Hnz Hsmall Hv Hv0 Hvs Hfresh Hroom t.
  destruct (nonMembership_low_leaf Poseidon2 Poseidon3 h strs vals s v HF Hnd Hnz Hv Hv0 Hfresh)
    as (p & low & Hroute & _ & Hroot & Hsib & Hpath & Hlow & Hln & Hlnv & Hlni & Hlt & Hnext & _).
  fold t in Hroute, Hroot, Hsib, Hpath, Hlow.
  destruct (inserted_facts Poseidon2 Poseidon3 h strs vals HF Hnd Hnz)
    as ((_ & Hvals & Hlink & _) & _ & _ & Hposvals).
  fold t in Hvals, Hlink.
  pose proof FIELD_ORDER_bounds as HF0.
  assert (Hval_range : forall j lj, leaves t !! j = Some lj -> 0 <= value lj < 2 ^ 252).
  { intros j lj Hj. pose proof (value_in_leaves _ _ _ Hj) as Hin. rewrite Hvals in Hin.
    apply elem_of_cons in Hin as [->|Hin]; [split; [lia|reflexivity]|].
    rewrite Forall_forall in Hposvals, Hsmall.
    pose proof (Hposvals _ Hin). pose proof (Hsmall _ Hin). lia. }
  pose proof (Hval_range _ _ Hlow) as Hlow_range.
  assert (Hnext_range : 0 <= nextValue low < 2 ^ 252).
  { destruct (Hlink _ _ Hlow) as (lj & Hj & Hjv & _). rewrite <- Hjv. eauto. }
  assert (0 < v) as Hpos by (pose proof (hexToBigInt_nonneg _ _ Hv); lia).
  assert (Hidx : (leafIndex p < 2 ^ h)%nat).
  { apply lookup_lt_Some in Hlow. apply (f_equal length) in Hvals.
    rewrite length_map in Hvals. simpl in Hvals.
    apply Forall2_length in HF. lia. }
  destruct (fold_to_root Poseidon2 Poseidon3 Poseidon2_nonneg Poseidon3_nonneg h strs
              (leafIndex p) low Hlow Hidx) as (Hfold & Hroot0 & Hh).
  fold t in Hfold, Hroot0, Hh.
  destruct (nodes_in_field h strs) as [Hrows HE]. fold t in Hrows, HE.
  destruct (siblingsFrom_values inF t Hrows HE (height t) 0%nat (leafIndex p))
    as (zs & Hzs & Hzs_range & Hzs_len).
  destruct (pathIndicesFrom_binary (height t) (leafIndex p)) as [Hbin Hbin_len].
  exists p, (value low), (nextValue low), zs, (getRootBigInt Poseidon3 t).
  split.
  { unfold proofRoute in Hroute. destruct s as [|c s']; [discriminate|].
    cbn [default] in Hroute. rewrite bool_decide_eq_false_2 in Hroute by discriminate.
    destruct (getNonMembershipProof Poseidon3 t (String c s')) as [p'|]; [|discriminate].
    injection Hroute as ->. reflexivity. }
  split; [rewrite Hln; apply optionalHex_bigIntToHex; lia|].
  split; [rewrite Hlnv; apply optionalHex_bigIntToHex; lia|].
  split; [rewrite Hsib; unfold getSiblings; rewrite Hzs; apply mapHex_bigIntToHex; exact Hzs_range|].
  split; [rewrite Hroot; apply hexToDecimal_bigIntToHex; exact Hroot0|].
  split; [reflexivity|].
  unfold NonMembershipProof.
  rewrite (LessThan252_spec (value low) v) by lia.
  replace (value low <? v) with true by (symmetry; apply Z.ltb_lt; lia).
  cbn [negb Z.eqb Pos.eqb].
  rewrite (LessThan252_spec v (nextValue low)) by lia.
  rewrite IsZero_spec by lia.
  assert ((((if nextValue low =? 0 then 1 else 0)
            + (if v <? nextValue low then 1 else 0)
            - (if nextValue low =? 0 then 1 else 0) * (if v <? nextValue low then 1 else 0))
           mod FIELD_ORDER =? 1) = true) as ->.
  { destruct Hnext as [E|Hgt].
    - rewrite E. replace (v <? 0) with false by (symmetry; apply Z.ltb_ge; lia).
      reflexivity.
    - replace (nextValue low =? 0) with false by (symmetry; apply Z.eqb_neq; lia).
      replace (v <? nextValue low) with true by (symmetry; apply Z.ltb_lt; lia).
      reflexivity. }
  cbn [negb]. rewrite Hlni. cbn [default].
  unfold MerkleProof. rewrite Hpath. unfold getPathIndices.
  rewrite length_map, Hbin_len, Hzs_len, Hh, Nat.eqb_refl. cbn [andb].
  apply foldPath_merkleLoop.
  - exact Hzs_range.
  - apply Poseidon_range.
  - rewrite <- Hh. exact Hbin.
  - rewrite <- Hh, Hbin_len, Hzs_len. reflexivity.
  - rewrite <- Hzs. rewrite <- Hh. exact Hfold.
Qed.

(** X8. The registry's non-membership proofs meet the circuit's
    constraints. After nullifiers with pairwise distinct non-zero values
    below 2^252 have been registered in a tree that has room for them, the
    proof the tree returns for a nullifier whose non-zero value below 2^252
    is not registered, read as the proof generator reads it (hex strings to
    integers), is accepted by [NonMembershipProof(height)], whose output is
    the root of the tree. The tree hashes with the Poseidon of the circuit. *)
Theorem registry_proof_satisfies_circuit (h : nat) (strs : list string) (vals : list Z)
    (s : string) (v : Z) :
  Forall2 (fun s v => hexToBigInt s = Returns v) strs vals ->
  NoDup vals -> Forall (fun v => v <> 0) vals -> Forall (fun v => v < 2 ^ 252) vals ->
  hexToBigInt s = Returns v -> v <> 0 -> v < 2 ^ 252 -> v ∉ vals ->
  (length strs < 2 ^ h)%nat ->
  let t := addLeaves strs (initialize h) in
  exists p low next sibs r,
    getNonMembershipProof Poseidon3 t s = Returns p /\
    HybridProofGenerator.optionalHex (MerkleTree.lowNullifier p) = Returns low /\
    HybridProofGenerator.optionalHex (MerkleTree.lowNullifierNextValue p) = Returns next /\
    HybridProofGenerator.mapHex (siblings p) = Returns sibs /\
    HybridProofGenerator.hexToDecimal (root p) = Returns r /\
    r = getRootBigInt Poseidon3 t /\
    NonMembershipProof h v low next
      (Z.of_nat (default 0%nat (MerkleTree.lowNullifierNextIdx p)))
      sibs (map Z.of_nat (pathIndices p))
    = Some r.
Proof.
  intros HF Hnd Hnz Hsmall Hv Hv0 Hvs Hfresh Hroom.
  exact (nonMembership_circuit h strs vals s v HF Hnd Hnz Hsmall Hv Hv0 Hvs Hfresh Hroom).
Qed.

End WithCircomlib.

(** The templates written out from circomlib's sources obey the laws. *)
Lemma toyCircomlib_laws : CircomlibLaws toyCircomlib.
Proof.
  pose proof FIELD_ORDER_bounds as HF.
  assert (Hp : 2 ^ 253 < FIELD_ORDER) by (unfold FIELD_ORDER; reflexivity).
  constructor.
  - intros l. cbn [Poseidon toyCircomlib]. apply Z.mod_pos_bound. lia.
  - intros a b Ha Hb. cbn [LessThan252 toyCircomlib].
    assert (2 ^ 253 = 2 * 2 ^ 252) as E253 by reflexivity.
    rewrite Z.mod_small by lia. unfold num2bits.
    change (2 ^ Z.of_nat 253) with (2 ^ 253).
    replace (0 <=? a + 2 ^ 252 - b) with true by (symmetry; apply Z.leb_le; lia).
    replace (a + 2 ^ 252 - b <? 2 ^ 253) with true by (symmetry; apply Z.ltb_lt; lia).
    cbn [andb]. f_equal.
    destruct (Z.ltb_spec a b) as [Hlt|Hge].
    + assert (Z.testbit (a + 2 ^ 252 - b) 252 = false) as ->; [|reflexivity].
      apply Z.testbit_false; [lia|]. rewrite Z.div_small by lia. reflexivity.
    + assert (Z.testbit (a + 2 ^ 252 - b) 252 = true) as ->; [|reflexivity].
      apply Z.testbit_true; [lia|].
      replace ((a + 2 ^ 252 - b) / 2 ^ 252) with 1; [reflexivity|].
      apply Z.div_unique with (r := a - b); lia.
  - intros x Hx. cbn [IsZero toyCircomlib]. rewrite Z.mod_small by lia. reflexivity.
  - intros a b c d Ha Hb Hc Hd. cbn [MultiMux1 toyCircomlib map]. split; f_equal.
    + rewrite Z.mod_small by lia. lia.
    + f_equal. rewrite Z.mod_small by lia. lia.
    + rewrite Z.mod_small by lia. lia.
    + f_equal. rewrite Z.mod_small by lia. lia.
Qed.

(** Witness of [registry_proof_satisfies_circuit]: the nullifier [07]
    against the tree of height 2 that holds [05]. *)
Lemma registry_proof_satisfies_circuit_witness :
  exists p r,
    getNonMembershipProof (Poseidon3 (C := toyCircomlib))
      (MerkleTree.addLeaves (Poseidon2 (C := toyCircomlib)) (Poseidon3 (C := toyCircomlib))
         ["05"%string]
         (MerkleTree.initialize (Poseidon2 (C := toyCircomlib))
            (Poseidon3 (C := toyCircomlib)) 2)) "07"
    = Returns p /\
    exists sibs,
      HybridProofGenerator.mapHex (siblings p) = Returns sibs /\
      NonMembershipProof (C := toyCircomlib) 2 7 5 0 0 sibs (map Z.of_nat (pathIndices p))
      = Some r.
Proof.
  destruct toy_inserted as (HF & Hnd & Hnz).
  destruct (registry_proof_satisfies_circuit (C := toyCircomlib) (L := toyCircomlib_laws)
              2 ["05"%string] [5] "07" 7 HF Hnd Hnz)
    as (p & low & next & sibs & r & H1 & H2 & H3 & H4 & _ & _ & H7).
  - repeat constructor.
  - reflexivity.
  - lia.
  - reflexivity.
  - intros Hin. apply list_elem_of_singleton in Hin. lia.
  - simpl. lia.
  - exists p, r. split; [exact H1|]. exists sibs. split; [exact H4|].
    assert (p = mkProof "07" (root p) (siblings p) (pathIndices p) 1
                  (Some (bigIntToHex 5)) (Some (bigIntToHex 0)) (Some 0%nat)) as Ep.
    { vm_compute in H1. injection H1 as <-. reflexivity. }
    rewrite Ep in H2, H3, H7. cbn [MerkleTree.lowNullifier MerkleTree.lowNullifierNextValue
      MerkleTree.lowNullifierNextIdx default] in H2, H3, H7.
    rewrite optionalHex_bigIntToHex in H2, H3 by lia.
    injection H2 as <-. injection H3 as <-.
    cbn [siblings pathIndices] in H7. exact H7.
Defined.

End CircuitFacts.

(** ** Encodings and hashing utilities *)

Module UtilityFacts.
Import JS JSFacts Crypto CryptoFacts PoseidonHash PoseidonFacts Attributes.

Lemma bytesOfNibbles_nibbles bs : bytesOfNibbles (nibbles bs) = bs.
Proof.
  induction bs as [|b bs IH]; [reflexivity|].
  change (nibbles (b :: bs)) with (byteToZ b / 16 :: byteToZ b mod 16 :: nibbles bs).
  cbn [bytesOfNibbles]. rewrite IH. f_equal.
  rewrite <- (byteOfZ_byteToZ b) at 3. f_equal.
  pose proof (Z.div_mod (byteToZ b) 16 ltac:(lia)). lia.
Qed.

Lemma hexToBytes_bytesToHex (bytes : list byte) :
  hexToBytes (bytesToHex bytes) = bytes /\
  String.length (bytesToHex bytes) = (2 * length bytes)%nat.
Proof.
  unfold hexToBytes, bytesToHex. split.
  - rewrite bufferToHex_nibbles, bufferFromHex_stringOfDigits by apply digitsOk_nibbles.
    apply bytesOfNibbles_nibbles.
  - rewrite bufferToHex_nibbles, length_stringOfDigits. apply length_nibbles.
Qed.

(** The hex digits of a scalar of the field, as [toHex] writes them. *)
Lemma toHex_digits (n : Z) :
  0 <= n < 2 ^ 256 ->
  exists ds, toHex n = stringOfDigits ds /\ digitsOk 16 ds /\ length ds = 64%nat /\
             toHex n = padStart 64 "0" (toString 16 n).
Proof.
  intros Hn. unfold toHex, bytesToHex, scalarToBytes.
  destruct (padded_hex_digits n ltac:(lia)) as (ds & Hds & Hok & _ & _ & Hlen64).
  specialize (Hlen64 ltac:(lia)). exists ds.
  rewrite Hds, bufferFromHex_stringOfDigits, bufferToHex_nibbles by exact Hok.
  rewrite nibbles_bytesOfNibbles; [auto|exact Hok|]. exists 32%nat. lia.
Qed.

Lemma fromHex_toHex (n : Z) : 0 <= n < FIELD_MODULUS -> fromHex (toHex n) = Returns n.
Proof.
  intros Hn. unfold fromHex, toHex.
  rewrite (proj1 (hexToBytes_bytesToHex _)). apply bytesToScalar_scalarToBytes. exact Hn.
Qed.

(** X9. Hex encoding of bytes round-trips. [hexToBytes(bytesToHex(bytes))]
    is [bytes], the hex string has two characters per byte, and a dangling
    last character of a hex string is dropped by [hexToBytes]. *)
Theorem hex_bytes_round_trip (bytes : list byte) (c : ascii) :
  hexToBytes (bytesToHex bytes) = bytes /\
  String.length (bytesToHex bytes) = (2 * length bytes)%nat /\
  hexToBytes (bytesToHex bytes ++ String c "") = bytes.
Proof.
  destruct (hexToBytes_bytesToHex bytes) as [Hrt Hlen].
  split; [exact Hrt|]. split; [exact Hlen|]. clear Hrt Hlen.
  unfold hexToBytes, bytesToHex.
  - induction bytes as [|b bs IH]; [reflexivity|].
    assert (forall a s t, (String a s +:+ t)%string = String a (s +:+ t)) as Happ
      by reflexivity.
    cbn [bufferToHex]. rewrite !Happ. cbn [bufferFromHex].
    pose proof (byteToZ_range b) as Hb.
    rewrite !digitValue_digitChar; try lia.
    + rewrite IH. f_equal. rewrite <- (byteOfZ_byteToZ b) at 3. f_equal.
      pose proof (Z.div_mod (byteToZ b) 16 ltac:(lia)). lia.
    + apply Z.mod_pos_bound. lia.
    + split; [apply Z.div_pos; lia|]. apply Z.div_lt_upper_bound; lia.
Qed.

Lemma byteToZ_inj x y : byteToZ x = byteToZ y -> x = y.
Proof. intros H. rewrite <- (byteOfZ_byteToZ x), <- (byteOfZ_byteToZ y), H. reflexivity. Qed.

Lemma lor_fold_zero : forall (l : list (byte * byte)) acc,
  0 <= acc ->
  foldl (fun result '(x, y) => Z.lor result (Z.lxor (byteToZ x) (byteToZ y))) acc l = 0 ->
  acc = 0 /\ Forall (fun '(x, y) => x = y) l.
Proof.
  induction l as [|[x y] l IH]; intros acc Hacc H; [split; [exact H|constructor]|].
  cbn [foldl] in H. pose proof (byteToZ_range x) as Hx. pose proof (byteToZ_range y) as Hy.
  apply IH in H as [H Hl].
  - apply Z.lor_eq_0_iff in H as [E1 E2]. split; [exact E1|].
    constructor; [|exact Hl]. apply byteToZ_inj.
    apply (proj1 (Z.lxor_eq_0_iff _ _)). exact E2.
  - apply Z.lor_nonneg. split; [exact Hacc|]. apply Z.lxor_nonneg. lia.
Qed.

(** X10. [constantTimeEqual] decides equality of byte arrays: it returns
    true exactly when the two arrays have the same length and the same
    bytes. *)
Theorem constantTimeEqual_iff (a b : list byte) :
  constantTimeEqual a b = true <-> a = b.
Proof.
  split; [|intros ->; apply constantTimeEqual_refl].
  unfold constantTimeEqual. destruct (length a =? length b)%nat eqn:E; [|discriminate].
  apply Nat.eqb_eq in E. cbn [negb]. intros H. apply Z.eqb_eq in H.
  apply lor_fold_zero in H as [_ H]; [|lia].
  revert b E H. induction a as [|x a IH]; intros [|y b] E H; try discriminate; [reflexivity|].
  cbn [zip zip_with] in H. inversion H as [|? ? Hxy Hrest]; subst.
  f_equal. apply IH; [simpl in E; lia|exact Hrest].
Qed.

(** X11. Scalars round-trip through their 32-byte and hex encodings. For a
    scalar of the field, [scalarToBytes] yields 32 bytes that
    [bytesToScalar] reads back, [PoseidonHash.toHex] yields the 64 hex
    digits of the scalar padded with zeros, and [PoseidonHash.fromHex] reads
    them back. *)
Theorem scalar_bytes_round_trip (n : Z) :
  0 <= n < FIELD_MODULUS ->
  length (scalarToBytes n) = 32%nat /\
  bytesToScalar (scalarToBytes n) = Returns n /\
  toHex n = padStart 64 "0" (toString 16 n) /\
  String.length (toHex n) = 64%nat /\
  fromHex (toHex n) = Returns n.
Proof.
  intros Hn. pose proof FIELD_MODULUS_bounds as Hq.
  destruct (scalarToBytes_spec n ltac:(lia)) as [Hlen _].
  pose proof (bytesToScalar_scalarToBytes n Hn) as Hback.
  destruct (hexToBytes_bytesToHex (scalarToBytes n)) as (Hrt & Hl).
  split; [exact Hlen|]. split; [exact Hback|].
  split; [destruct (toHex_digits n ltac:(lia)) as (ds & _ & _ & _ & H); exact H|].
  split; [unfold toHex; rewrite Hl, Hlen; reflexivity|].
  apply fromHex_toHex. exact Hn.
Qed.

(** Witness of [scalar_bytes_round_trip] at the scalar 5. *)
Lemma scalar_bytes_round_trip_witness :
  bytesToScalar (scalarToBytes 5) = Returns 5 /\ fromHex (toHex 5) = Returns 5.
Proof.
  destruct (scalar_bytes_round_trip 5) as (_ & H2 & _ & _ & H5).
  - split; [lia|reflexivity].
  - split; [exact H2|exact H5].
Defined.

Lemma bytesToScalar_nonempty (bytes : list byte) :
  bytes <> [] ->
  bytesToScalar bytes = Returns (bigEndian bytes mod FIELD_MODULUS) /\
  0 <= bigEndian bytes mod FIELD_MODULUS < FIELD_MODULUS.
Proof.
  pose proof FIELD_MODULUS_bounds as Hq.
  intros Hne. unfold bytesToScalar. rewrite BigInt_0x_bufferToHex by exact Hne.
  cbn [bind]. fold (bigEndian bytes). pose proof (bigEndian_nonneg bytes).
  rewrite Z.rem_mod_nonneg by lia. split; [reflexivity|]. apply Z.mod_pos_bound. lia.
Qed.

(** X12. [bytesToScalar] reads any non-empty byte array as a big-endian
    integer and reduces it into the field; on the empty array it throws a
    SyntaxError ([BigInt('0x')]). [randomScalar] does the same with the 32
    bytes it draws. *)
Theorem bytesToScalar_reduces :
  bytesToScalar [] = Throws SyntaxError /\
  (forall bytes, bytes <> [] ->
     bytesToScalar bytes = Returns (bigEndian bytes mod FIELD_MODULUS) /\
     0 <= bigEndian bytes mod FIELD_MODULUS < FIELD_MODULUS) /\
  (forall bytes, randomScalar bytes = bytesToScalar bytes).
Proof.
  split; [reflexivity|]. split; [exact bytesToScalar_nonempty|reflexivity].
Qed.

Section WithSha.
Context {sha : Sha256}.

(** X13. What [encodeAttribute] returns. A boolean encodes to 1 or 0. A
    string encodes to its digest reduced into the field. A number encodes to
    its floor reduced with [%]: a field element when the floor is not
    negative, and a value in (-q, 0] congruent to the floor when it is, which
    is no field element unless it is 0. NaN and the infinities throw a
    RangeError, a value of another type throws. *)
Theorem encodeAttribute_cases :
  (forall b, encodeAttribute (ABoolean b) = Returns (Z.b2z b)) /\
  (forall s, sha256 (utf8 s) <> [] ->
     exists x, encodeAttribute (AString s) = Returns x /\ 0 <= x < FIELD_MODULUS /\
               x = bigEndian (sha256 (utf8 s)) mod FIELD_MODULUS) /\
  (forall n, 0 <= n ->
     encodeAttribute (ANumber (Some n)) = Returns (n mod FIELD_MODULUS)) /\
  (forall n, n < 0 ->
     exists x, encodeAttribute (ANumber (Some n)) = Returns x /\
               - FIELD_MODULUS < x <= 0 /\ (n - x) mod FIELD_MODULUS = 0) /\
  encodeAttribute (ANumber None) = Throws RangeError /\
  (exists msg, encodeAttribute AOther = Throws (GenericError msg)).
Proof.
  pose proof FIELD_MODULUS_bounds as Hq.
  split; [intros []; reflexivity|]. split.
  { intros s Hne. destruct (bytesToScalar_nonempty _ Hne) as [E R].
    eexists. split; [exact E|]. split; [exact R|reflexivity]. }
  split.
  { intros n Hn. cbn [encodeAttribute]. rewrite Z.rem_mod_nonneg by lia. reflexivity. }
  split.
  { intros n Hn. exists (Z.rem n FIELD_MODULUS). split; [reflexivity|].
    pose proof (Z.rem_bound_pos_neg n FIELD_MODULUS ltac:(lia) ltac:(lia)).
    split; [lia|].
    pose proof (Z.quot_rem' n FIELD_MODULUS) as E.
    replace (n - Z.rem n FIELD_MODULUS) with (Z.quot n FIELD_MODULUS * FIELD_MODULUS) by lia.
    apply Z.mod_mul. lia. }
  split; [reflexivity|]. eexists. reflexivity.
Qed.

End WithSha.

Lemma chunksFuel_enough : forall f f' (data : list byte),
  (length data <= f)%nat -> (length data <= f')%nat ->
  chunksFuel f data = chunksFuel f' data.
Proof.
  induction f as [|f IH]; intros f' data Hf Hf'.
  - destruct data; [|simpl in Hf; lia]. destruct f'; reflexivity.
  - destruct data as [|b rest]; [destruct f'; reflexivity|].
    destruct f' as [|f']; [simpl in Hf'; lia|].
    cbn [chunksFuel]. f_equal. apply IH; rewrite length_drop; simpl in *; lia.
Qed.

Lemma chunksFuel_nil f : chunksFuel f [] = [].
Proof. destruct f; reflexivity. Qed.

Lemma chunkValue_trailing_zero (chunk : list byte) :
  (length chunk < 32)%nat -> chunkValue (chunk ++ [x00]) = chunkValue chunk.
Proof.
  intros Hlen. unfold chunkValue, padTo32. f_equal. f_equal.
  rewrite length_app. cbn [length]. rewrite <- app_assoc. f_equal.
  replace (32 - length chunk)%nat with (S (32 - (length chunk + 1))) by lia.
  reflexivity.
Qed.

Lemma chunk_values_trailing_zero : forall f (data : list byte),
  (length data <= f)%nat -> (length data mod 31 <> 0)%nat ->
  map chunkValue (chunksFuel (S f) (data ++ [x00])) = map chunkValue (chunksFuel f data).
Proof.
  induction f as [|f IH]; intros data Hf Hmod.
  - destruct data; [|simpl in Hf; lia]. simpl in Hmod. congruence.
  - destruct data as [|b rest] eqn:Ed; [simpl in Hmod; congruence|]. rewrite <- Ed in *.
    assert (1 <= length data)%nat by (subst; simpl; lia).
    assert (chunksFuel (S f) data = take 31 data :: chunksFuel f (drop 31 data)) as ->
      by (subst; reflexivity).
    assert (chunksFuel (S (S f)) (data ++ [x00])
            = take 31 (data ++ [x00]) :: chunksFuel (S f) (drop 31 (data ++ [x00]))) as ->
      by (subst; reflexivity).
    destruct (decide (length data < 31)%nat) as [Hshort|Hlong].
    + rewrite !take_ge by (rewrite ?length_app; simpl; lia).
      rewrite !drop_ge by (rewrite ?length_app; simpl; lia).
      rewrite !chunksFuel_nil. cbn [map]. rewrite chunkValue_trailing_zero by lia.
      reflexivity.
    + assert (length data <> 31)%nat by (intros E; rewrite E in Hmod; simpl in Hmod; congruence).
      rewrite take_app_le by lia. rewrite drop_app_le by lia.
      cbn [map]. f_equal. apply IH.
      * rewrite length_drop. lia.
      * rewrite length_drop. intros E. apply Hmod.
        replace (length data) with (length data - 31 + 1 * 31)%nat by lia.
        rewrite Nat.Div0.mod_add. exact E.
Qed.

Section WithPoseidon.
Context {P : Poseidon}.

Lemma hashBytes_chunks (data : list byte) :
  hashBytes data = hashMany (map chunkValue (chunks31 data)).
Proof. unfold hashBytes, chunks31. rewrite chunkLoop_chunks. reflexivity. Qed.

(** X14. [hashBytes] does not see zero bytes at the end of an unfinished
    chunk. When the length of the input is not a multiple of 31, appending
    zero bytes that still fit into the last 31-byte chunk does not change the
    hash: the chunk is padded with zeros to 32 bytes before it is read. *)
Theorem hashBytes_ignores_trailing_zeros (data : list byte) (k : nat) :
  (length data mod 31 <> 0)%nat -> (length data mod 31 + k <= 31)%nat ->
  hashBytes (data ++ replicate k x00) = hashBytes data.
Proof.
  intros Hmod. induction k as [|k IH]; intros Hk.
  - rewrite app_nil_r. reflexivity.
  - rewrite <- IH by lia.
    replace (replicate (S k) x00) with (replicate k x00 ++ [x00])
      by (rewrite <- replicate_S_end; reflexivity).
    rewrite app_assoc. rewrite !hashBytes_chunks. f_equal. unfold chunks31.
    set (X := data ++ replicate k x00).
    assert (HX : (length X mod 31 <> 0)%nat).
    { unfold X. rewrite length_app, length_replicate.
      pose proof (Nat.mod_upper_bound (length data) 31 ltac:(lia)).
      assert (length data mod 31 + k < 31)%nat as Hlt by lia.
      rewrite <- Nat.Div0.add_mod_idemp_l. rewrite (Nat.mod_small _ _ Hlt). lia. }
    transitivity (map chunkValue (chunksFuel (S (length X)) (X ++ [x00]))).
    { f_equal. apply chunksFuel_enough; rewrite length_app; simpl; lia. }
    rewrite chunk_values_trailing_zero by (exact HX || lia).
    f_equal. apply chunksFuel_enough; lia.
Qed.

End WithPoseidon.

(** Witness of [hashBytes_ignores_trailing_zeros]: the one-byte input [61]
    and the same byte followed by a zero byte. *)
Lemma hashBytes_ignores_trailing_zeros_witness :
  hashBytes (P := Scenarios.toyPoseidon) [x61; x00]
  = hashBytes (P := Scenarios.toyPoseidon) [x61].
Proof.
  apply (hashBytes_ignores_trailing_zeros (P := Scenarios.toyPoseidon) [x61] 1).
  - simpl. lia.
  - simpl. lia.
Defined.

End UtilityFacts.

(** ** Challenge validation and the authentication endpoint *)

Module AuthFacts.
Import JS JSFacts AuthTypes ChallengeManager ChallengeStore SnarkVerifier AuthVerifier.

Lemma generateChallenge_stored (w : ChallengeManager.World) st d c st' :
  generateChallenge w st d = Returns (c, st') ->
  st' = <[challengeId c := c]> st /\
  expiresAt c = w_nowCreated w + CHALLENGE_TTL_MS /\
  domain c = d.
Proof.
  unfold generateChallenge.
  destruct (BigInt_0x _) as [n|e]; [|discriminate]. cbn [bind].
  destruct (getRegistryRoot w) as [r|]; [|discriminate].
  intros [= <- <-]. cbn. auto.
Qed.

Lemma validate_found now id x st c :
  st !! id = Some c -> now <= expiresAt c ->
  validateChallenge now id x st
  = (if bool_decide (challenge c = x) then mkValidation true (Some c) None
     else mkValidation false None (Some "Challenge value mismatch"%string), st).
Proof.
  intros Hc Hnow. unfold validateChallenge, get. rewrite Hc.
  destruct (Z.ltb_spec (expiresAt c) now) as [?|_]; [lia|].
  destruct (bool_decide (challenge c = x)); reflexivity.
Qed.

Lemma validate_missing now id x st :
  st !! id = None ->
  validateChallenge now id x st
  = (mkValidation false None (Some "Challenge not found or already used"%string), st).
Proof. intros H. unfold validateChallenge, get. rewrite H. reflexivity. Qed.

Lemma validate_expired now id x st c :
  st !! id = Some c -> expiresAt c < now ->
  validateChallenge now id x st
  = (mkValidation false None (Some "Challenge has expired"%string), base.delete id st).
Proof.
  intros Hc Hnow. unfold validateChallenge, get. rewrite Hc.
  destruct (Z.ltb_spec (expiresAt c) now) as [_|?]; [reflexivity|lia].
Qed.

(** X15. A challenge that [generateChallenge] has issued is accepted, with
    the value it was issued with, at every clock reading up to and including
    its expiry time, 300000 ms after its creation; any other value is
    answered with a mismatch. Neither answer changes the store: validation
    does not use the challenge up. *)
Theorem issued_challenge_validates (w : ChallengeManager.World) st d c st' now :
  generateChallenge w st d = Returns (c, st') ->
  now <= w_nowCreated w + 300000 ->
  validateChallenge now (challengeId c) (challenge c) st'
  = (mkValidation true (Some c) None, st') /\
  forall x, x <> challenge c ->
    validateChallenge now (challengeId c) x st'
    = (mkValidation false None (Some "Challenge value mismatch"%string), st').
Proof.
  intros Hgen Hnow. apply generateChallenge_stored in Hgen as (-> & Hexp & _).
  assert (<[challengeId c := c]> st !! challengeId c = Some c) as Hc
    by apply lookup_insert_eq.
  assert (now <= expiresAt c) as Hle by (rewrite Hexp; unfold CHALLENGE_TTL_MS; lia).
  split.
  - rewrite (validate_found _ _ _ _ c Hc Hle). rewrite bool_decide_eq_true_2; reflexivity.
  - intros x Hx. rewrite (validate_found _ _ _ _ c Hc Hle).
    rewrite bool_decide_eq_false_2; [reflexivity|congruence].
Qed.

(** X16. Validating a stored challenge after its expiry time answers that
    the challenge has expired, whatever value is presented, and removes it
    from the store; from then on every validation under that identifier
    answers that the challenge was not found or was already used. *)
Theorem expired_challenge_is_removed now id x st c :
  st !! id = Some c -> expiresAt c < now ->
  validateChallenge now id x st
  = (mkValidation false None (Some "Challenge has expired"%string), base.delete id st) /\
  forall now' x',
    validateChallenge now' id x' (base.delete id st)
    = (mkValidation false None (Some "Challenge not found or already used"%string),
       base.delete id st).
Proof.
  intros Hc Hnow. split; [exact (validate_expired _ _ _ _ _ Hc Hnow)|].
  intros now' x'. apply validate_missing, lookup_delete_eq.
Qed.

Lemma cleanup_fold now (l : list (string * AuthChallenge)) : forall acc id c,
  foldl (fun acc '(id, challenge) =>
           if expiresAt challenge <? now then snd (delete id acc) else acc) acc l !! id
  = Some c
  <-> acc !! id = Some c /\ forall c', (id, c') ∈ l -> now <= expiresAt c'.
Proof.
  induction l as [|[k ck] l IH]; intros acc id c; cbn [foldl].
  - split; [intros H; split; [exact H|]|tauto]. intros c' Hin. inversion Hin.
  - rewrite IH. destruct (Z.ltb_spec (expiresAt ck) now) as [Hlt|Hge].
    + cbn [delete snd]. split.
      * intros [Hd Hall]. apply lookup_delete_Some in Hd as [Hne Hd]. split; [exact Hd|].
        intros c' Hin. apply elem_of_cons in Hin as [[= -> ->]|Hin]; [congruence|].
        eauto.
      * intros [Hacc Hall]. split.
        -- apply lookup_delete_Some. split; [|exact Hacc].
           intros ->. specialize (Hall ck ltac:(left)). lia.
        -- intros c' Hin. apply Hall. right. exact Hin.
    + split.
      * intros [Hacc Hall]. split; [exact Hacc|].
        intros c' Hin. apply elem_of_cons in Hin as [[= -> ->]|Hin]; [lia|eauto].
      * intros [Hacc Hall]. split; [exact Hacc|]. intros c' Hin. apply Hall. right. exact Hin.
Qed.

(** X17. The periodic cleanup keeps exactly the challenges that have not
    expired: an entry is in the store afterwards if and only if it was there
    before and the clock reading is not past its expiry time. *)
Theorem cleanup_keeps_unexpired now st id c :
  cleanup now st !! id = Some c <-> st !! id = Some c /\ now <= expiresAt c.
Proof.
  unfold cleanup. rewrite cleanup_fold. split.
  - intros [Hc Hall]. split; [exact Hc|]. apply Hall. apply elem_of_map_to_list. exact Hc.
  - intros [Hc Hle]. split; [exact Hc|]. intros c' Hin.
    apply elem_of_map_to_list in Hin. congruence.
Qed.

Section WithSnarkjs.
Variable JSON_parse : string -> completion ProofData.
Variable VerificationKey : Type.
Variable groth16_verify : VerificationKey -> list string -> ProofData -> completion bool.

Local Abbreviation verify := (SnarkVerifier.verify JSON_parse VerificationKey groth16_verify).
Local Abbreviation parseProof := (SnarkVerifier.parseProof JSON_parse).
Local Abbreviation verifyAuthentication :=
  (AuthVerifier.verifyAuthentication JSON_parse VerificationKey groth16_verify).
Local Abbreviation verifyRoute :=
  (AuthVerifier.verifyRoute JSON_parse VerificationKey groth16_verify).

Local Abbreviation demoMode := (SnarkVerifier.demoMode VerificationKey).

Lemma validateProofStructure_performs proof pi :
  validateProofStructure proof = true -> performVerification proof pi = true.
Proof.
  unfold validateProofStructure, performVerification.
  destruct (pd_pi_a proof) as [[|a [|b l]]|], (pd_pi_b proof), (pd_pi_c proof);
    cbn; congruence.
Qed.

Lemma verify_demo v proof pi ps :
  demoMode v ->
  verify v proof pi ps
  = validateProofStructure match proof with
                           | ProofString s => parseProof s
                           | ProofObject p => p
                           end.
Proof.
  intros Hdemo. unfold SnarkVerifier.verify.
  set (proofData := match proof with ProofString s => _ | ProofObject p => p end).
  destruct (validateProofStructure proofData) eqn:Hv; cbn [negb]; [|reflexivity].
  assert (performVerification proofData pi = true) as Hp
    by (apply validateProofStructure_performs; exact Hv).
  destruct Hdemo as [Hd|Hd]; rewrite Hd.
  - cbn. exact Hp.
  - destruct (circuitReady _ v); cbn; exact Hp.
Qed.

Lemma parseProof_not_json s :
  startsWith "{" s = false \/ (exists e, JSON_parse s = Throws e) ->
  validateProofStructure (parseProof s) = true.
Proof.
  unfold SnarkVerifier.parseProof. intros [H|[e H]].
  - rewrite H. reflexivity.
  - destruct (startsWith "{" s); [rewrite H|]; reflexivity.
Qed.

(** X18. In demo mode [verify] decides on the shape of the proof alone:
    the answer is that of [validateProofStructure], whatever the public
    inputs and signals are. Every proof string that does not open with a
    brace, or that [JSON.parse] rejects, is accepted; the empty string is
    one of them. *)
Theorem demo_verify_is_structure_check v proof pi ps :
  demoMode v ->
  verify v proof pi ps
  = validateProofStructure match proof with
                           | ProofString s => parseProof s
                           | ProofObject p => p
                           end /\
  (forall s, startsWith "{" s = false \/ (exists e, JSON_parse s = Throws e) ->
     verify v (ProofString s) pi ps = true) /\
  verify v (ProofString "") pi ps = true.
Proof.
  intros Hdemo. split; [apply verify_demo; exact Hdemo|]. split.
  - intros s Hs. rewrite verify_demo by exact Hdemo. apply parseProof_not_json. exact Hs.
  - rewrite verify_demo by exact Hdemo. apply parseProof_not_json. left. reflexivity.
Qed.

Lemma verify_signals_given v proof pi pi' sigs :
  length sigs = 5%nat ->
  verify v proof (Some pi) (Some sigs) = verify v proof (Some pi') (Some sigs).
Proof.
  intros Hlen. unfold SnarkVerifier.verify.
  destruct (validateProofStructure _); cbn [negb]; [|reflexivity].
  destruct (circuitReady _ v), (verificationKey _ v); try reflexivity.
  rewrite Hlen. reflexivity.
Qed.

Lemma verifyRegistryRoot_true w root : verifyRegistryRoot w root = true.
Proof.
  unfold verifyRegistryRoot.
  destruct (w_rootFetch w) as [| |[[[r|]]|]]; try reflexivity.
  cbn. destruct (bool_decide (r = root)); reflexivity.
Qed.

(** X19. [verifyAuthentication] never reports the error codes
    [CHALLENGE_EXPIRED] and [REGISTRY_ROOT_MISMATCH]. Its result is valid
    exactly when it carries no error code, and then it carries a session
    token and the pseudonym and domain of the package; an invalid result
    carries no token. The challenge store is changed only by an answer
    [INVALID_CHALLENGE]. *)
Theorem verifyAuthentication_error_codes v w p st :
  match verifyAuthentication v w p st with
  | (r, st') =>
      errorCode r <> Some CHALLENGE_EXPIRED /\
      errorCode r <> Some REGISTRY_ROOT_MISMATCH /\
      (valid r = true <-> errorCode r = None) /\
      (valid r = true ->
       is_Some (sessionToken r) /\ res_pseudonym r = Some (ap_pseudonym p) /\
       res_domain r = Some (ap_domain p)) /\
      (valid r = false -> sessionToken r = None) /\
      (errorCode r <> Some INVALID_CHALLENGE -> st' = st)
  end.
Proof.
  unfold AuthVerifier.verifyAuthentication.
  destruct (validateChallenge _ _ _ st) as [cr st1] eqn:Hval.
  assert (v_valid cr = true -> st1 = st) as Hst.
  { revert Hval. unfold validateChallenge.
    destruct (get _ st) as [c|]; [|intros [= <- <-]; reflexivity].
    destruct (expiresAt c <? _); [intros [= <- <-]; discriminate|].
    destruct (negb _); intros [= <- <-]; reflexivity. }
  destruct (v_valid cr); cbn [negb].
  2:{ cbn. repeat split; try congruence; intros [? ?]; congruence. }
  specialize (Hst eq_refl) as ->.
  destruct (ap_registryRoot p) as [root|].
  2:{ cbn. repeat split; try congruence; intros [? ?]; congruence. }
  rewrite verifyRegistryRoot_true. cbn [negb].
  destruct (SnarkVerifier.verify _ _ _ _ _ _ _); cbn [negb].
  2:{ cbn. repeat split; try congruence; intros [? ?]; congruence. }
  destruct (checkNullifierUsed _ _).
  { cbn. repeat split; try congruence; intros [? ?]; congruence. }
  destruct (w_sign _ _ _ _) as [tok|e].
  - cbn. repeat split; try congruence; eauto.
  - cbn. repeat split; try congruence; intros [? ?]; congruence.
Qed.

(** X20. In demo mode the endpoint's verifier authenticates whoever
    presents a stored, unexpired challenge with its value: for every proof
    string that does not open with a brace, every pseudonym, every domain
    (the domain of the challenge is not looked at) and every registry root
    the package names, a session token for that pseudonym and domain is issued, unless the
    registry reports the nullifier as used or the token cannot be signed.
    The challenge stays in the store. *)
Theorem demo_mode_authenticates v w p st c s tok :
  demoMode v ->
  st !! ap_challengeId p = Some c -> w_nowValidate w <= expiresAt c ->
  challenge c = ap_challenge p ->
  ap_proof p = ProofString s -> startsWith "{" s = false ->
  is_Some (ap_registryRoot p) ->
  checkNullifierUsed w (ap_nullifier p) = false ->
  w_sign w (ap_pseudonym p) (ap_domain p) (w_nowAuthenticated w) = Returns tok ->
  verifyAuthentication v w p st
  = (mkVerification true (Some (ap_pseudonym p)) (Some (ap_domain p)) (Some tok)
       (Some (w_nowToken w + 3600000)) None None, st).
Proof.
  intros Hdemo Hc Hnow Hch Hproof Hs [root Hroot] Hused Hsign.
  unfold AuthVerifier.verifyAuthentication.
  rewrite (validate_found _ _ _ _ c Hc Hnow), bool_decide_eq_true_2 by exact Hch.
  cbn [v_valid negb]. rewrite Hroot, verifyRegistryRoot_true. cbn [negb].
  rewrite Hproof, verify_demo by exact Hdemo.
  rewrite parseProof_not_json by (left; exact Hs). cbn [negb].
  rewrite Hused, Hsign. reflexivity.
Qed.

(** X21. When five public signals come with the package, the proof is
    checked against them and the pseudonym, commitment hash and registry
    root of the package are bound to nothing: a package that is accepted
    stays accepted when these three are replaced, and the session token is
    then issued for the replaced pseudonym. *)
Theorem supplied_signals_leave_pseudonym_unbound v w p st sigs pseudonym' commitment'
    root' tok :
  ap_publicSignals p = Some sigs -> length sigs = 5%nat ->
  valid (fst (verifyAuthentication v w p st)) = true ->
  w_sign w pseudonym' (ap_domain p) (w_nowAuthenticated w) = Returns tok ->
  verifyAuthentication v w
    (mkAuthPackage (ap_challengeId p) (ap_challenge p) (ap_proof p) (ap_publicSignals p)
       pseudonym' (ap_nullifier p) commitment' (Some root') (ap_domain p)) st
  = (mkVerification true (Some pseudonym') (Some (ap_domain p)) (Some tok)
       (Some (w_nowToken w + 3600000)) None None, st).
Proof.
  intros Hsigs Hlen Hvalid Hsign. revert Hvalid.
  unfold AuthVerifier.verifyAuthentication. cbn [ap_challengeId ap_challenge ap_proof
    ap_publicSignals ap_pseudonym ap_nullifier ap_commitmentHash ap_registryRoot ap_domain].
  destruct (validateChallenge _ _ _ st) as [cr st1] eqn:Hval.
  assert (v_valid cr = true -> st1 = st) as Hst.
  { revert Hval. unfold validateChallenge.
    destruct (get _ st) as [c|]; [|intros [= <- <-]; reflexivity].
    destruct (expiresAt c <? _); [intros [= <- <-]; discriminate|].
    destruct (negb _); intros [= <- <-]; reflexivity. }
  destruct (v_valid cr); cbn [negb]; [|discriminate].
  specialize (Hst eq_refl) as ->.
  destruct (ap_registryRoot p) as [root|]; [|discriminate].
  rewrite !verifyRegistryRoot_true. cbn [negb].
  rewrite Hsigs.
  rewrite (verify_signals_given v (ap_proof p)
             (mkInputs pseudonym' (ap_nullifier p) commitment' root' (ap_challenge p))
             (mkInputs (ap_pseudonym p) (ap_nullifier p) (ap_commitmentHash p) root
                (ap_challenge p)) sigs Hlen).
  destruct (SnarkVerifier.verify _ _ _ _ _ _ _); cbn [negb]; [|discriminate].
  destruct (checkNullifierUsed _ _); [discriminate|].
  rewrite Hsign. reflexivity.
Qed.

Lemma verifyAuthentication_valid v w p st :
  match verifyAuthentication v w p st with
  | (r, st') =>
      (valid r = true ->
       exists c, st !! ap_challengeId p = Some c /\ w_nowValidate w <= expiresAt c /\
                 challenge c = ap_challenge p /\
                 res_pseudonym r = Some (ap_pseudonym p) /\
                 res_domain r = Some (ap_domain p) /\ st' = st) /\
      (errorCode r <> Some INVALID_CHALLENGE -> st' = st)
  end.
Proof.
  unfold AuthVerifier.verifyAuthentication, validateChallenge, get.
  destruct (st !! ap_challengeId p) as [c|] eqn:Hc.
  2:{ cbn. split; [discriminate|congruence]. }
  destruct (Z.ltb_spec (expiresAt c) (w_nowValidate w)) as [Hlt|Hge].
  { cbn. split; [discriminate|congruence]. }
  destruct (bool_decide_reflect (challenge c = ap_challenge p)) as [Hch|Hch]; cbn [negb].
  2:{ cbn. split; [discriminate|congruence]. }
  cbn [v_valid negb].
  destruct (ap_registryRoot p) as [root|]; [|cbn; split; [discriminate|reflexivity]].
  rewrite verifyRegistryRoot_true. cbn [negb].
  destruct (SnarkVerifier.verify _ _ _ _ _ _ _); cbn [negb];
    [|cbn; split; [discriminate|reflexivity]].
  destruct (checkNullifierUsed _ _); [cbn; split; [discriminate|reflexivity]|].
  destruct (w_sign _ _ _ _) as [tok|e]; cbn; (split; [|reflexivity]); [|discriminate].
  intros _. exists c. repeat split; assumption || reflexivity.
Qed.

Lemma truthy_Some x s : truthy x = Some s -> x = Some s /\ s <> ""%string.
Proof. destruct x as [[|a x]|]; cbn; intros [= <-]; split; congruence. Qed.

(** X22. [POST /auth/verify] uses a challenge once: an answer 200 was given
    for a stored, unexpired challenge whose value the request carried, and
    removes it, so that every later request under the same challenge
    identifier is answered 400 or 401 with [INVALID_CHALLENGE] (until a new
    challenge is stored under that identifier). An answer 401 for any other
    reason than the challenge leaves the store as it was, and the same
    challenge can be presented again. *)
Theorem verified_challenge_is_single_use v w body st :
  match verifyRoute v w body st with
  | (Reply200 pseudonym domain token expires, st') =>
      exists id c,
        vb_challengeId body = Some id /\ st !! id = Some c /\
        w_nowValidate w <= expiresAt c /\ vb_challenge body = Some (challenge c) /\
        pseudonym = vb_pseudonym body /\ domain = vb_domain body /\
        st' = base.delete id st /\
        forall v' w' body', vb_challengeId body' = Some id ->
          verifyRoute v' w' body' st' = (Reply400, st') \/
          verifyRoute v' w' body' st'
          = (Reply401 (Some "Challenge not found or already used"%string)
               (Some INVALID_CHALLENGE), st')
  | (Reply401 _ code, st') => code <> Some INVALID_CHALLENGE -> st' = st
  | (Reply400, st') => st' = st
  end.
Proof.
  unfold AuthVerifier.verifyRoute.
  destruct (truthy (vb_challengeId body)) as [id|] eqn:Hid; [|reflexivity].
  destruct (truthy (vb_challenge body)) as [ch|] eqn:Hch; [|reflexivity].
  destruct (truthyProof (vb_proof body)) as [proof|]; [|reflexivity].
  destruct (truthy (vb_pseudonym body)) as [ps|] eqn:Hps; [|reflexivity].
  destruct (truthy (vb_nullifier body)) as [nf|]; [|reflexivity].
  destruct (truthy (vb_domain body)) as [dm|] eqn:Hdm; [|reflexivity].
  set (p := mkAuthPackage id ch proof _ ps nf _ _ dm).
  pose proof (verifyAuthentication_valid v w p st) as Haux.
  destruct (AuthVerifier.verifyAuthentication _ _ _ v w p st) as [r st1].
  destruct Haux as (Hok & Hkeep).
  destruct (valid r) eqn:Hvalid.
  - destruct (Hok eq_refl) as (c & Hc & Hnow & Hval & Hp & Hd & ->).
    apply truthy_Some in Hid as [Hid _], Hch as [Hch _], Hps as [Hps _], Hdm as [Hdm _].
    exists id, c. cbn in Hc, Hnow, Hval, Hp, Hd. subst ch.
    repeat split; try assumption; try congruence.
    intros v' w' body' Hid'.
    unfold consumeChallenge, delete. cbn [snd].
    rewrite Hid'. cbn [truthy].
    destruct id as [|a id]; [left; reflexivity|].
    destruct (truthy (vb_challenge body')) as [ch'|]; [|left; reflexivity].
    destruct (truthyProof (vb_proof body')) as [proof'|]; [|left; reflexivity].
    destruct (truthy (vb_pseudonym body')) as [ps'|]; [|left; reflexivity].
    destruct (truthy (vb_nullifier body')) as [nf'|]; [|left; reflexivity].
    destruct (truthy (vb_domain body')) as [dm'|]; [|left; reflexivity].
    right. unfold AuthVerifier.verifyAuthentication. cbn [ap_challengeId ap_challenge].
    rewrite validate_missing by apply lookup_delete_eq. reflexivity.
  - intros Hcode. apply Hkeep. exact Hcode.
Qed.

End WithSnarkjs.

(** Witness of [issued_challenge_validates]: the challenge issued at clock
    reading 2000 is accepted at 302000. *)
Lemma issued_challenge_validates_witness :
  match generateChallenge Scenarios.challengeWorld ∅ "example.com" with
  | Returns (c, st') =>
      validateChallenge 302000 (challengeId c) (challenge c) st'
      = (mkValidation true (Some c) None, st')
  | Throws _ => False
  end.
Proof.
  destruct (generateChallenge Scenarios.challengeWorld ∅ "example.com")
    as [[c st']|e] eqn:Hgen; [|vm_compute in Hgen; discriminate].
  apply (issued_challenge_validates Scenarios.challengeWorld ∅ "example.com" c st' 302000
           Hgen).
  cbn. lia.
Defined.

(** Witness of [expired_challenge_is_removed]. *)
Lemma expired_challenge_is_removed_witness :
  validateChallenge 301001 "ch_1" "" toyStore
  = (mkValidation false None (Some "Challenge has expired"%string),
     base.delete "ch_1"%string toyStore).
Proof.
  apply (expired_challenge_is_removed 301001 "ch_1" "" toyStore toyChallenge).
  - reflexivity.
  - cbn. lia.
Defined.

(** Witness of [demo_verify_is_structure_check]. *)
Lemma demo_verify_is_structure_check_witness :
  SnarkVerifier.verify noJson unit noGroth16 demoVerifier (ProofString "{") None None
  = true.
Proof.
  destruct (demo_verify_is_structure_check noJson unit noGroth16 demoVerifier
              (ProofString "") None None) as (_ & Hstrings & _).
  - left. reflexivity.
  - apply Hstrings. right. exists SyntaxError. reflexivity.
Defined.

(** Witness of [demo_mode_authenticates]: the challenge was issued for
    [example.com], the token is for [alice] at [other.example]. *)
Lemma demo_mode_authenticates_witness :
  AuthVerifier.verifyAuthentication noJson unit noGroth16 demoVerifier (toyWorld 2000)
    toyPackage toyStore
  = (mkVerification true (Some "alice"%string) (Some "other.example"%string)
       (Some "jwt.alice.other.example"%string) (Some 3602000) None None, toyStore).
Proof.
  apply (demo_mode_authenticates noJson unit noGroth16 demoVerifier (toyWorld 2000)
           toyPackage toyStore toyChallenge "no proof at all" "jwt.alice.other.example").
  - left. reflexivity.
  - reflexivity.
  - cbn. lia.
  - reflexivity.
  - reflexivity.
  - reflexivity.
  - eexists. reflexivity.
  - reflexivity.
  - reflexivity.
Defined.

(** Witness of [supplied_signals_leave_pseudonym_unbound]. *)
Lemma supplied_signals_leave_pseudonym_unbound_witness :
  AuthVerifier.verifyAuthentication noJson unit yesGroth16 readyVerifier (toyWorld 2000)
    (mkAuthPackage "ch_1" (repeatChar "3" 64) (ProofString "no proof at all")
       (Some ["1"; "2"; "3"; "4"; "5"]%string) "bob" "02" (Some "ff"%string)
       (Some "not a root"%string) "other.example") toyStore
  = (mkVerification true (Some "bob"%string) (Some "other.example"%string)
       (Some "jwt.bob.other.example"%string) (Some 3602000) None None, toyStore).
Proof.
  apply (supplied_signals_leave_pseudonym_unbound noJson unit yesGroth16 readyVerifier
           (toyWorld 2000) toyPackage toyStore ["1"; "2"; "3"; "4"; "5"]%string "bob"
           (Some "ff"%string) "not a root" "jwt.bob.other.example").
  - reflexivity.
  - reflexivity.
  - vm_compute. reflexivity.
  - reflexivity.
Defined.

End AuthFacts.

(** ** The verdict of the hybrid verifier *)

Module HybridFacts.
Import JS JSFacts AuthTypes HybridVerifier.

Section WithGroth16.
Variable VerificationKey : Type.
Variable groth16_verify :
  VerificationKey -> list string -> SnarkProof -> completion bool.

Local Abbreviation verify := (HybridVerifier.verify VerificationKey groth16_verify).



End WithGroth16.

End HybridFacts.

(** ** An honest run, end to end *)

Module PipelineFacts.
Import JS JSFacts Crypto CryptoFacts PoseidonHash MerkleTree MerklePath.
Import RegistryRoutes RegistryFacts Circuit CircuitFacts UtilityFacts Pipeline.
Import AuthTypes HybridProofGenerator.






Section Honest.
Context {P : PoseidonHash.Poseidon} {C : Circomlib} {L : CircomlibLaws C}.
Hypothesis poseidon_agrees :
  forall l, Forall (fun x => 0 <= x < FIELD_ORDER) l -> poseidon l = Returns (Poseidon l).




Section WithVerifier.
Variable VerificationKey : Type.
Variable groth16_verify :
  VerificationKey -> list string -> SnarkProof -> completion bool.


End WithVerifier.

End Honest.




End PipelineFacts.

(** ** Trusted setup *)

Module SetupFacts.
Import JS JSFacts Crypto CryptoFacts PublicParams TrustedSetup UtilityFacts.

Section WithCurve.
Context {g1 : G1Ops} {M : G1Model g1} {L : G1Laws g1 M}.
Variable hashToCurve : string -> G1Point.

Lemma deserialize_serialized (P : G1Point) :
  deserialize (hexToBytes (bytesToHex (serialize P))) = Returns P.
Proof.
  rewrite (proj1 (hexToBytes_bytesToHex _)). unfold deserialize, serialize.
  apply fromBytes_toBytes.
Qed.

Lemma deserializeAll_serialized (points : list G1Point) :
  deserializeAll (map (fun P => bytesToHex (serialize P)) points) = Returns tt.
Proof.
  induction points as [|P points IH]; [reflexivity|].
  cbn [map deserializeAll]. rewrite deserialize_serialized. exact IH.
Qed.

Lemma parseGenerators_serialized (points : list G1Point) :
  parseGenerators (map (fun P => bytesToHex (serialize P)) points) = Returns points.
Proof.
  induction points as [|P points IH]; [reflexivity|].
  cbn [map parseGenerators]. rewrite deserialize_serialized. cbn [bind].
  rewrite IH. reflexivity.
Qed.

(** X27. The parameters [generateParameters] makes pass the checks and
    load, given that the curve library decodes the encoding of a point to
    that point. For every number of attributes, [verifyParameters] returns
    true on them, so that [setupDefaultParameters] returns the parameters for 20
    attributes; and [loadParameters] parses them into the curve's base point,
    the points hashed from the attribute domains 0, 1, ... in this order,
    and the point hashed from the blinding domain. *)
Theorem generated_parameters_load (now : Z) (maxAttributes : nat) :
  verifyParameters (generateParameters hashToCurve now maxAttributes) = true /\
  setupDefaultParameters hashToCurve now
  = Returns (generateParameters hashToCurve now DEFAULT_MAX_ATTRIBUTES) /\
  loadParameters (generateParameters hashToCurve now maxAttributes)
  = Returns (mkManager (Some (generateParameters hashToCurve now maxAttributes))
               (Some (mkGenerators getGenerator
                        (map (fun i => hashToCurve (attributeDomain i))
                           (seq 0 maxAttributes))
                        (hashToCurve "BBS_BLINDING_GENERATOR_V1")))) /\
  length (attributeGenerators (generateParameters hashToCurve now maxAttributes))
  = maxAttributes.
Proof.
  assert (forall n,
            map (fun i => bytesToHex (serialize (hashToCurve (attributeDomain i))))
              (seq 0 n)
            = map (fun P => bytesToHex (serialize P))
                (map (fun i => hashToCurve (attributeDomain i)) (seq 0 n))) as Hmap
    by (intros n; rewrite map_map; reflexivity).
  assert (forall n, verifyParameters (generateParameters hashToCurve now n) = true)
    as Hverify.
  { intros n. unfold verifyParameters, generateParameters.
    cbn [generatorG attributeGenerators blindingGenerator PublicParams.maxAttributes].
    rewrite deserialize_serialized. cbn [bind].
    rewrite length_map, length_seq, Nat.eqb_refl. cbn [negb].
    rewrite Hmap, deserializeAll_serialized. cbn [bind].
    rewrite deserialize_serialized. reflexivity. }
  split; [apply Hverify|]. split; [|split].
  - unfold setupDefaultParameters. rewrite Hverify. reflexivity.
  - unfold loadParameters.
    cbn [generateParameters generatorG attributeGenerators blindingGenerator].
    rewrite deserialize_serialized. cbn [bind].
    rewrite Hmap, parseGenerators_serialized. cbn [bind].
    rewrite deserialize_serialized. reflexivity.
  - cbn [generateParameters attributeGenerators]. rewrite length_map, length_seq.
    reflexivity.
Qed.

End WithCurve.

(** Witness of [generated_parameters_load] on the small instance of the
    curve. *)
Lemma generated_parameters_load_witness :
  verifyParameters (g1 := Toy.toyG1)
    (generateParameters (g1 := Toy.toyG1) toyHashToCurve 0 3) = true.
Proof.
  apply (generated_parameters_load (g1 := Toy.toyG1) (L := ToyFacts.toy_laws)
           toyHashToCurve 0 3).
Defined.

End SetupFacts.

(** ** Nullifier derivation *)

Module NullifierFacts.
Import JS JSFacts Crypto CryptoFacts PoseidonHash AuthTypes NullifierManager.

Section WithPoseidon.
Context {P : Poseidon}.

(** X28. The nullifier of a generated package is the one
    [NullifierManager.deriveNullifier] derives from the identifier of the
    credential, the session nonce drawn and the domain of the challenge, and
    [verifyNullifier] accepts it. The derivation reduces the nonce modulo the
    scalar modulus first, so a non-negative nonce and the same nonce plus the
    modulus derive the same nullifier. *)
Theorem generated_nullifier_is_derived (w : HybridProofGenerator.World)
    (holderDid : string) (credential : HybridProofGenerator.StoredCredential)
    (ch : AuthChallenge) (revealed : list nat) (pkg : HybridAuthPackage) :
  HybridProofGenerator.generateHybridProof w holderDid credential ch revealed
  = Returns pkg ->
  exists nonce data,
    randomScalar (HybridProofGenerator.w_randomBytes w) = Returns nonce /\
    deriveNullifier (HybridProofGenerator.cred_id credential) nonce (AuthTypes.domain ch)
    = Returns data /\
    nullifier data = pkg_nullifier pkg /\
    deriveNullifier (HybridProofGenerator.cred_id credential) (nonce + FIELD_MODULUS)
      (AuthTypes.domain ch)
    = Returns (mkNullifierData (nullifier data) (nullifierRaw data)
                 (HybridProofGenerator.cred_id credential) (nonce + FIELD_MODULUS)
                 (AuthTypes.domain ch)) /\
    verifyNullifier (HybridProofGenerator.cred_id credential) nonce (AuthTypes.domain ch)
      (pkg_nullifier pkg)
    = Returns true.
Proof.
  unfold HybridProofGenerator.generateHybridProof. intros H.
  destruct (randomScalar _) as [nonce|] eqn:Enonce; [|discriminate]. cbn [bind] in H.
  destruct (HybridProofGenerator.w_getMasterSecret w holderDid) as [ms|]; [|discriminate].
  cbn [bind] in H.
  destruct (BigInt_0x _) as [bf|]; [|discriminate]. cbn [bind] in H.
  destruct (hashString (AuthTypes.domain ch)) as [dh|] eqn:Edh; [|discriminate].
  cbn [bind] in H.
  destruct (hash3 ms nonce dh) as [ps|]; [|discriminate]. cbn [bind] in H.
  destruct (hashString (HybridProofGenerator.cred_id credential)) as [cih|] eqn:Ecih;
    [|discriminate].
  cbn [bind] in H.
  destruct (hash3 cih nonce dh) as [nf|] eqn:Enf; [|discriminate]. cbn [bind] in H.
  destruct (HybridProofGenerator.optionalHex _) as [low|]; [|discriminate]. cbn [bind] in H.
  destruct (HybridProofGenerator.optionalHex _) as [lowNext|]; [|discriminate].
  cbn [bind] in H.
  destruct (HybridProofGenerator.mapHex _) as [sibs|]; [|discriminate]. cbn [bind] in H.
  destruct (HybridProofGenerator.generateSnarkProof _ _ _) as [sp|]; [|discriminate].
  cbn [bind] in H. injection H as <-.
  pose proof FIELD_MODULUS_bounds as Hq.
  assert (0 <= nonce < FIELD_MODULUS) as Hnonce.
  { revert Enonce. unfold randomScalar.
    destruct (BigInt_0x (bufferToHex (HybridProofGenerator.w_randomBytes w))) as [z|] eqn:E;
      [|discriminate].
    cbn [bind]. intros [= <-]. apply BigInt_0x_nonneg in E.
    rewrite Z.rem_mod_nonneg by lia. apply Z.mod_pos_bound. lia. }
  assert (Z.rem nonce FIELD_MODULUS = nonce) as Hrem by (apply Z.rem_small; lia).
  assert (Z.rem (nonce + FIELD_MODULUS) FIELD_MODULUS = nonce) as Hrem'.
  { rewrite Z.rem_mod_nonneg by lia.
    replace (nonce + FIELD_MODULUS) with (nonce + 1 * FIELD_MODULUS) by lia.
    rewrite Z.mod_add by lia. apply Z.mod_small. lia. }
  exists nonce, (mkNullifierData (toHex nf) nf (HybridProofGenerator.cred_id credential)
                   nonce (AuthTypes.domain ch)).
  split; [reflexivity|].
  assert (deriveNullifier (HybridProofGenerator.cred_id credential) nonce
            (AuthTypes.domain ch)
          = Returns (mkNullifierData (toHex nf) nf
                       (HybridProofGenerator.cred_id credential) nonce
                       (AuthTypes.domain ch))) as Hderive.
  { unfold deriveNullifier. rewrite Ecih, Edh. cbn [bind]. rewrite Hrem, Enf. reflexivity. }
  split; [exact Hderive|]. split; [reflexivity|]. split.
  - unfold deriveNullifier. rewrite Ecih, Edh. cbn [bind]. rewrite Hrem', Enf. reflexivity.
  - unfold verifyNullifier. rewrite Hderive. cbn [bind nullifier pkg_nullifier].
    rewrite bool_decide_eq_true_2 by reflexivity. reflexivity.
Qed.

End WithPoseidon.

(** Witness of [generated_nullifier_is_derived] on the package of the
    demo run. *)
Lemma generated_nullifier_is_derived_witness :
  exists pkg nonce data,
    Scenarios.generatedPackage = Returns pkg /\
    deriveNullifier (P := Scenarios.toyPoseidon) "urn:uuid:1" nonce "example.com"
    = Returns data /\
    nullifier data = pkg_nullifier pkg.
Proof.
  destruct Scenarios.generatedPackage as [pkg|e] eqn:E; [|vm_compute in E; discriminate].
  destruct (generated_nullifier_is_derived (P := Scenarios.toyPoseidon)
              Scenarios.generatorWorld "did:example:alice" Scenarios.holderCredential
              Scenarios.issuedChallenge [] pkg E)
    as (nonce & data & _ & Hd & Hn & _).
  exists pkg, nonce, data. split; [reflexivity|]. split; [exact Hd|exact Hn].
Defined.

End NullifierFacts.

(** ** The sampling loop of the proof-generation script *)

Module SamplingFacts.
Import JS JSFacts PoseidonHash Script ScriptSampling.

Section WithPoseidon.
Context {P : Poseidon}.

Lemma sampleLoop_step domain draws todo attempts last :
  sampleLoop domain draws (S todo) attempts last
  = bind (sampleOf domain (draws (S attempts))) (fun s =>
    if fits s then Returns (S attempts, Some s)
    else sampleLoop domain draws todo (S attempts) (Some s)).
Proof.
  cbn [sampleLoop]. unfold sampleOf.
  destruct (wrapperHashString domain) as [dh|]; [|reflexivity]. cbn [bind].
  destruct (wrapperHashString _) as [cih|]; [|reflexivity]. cbn [bind].
  destruct (hash3 _ _ dh) as [ps|]; [|reflexivity]. cbn [bind].
  destruct (hash3 cih _ dh) as [nf|]; reflexivity.
Qed.

Lemma sampleLoop_first_fit domain draws k s : forall todo attempts last,
  (attempts < k <= attempts + todo)%nat ->
  (forall j, (attempts < j < k)%nat ->
     exists sj, sampleOf domain (draws j) = Returns sj /\ fits sj = false) ->
  sampleOf domain (draws k) = Returns s -> fits s = true ->
  sampleLoop domain draws todo attempts last = Returns (k, Some s).
Proof.
  induction todo as [|todo IH]; intros attempts last Hk Hbefore Hs Hfit; [lia|].
  rewrite sampleLoop_step.
  destruct (Nat.eq_dec k (S attempts)) as [->|Hne].
  - rewrite Hs. cbn [bind]. rewrite Hfit. reflexivity.
  - destruct (Hbefore (S attempts) ltac:(lia)) as (sj & -> & Hsj). cbn [bind].
    rewrite Hsj. apply IH; [lia| |exact Hs|exact Hfit].
    intros j Hj. apply Hbefore. lia.
Qed.

(** X29. The script keeps the first sample that fits, unless it comes too
    late. If attempt [k] is the first whose pseudonym and nullifier are both
    below 2^252, the script goes on with the values of attempt [k] when [k]
    is at most 99; when the first fitting attempt is the hundredth, the
    script throws although its last sample fits. *)
Theorem script_keeps_first_fitting_sample (domain : string) (draws : nat -> Draw)
    (k : nat) (s : Secrets) :
  (1 <= k <= 100)%nat ->
  (forall j, (1 <= j < k)%nat ->
     exists sj, sampleOf domain (draws j) = Returns sj /\ fits sj = false) ->
  sampleOf domain (draws k) = Returns s -> fits s = true ->
  s_pseudonymRaw s < 2 ^ 252 /\ s_nullifierRaw s < 2 ^ 252 /\
  ((k < 100)%nat -> sampleSecrets domain draws = Returns s) /\
  (k = 100%nat -> exists e, sampleSecrets domain draws = Throws e).
Proof.
  intros Hk Hbefore Hs Hfit.
  assert (sampleLoop domain draws MAX_ATTEMPTS 0 None = Returns (k, Some s)) as Hloop.
  { apply sampleLoop_first_fit; [unfold MAX_ATTEMPTS; lia| |exact Hs|exact Hfit].
    intros j Hj. apply Hbefore. lia. }
  pose proof Hfit as Hfit'. unfold fits, fitsIn252Bits, MAX_252_BIT in Hfit'.
  apply andb_true_iff in Hfit' as [H1 H2]. apply Z.ltb_lt in H1, H2.
  split; [exact H1|]. split; [exact H2|].
  unfold sampleSecrets. rewrite Hloop. cbn [bind]. split.
  - intros Hlt. destruct (Nat.leb_spec MAX_ATTEMPTS k) as [Hge|_]; [|reflexivity].
    unfold MAX_ATTEMPTS in Hge. lia.
  - intros ->. eexists. reflexivity.
Qed.

End WithPoseidon.

(** Witness of [script_keeps_first_fitting_sample]: with the Poseidon
    stand-in the fourth attempt is the first that fits. *)
Lemma script_keeps_first_fitting_sample_witness :
  exists s,
    sampleSecrets (P := Scenarios.toyPoseidon) "example.com" countingDraws = Returns s /\
    s_draw s = countingDraws 4.
Proof.
  destruct (sampleOf (P := Scenarios.toyPoseidon) "example.com" (countingDraws 4))
    as [s|e] eqn:Es; [|vm_compute in Es; discriminate].
  exists s.
  destruct (script_keeps_first_fitting_sample (P := Scenarios.toyPoseidon)
              "example.com" countingDraws 4 s) as (_ & _ & Hret & _).
  - lia.
  - intros j Hj.
    assert (j = 1 \/ j = 2 \/ j = 3)%nat as [->|[->| ->]] by lia;
      (eexists; split; [vm_compute; reflexivity|vm_compute; reflexivity]).
  - exact Es.
  - vm_compute in Es. injection Es as <-. vm_compute. reflexivity.
  - split; [apply Hret; lia|].
    vm_compute in Es. injection Es as <-. reflexivity.
Defined.

End SamplingFacts.

(** ** Demo-mode packages and the hybrid verifier *)

Module DemoRunFacts.
Import JS JSFacts Crypto CryptoFacts PoseidonHash UtilityFacts AuthTypes VerifierFacts.
Import HybridProofGenerator.

Lemma isHexString_stringOfDigits (ds : list Z) :
  ds <> [] -> digitsOk 16 ds -> isHexString (stringOfDigits ds) = true.
Proof.
  intros Hne Hok. unfold isHexString.
  destruct (stringOfDigits ds) as [|a s] eqn:E.
  { apply (f_equal String.length) in E. rewrite length_stringOfDigits in E.
    destruct ds; [congruence|discriminate]. }
  rewrite <- E. unfold stringOfDigits. rewrite list_ascii_of_string_of_list_ascii.
  apply forallb_forall. intros c Hc. apply in_map_iff in Hc as (d & <- & Hd).
  apply bool_decide_eq_true. exists d. apply digitValue_digitChar; [lia|].
  unfold digitsOk in Hok. rewrite Forall_forall in Hok. apply Hok.
  apply list_elem_of_In. exact Hd.
Qed.

Lemma substring_all (s : string) : substring 0 (String.length s) s = s.
Proof. induction s as [|a s IH]; [reflexivity|]. cbn. rewrite IH. reflexivity. Qed.

Lemma toHex_shape (n : Z) :
  0 <= n < 2 ^ 256 ->
  isHexString (toHex n) = true /\ String.length (toHex n) = 64%nat /\
  substring 0 64 (toHex n) = toHex n.
Proof.
  intros Hn. destruct (toHex_digits n Hn) as (ds & Hds & Hok & Hlen & _).
  assert (String.length (toHex n) = 64%nat) as Hl
    by (rewrite Hds, length_stringOfDigits; exact Hlen).
  split; [|split; [exact Hl|]].
  - rewrite Hds. apply isHexString_stringOfDigits; [|exact Hok].
    intros ->. discriminate.
  - rewrite <- Hl at 1. apply substring_all.
Qed.

Section WithPoseidon.
Context {P : Poseidon}.
Hypothesis poseidon_range : forall l v, poseidon l = Returns v -> 0 <= v < 2 ^ 256.

Variable VerificationKey : Type.
Variable groth16_verify :
  VerificationKey -> list string -> SnarkProof -> completion bool.

(** X30. A package generated without a circuit passes the hybrid verifier's
    proof checks. When Poseidon returns numbers below 2^256, the generator
    has no circuit and no attribute is revealed, the package
    [generateHybridProof] returns carries a proof of the demo shape, which
    [verifySnarkProof] accepts with or without a verification key and
    whatever Groth16 verification says, and which passes the binding check;
    the verdict on the package is then decided by the registry-root check
    and the nullifier check alone. *)
Theorem demo_package_passes_proof_checks (w : World) (holderDid : string)
    (credential : StoredCredential) (ch : AuthChallenge) (pkg : HybridAuthPackage)
    (v : HybridVerifier.Verifier VerificationKey) (reg : HybridVerifier.Registry) :
  w_circuitReady w = false ->
  generateHybridProof w holderDid credential ch [] = Returns pkg ->
  HybridVerifier.isDemoModeProof (snarkProof (hybridProof pkg)) = true /\
  HybridVerifier.verifySnarkProof VerificationKey groth16_verify v (hybridProof pkg)
  = true /\
  HybridVerifier.verifyBinding (hybridProof pkg) = Returns true /\
  HybridVerifier.valid (HybridVerifier.verify VerificationKey groth16_verify v reg pkg)
  = HybridVerifier.verifyRegistryRoot reg (pkg_registryRoot pkg)
    && HybridVerifier.checkNullifierFresh reg (pkg_nullifier pkg).
Proof.
  intros Hdemo H. unfold generateHybridProof in H.
  destruct (randomScalar _) as [nonce|]; [|discriminate]. cbn [bind] in H.
  destruct (w_getMasterSecret w holderDid) as [ms|]; [|discriminate]. cbn [bind] in H.
  destruct (BigInt_0x _) as [bf|]; [|discriminate]. cbn [bind] in H.
  destruct (hashString (AuthTypes.domain ch)) as [dh|]; [|discriminate]. cbn [bind] in H.
  destruct (hash3 ms nonce dh) as [ps|] eqn:Eps; [|discriminate]. cbn [bind] in H.
  destruct (hashString (cred_id credential)) as [cih|]; [|discriminate]. cbn [bind] in H.
  destruct (hash3 cih nonce dh) as [nf|] eqn:Enf; [|discriminate]. cbn [bind] in H.
  destruct (optionalHex _) as [low|]; [|discriminate]. cbn [bind] in H.
  destruct (optionalHex _) as [lowNext|]; [|discriminate]. cbn [bind] in H.
  destruct (mapHex _) as [sibs|]; [|discriminate]. cbn [bind] in H.
  destruct (generateSnarkProof _ _ _) as [sp|] eqn:Esp; [|discriminate].
  cbn [bind] in H. injection H as <-.
  cbn [hybridProof snarkProof publicInputs pkg_registryRoot pkg_nullifier].
  apply poseidon_range in Eps, Enf.
  destruct (toHex_shape ps Eps) as (Hps_hex & _ & _).
  destruct (toHex_shape nf Enf) as (Hnf_hex & _ & _).
  (* the demo proof *)
  assert (exists h, String.length h = 64%nat /\
            sp = mkSnarkProof [h; h; "1"%string]
                   [[h; h]; [h; h]; ["1"; "0"]%string] [h; h; "1"%string]
                   "groth16" "bn128") as (h & Hh & ->).
  { revert Esp. unfold generateSnarkProof.
    cbn [pub_pseudonym pub_nullifier pub_commitmentHash pub_registryRoot pub_challenge].
    repeat match goal with
           | |- context [bind (hexToDecimal ?x) _] =>
               destruct (hexToDecimal x); cbn [bind]; [|discriminate]
           end.
    rewrite Hdemo. unfold generateDemoSnarkProof.
    cbn [pub_pseudonym pub_nullifier pub_challenge].
    repeat match goal with
           | |- context [bind (fromHex ?x) _] =>
               destruct (fromHex x); cbn [bind]; [|discriminate]
           end.
    destruct (hash3 _ _ _) as [seed|] eqn:Eseed; [|discriminate]. cbn [bind].
    apply poseidon_range in Eseed. destruct (toHex_shape seed Eseed) as (_ & Hl & Hsub).
    rewrite Hsub. intros [= <-]. exists (toHex seed). split; [exact Hl|reflexivity]. }
  assert (HybridVerifier.isDemoModeProof
            (mkSnarkProof [h; h; "1"%string] [[h; h]; [h; h]; ["1"; "0"]%string]
               [h; h; "1"%string] "groth16" "bn128") = true) as Hshape.
  { unfold HybridVerifier.isDemoModeProof, HybridVerifier.firstTwoEqual. cbn [pi_a].
    rewrite bool_decide_eq_true_2 by reflexivity. reflexivity. }
  set (hp := mkHybridProof _ _ None _).
  assert (HybridVerifier.verifySnarkProof VerificationKey groth16_verify v hp = true)
    as Hsnark.
  { apply verifySnarkProof_structural; [reflexivity|exact Hshape|].
    unfold HybridVerifier.performStructuralVerification.
    cbn [hp snarkProof publicInputs pi_a pub_pseudonym pub_nullifier existsb].
    assert (h <> "0"%string /\ h <> ""%string /\ h <> "1"%string) as (H0 & He & H1)
      by (repeat split; intros ->; discriminate).
    rewrite !(bool_decide_eq_false_2 _ H0), !(bool_decide_eq_false_2 _ He),
      !(bool_decide_eq_false_2 _ H1).
    cbn [negb andb orb]. rewrite Hps_hex, Hnf_hex. reflexivity. }
  assert (HybridVerifier.verifyBinding hp = Returns true) as Hbind.
  { unfold HybridVerifier.verifyBinding.
    cbn [hp publicInputs pub_commitmentHash commitmentHash bbsProof].
    rewrite bool_decide_eq_true_2 by reflexivity. reflexivity. }
  split; [exact Hshape|]. split; [exact Hsnark|]. split; [exact Hbind|].
  rewrite verify_valid. unfold HybridVerifier.proofChecks.
  cbn [hybridProof pkg_registryRoot pkg_nullifier]. fold hp.
  rewrite Hsnark, Hbind. reflexivity.
Qed.

End WithPoseidon.

Lemma toy_poseidon_below (l : list Z) (v : Z) :
  poseidon (Poseidon := Scenarios.toyPoseidon) l = Returns v -> 0 <= v < 2 ^ 256.
Proof.
  unfold poseidon, Scenarios.toyPoseidon. intros [= <-].
  assert (0 < Scenarios.BN254_ORDER < 2 ^ 256) as Hq
    by (unfold Scenarios.BN254_ORDER; split; reflexivity).
  pose proof (Z.mod_pos_bound
                (foldl (fun acc x => 31 * acc + x + 1) 7 l
                 * 0x2f3a9c5e7b1d4f6a8c0e2b4d6f8a1c3e5d7f9b0a2c4e6f8091a3b5c7d9e0f123)
                Scenarios.BN254_ORDER ltac:(lia)).
  lia.
Qed.

(** Witness of [demo_package_passes_proof_checks]: the package of the demo
    run against a verifier with a key whose Groth16 verification rejects
    everything, the registry being down. *)
Lemma demo_package_passes_proof_checks_witness :
  exists pkg,
    Scenarios.generatedPackage = Returns pkg /\
    HybridVerifier.valid
      (HybridVerifier.verify unit Scenarios.rejectAll Scenarios.loadedVerifier
         Scenarios.registryDown pkg)
    = true.
Proof.
  destruct Scenarios.generatedPackage as [pkg|e] eqn:E; [|vm_compute in E; discriminate].
  exists pkg. split; [reflexivity|].
  destruct (demo_package_passes_proof_checks (P := Scenarios.toyPoseidon)
              toy_poseidon_below
              unit Scenarios.rejectAll Scenarios.generatorWorld "did:example:alice"
              Scenarios.holderCredential Scenarios.issuedChallenge pkg
              Scenarios.loadedVerifier Scenarios.registryDown)
    as (_ & _ & _ & ->).
  - reflexivity.
  - exact E.
  - reflexivity.
Defined.

End DemoRunFacts.
